(** * PyGeodesy [geohash]: a shallow embedding and its verified properties

    The module [pygeodesy/geohash.py] encodes latitude/longitude pairs as
    base-32 geohash strings, decodes them back to bounding boxes, walks to
    adjacent cells with permutation tables and converts between precisions
    and resolutions.

    Conventions of the embedding:
    - a Python [str] is a [list ascii] (8-bit characters);
    - a Python [float] is a rational of [Q]: every bisection midpoint and
      every [ldexp] scaling met here is a dyadic fraction that binary64
      holds exactly, so these operations are exact; the decimal text
      produced by [fstr] is the rational it denotes, and the binary64
      rounding done by [float(text)] is a collaborator [float];
    - a raising computation returns [Err], a returning one [Ok];
    - the recursive method [Geohash.adjacent] takes an explicit fuel that
      counts the nesting depth of its calls. *)

From Stdlib Require Import Ascii String.
From Stdlib Require Import List ZArith QArith Qabs Qround Qpower Bool Lia Lqa.
Import ListNotations.

Open Scope Z_scope.

(** ** Strings *)

Definition str := list ascii.

Definition lit (s : string) : str := list_ascii_of_string s.

(** [hay.startswith(needle)]. *)
Fixpoint is_prefix_of (needle hay : str) : bool :=
  match needle, hay with
  | [], _ => true
  | a :: needle', b :: hay' => Ascii.eqb a b && is_prefix_of needle' hay'
  | _ :: _, [] => false
  end.

(** [hay.find(needle)] from position [i] on; [-1] when absent. *)
Fixpoint find_from (hay needle : str) (i : Z) : Z :=
  if is_prefix_of needle hay then i
  else match hay with
       | [] => -1
       | _ :: hay' => find_from hay' needle (i + 1)
       end.

Definition find (hay needle : str) : Z := find_from hay needle 0.

(** [needle in hay] on strings. *)
Definition str_in (needle hay : str) : bool := 0 <=? find hay needle.

(** [s[-1:]] and [s[:-1]] and [s[:1]]. *)
Definition last1 (s : str) : str := skipn (length s - 1) s.
Definition but_last (s : str) : str := firstn (length s - 1) s.
Definition first1 (s : str) : str := firstn 1 s.

Definition upper_char (c : ascii) : ascii :=
  let n := nat_of_ascii c in
  if ((97 <=? n) && (n <=? 122))%nat then ascii_of_nat (n - 32) else c.

Definition lower_char (c : ascii) : ascii :=
  let n := nat_of_ascii c in
  if ((65 <=? n) && (n <=? 90))%nat then ascii_of_nat (n + 32) else c.

Definition upper (s : str) : str := map upper_char s.
Definition lower (s : str) : str := map lower_char s.

Fixpoint str_eqb (a b : str) : bool :=
  match a, b with
  | [], [] => true
  | x :: a', y :: b' => Ascii.eqb x y && str_eqb a' b'
  | _, _ => false
  end.

(** ** Errors *)

(** The constructor argument [cll] of [Geohash]: another [Geohash], a
    [str], or a coordinate-bearing value. *)
Inductive Cll : Type :=
| of_Geohash (gh : str)
| of_str (s : str)
| of_LatLon (lat lon : Q).

Inductive Error : Type :=
| GeohashError_direction (direction : str)  (* GeohashError(direction=...) *)
| GeohashError_geohash (geohash : Cll)      (* GeohashError(geohash=...)   *)
| GeohashError_Geohash (geohash : str)      (* raised by _2geostr          *)
| GeohashError_lat (lat : Q)
| GeohashError_lon (lon : Q)
| GeohashError_precision (precision : Z)
| GeohashError_res (res : Q)
| GeohashError_parse (text : str)
| ValueError
| KeyError
| IndexError
| OutOfFuel.   (* not a Python exception: the fuel of the model ran out *)

Inductive result (A : Type) : Type :=
| Ok (a : A)
| Err (e : Error).
Arguments Ok {A} a.
Arguments Err {A} e.

Definition bind {A B} (m : result A) (k : A -> result B) : result B :=
  match m with
  | Ok a => k a
  | Err e => Err e
  end.

Notation "x <- m ;; k" := (bind m (fun x => k))
  (at level 61, m at next level, right associativity).

(** ** Constant tables *)

Definition _4d (n e s w : str) : list (str * (str * str)) :=
  [ (lit "N", (n, e)); (lit "S", (s, w));
    (lit "E", (e, n)); (lit "W", (w, s)) ].

Definition _Border : list (str * (str * str)) :=
  _4d (lit "prxz") (lit "bcfguvyz") (lit "028b") (lit "0145hjnp").

Definition _Neighbor : list (str * (str * str)) :=
  _4d (lit "p0r21436x8zb9dcf5h7kjnmqesgutwvy")
      (lit "bc01fg45238967deuvhjyznpkmstqrwx")
      (lit "14365h7k9dcfesgujnmqp0r2twvyx8zb")
      (lit "238967debc01fg45kmstqrwxuvhjyznp").

(** [table[d]] on a dict with string keys. *)
Fixpoint dict_get {V} (table : list (str * V)) (d : str) : option V :=
  match table with
  | [] => None
  | (k, v) :: rest => if str_eqb k d then Some v else dict_get rest d
  end.

(** [pair[e]] on a 2-tuple, for [e = len & 1]. *)
Definition tuple_get (t : str * str) (e : Z) : str :=
  if e =? 0 then fst t else snd t.

Definition _MaxPrec : Z := 12.

Definition _GeohashBase32 : str := lit "0123456789bcdefghjkmnpqrstuvwxyz".

(** [_DecodedBase32[c]]: the position of [c] in the alphabet. *)
Fixpoint index_of (c : ascii) (alphabet : str) (i : Z) : option Z :=
  match alphabet with
  | [] => None
  | a :: rest => if Ascii.eqb a c then Some i else index_of c rest (i + 1)
  end.

Definition _DecodedBase32 (c : ascii) : option Z := index_of c _GeohashBase32 0.

(** [_GeohashBase32[i]] for [0 <= i]. *)
Definition base32_at (i : Z) : result ascii :=
  match nth_error _GeohashBase32 (Z.to_nat i) with
  | Some c => Ok c
  | None => Err IndexError
  end.

(** ** Validation of geohash strings *)

Definition in_alphabet (c : ascii) : bool :=
  match _DecodedBase32 c with
  | Some _ => true
  | None => false
  end.

Definition _2geostr (geohash : str) : result str :=
  let len := Z.of_nat (length geohash) in
  if negb ((0 <? len) && (len <=? _MaxPrec))
  then Err (GeohashError_Geohash geohash)
  else
    let geostr := lower geohash in
    if forallb in_alphabet geostr
    then Ok geostr
    else Err (GeohashError_Geohash geohash).

(** A valid geohash: what a [Geohash] instance holds. *)
Definition valid_geohash (g : str) : Prop :=
  (1 <= length g <= 12)%nat /\ Forall (fun c => In c _GeohashBase32) g.

(** ** Numbers *)

Definition Qltb (x y : Q) : bool := negb (Qle_bool y x).

(** [range(lo, hi)]. *)
Definition range (lo hi : Z) : list Z :=
  map (fun k => lo + Z.of_nat k) (seq 0 (Z.to_nat (hi - lo))).

(** Modelled from the spec: [pygeodesy.fmath.favg], the midpoint of two
    values, computed as [v1 + 0.5 * (v2 - v1)].  A float has one
    representation: the rational is kept in lowest terms. *)
Definition favg (v1 v2 : Q) : Q := Qred (v1 + (1 # 2) * (v2 - v1))%Q.

(** [math.ldexp(x, k)]: [x * 2^k]. *)
Definition ldexp (x : Q) (k : Z) : Q := Qred (x * (2 # 1) ^ k)%Q.

(** Modelled from the spec: [units.Lat] and [units.Lon] with
    [Error=GeohashError] reject a coordinate outside [-90,90] and
    [-180,180]. *)
Definition Lat (lat : Q) : result Q :=
  if Qle_bool (-(90)) lat && Qle_bool lat 90 then Ok lat
  else Err (GeohashError_lat lat).

Definition Lon (lon : Q) : result Q :=
  if Qle_bool (-(180)) lon && Qle_bool lon 180 then Ok lon
  else Err (GeohashError_lon lon).

(** Modelled from the spec: [units.Precision_] with [low=1, high=_MaxPrec]
    rejects a precision outside [1,12]. *)
Definition Precision_ (precision low high : Z) : result Z :=
  if (low <=? precision) && (precision <=? high) then Ok precision
  else Err (GeohashError_precision precision).

(** [units.Degrees_] is defined outside this module; as it is called here,
    with [low=_0_0] and [Error=GeohashError], it raises the error on a
    resolution below [low] and returns the resolution otherwise. *)
Definition Degrees_ (res low : Q) : result Q :=
  if Qltb res low then Err (GeohashError_res res) else Ok res.

(** [units.Int] on an [int] is that [int]. *)
Definition Int (prec : Z) : Z := prec.

(** [int(2 - log10(h))] for [0 < h]: the number of decimals that [decode]
    keeps.  [log10] is taken exactly; the cell heights and widths it meets
    are [45 * 2^k], never close to a power of ten.  [int] truncates towards
    zero: for [h <= 100] the result is the least [d >= 0] with
    [10 < h * 10^d], above it is minus the number of times [h] can be
    divided by ten and stay at or above [100]. *)
Fixpoint decimals_up (fuel : nat) (h : Q) (d : Z) : Z :=
  match fuel with
  | O => d
  | S fuel' => if Qltb 10 h then d else decimals_up fuel' (h * 10)%Q (d + 1)
  end.

Fixpoint decimals_down (fuel : nat) (h : Q) (d : Z) : Z :=
  match fuel with
  | O => d
  | S fuel' => if Qltb h 1000 then d else decimals_down fuel' (h / 10)%Q (d - 1)
  end.

Definition int_2_minus_log10 (h : Q) : result Z :=
  if Qle_bool h 0 then Err ValueError   (* math domain error *)
  else if Qle_bool h 100
       then Ok (decimals_up (Pos.size_nat (Qden h) + 4) h 0)
       else Ok (decimals_down (Z.to_nat (Z.log2 (Qnum h))) h 0).

(** Rounding to the nearest integer, ties to even: the rounding of the
    ["%.*F"] conversion. *)
Definition round_half_even (y : Q) : Z :=
  let f := Qfloor y in
  let r := (y - inject_Z f)%Q in
  if Qltb r (1 # 2) then f
  else if Qltb (1 # 2) r then f + 1
  else if Z.even f then f else f + 1.

(** Modelled from the spec: [streprs.fstr(x, prec)] writes [x] with
    [abs(prec)] decimals (and strips trailing zeros, which leaves the value
    alone); the text is represented by the rational it denotes. *)
Definition fstr (x : Q) (prec : Z) : Q :=
  let k := ((10 # 1) ^ Z.abs prec)%Q in
  Qred (inject_Z (round_half_even (x * k)) / k)%Q.

(** [basics.map2(f, pair)]. *)
Definition map2 {A B} (f : A -> B) (t : A * A) : B * B := (f (fst t), f (snd t)).

(** ** Collaborators

    Values supplied from outside this module. *)
Class Collaborators : Type := {
  (** [float(text)]: the binary64 nearest to the number a text denotes *)
  float : Q -> Q;
  (** [interns.EPS] *)
  EPS : Q;
  (** [dms.parse3llh]: latitude and longitude of a "lat,lon" text *)
  parse3llh : str -> result (Q * Q)
}.

(** ** Bounds and centers *)

Record Bounds4Tuple : Type := mkBounds4 {
  latS : Q; lonW : Q; latN : Q; lonE : Q
}.

Definition _Bounds4 : Q * Q * Q * Q := (-(90), -(180), 90, 180)%Q.

(** [_2bounds] with [LatLon=None]. *)
Definition _2bounds (s w n e : Q) : Bounds4Tuple := mkBounds4 s w n e.

Definition _2center (b : Bounds4Tuple) : Q * Q :=
  (favg (latN b) (latS b), favg (lonE b) (lonW b)).

Definition _2fll (lat lon : Q) : result (Q * Q) :=
  lat' <- Lat lat ;;
  lon' <- Lon lon ;;
  Ok (lat', lon').

(** One pass of [for m in (16, 8, 4, 2, 1)] in [bounds]. *)
Definition bounds_bit (i : Z) (st : bool * (Q * Q * Q * Q)) (m : Z)
  : bool * (Q * Q * Q * Q) :=
  let '(d, (s, w, n, e)) := st in
  let st' :=
    if d then
      if negb (Z.land i m =? 0) then (s, favg w e, n, e) else (s, w, n, favg w e)
    else
      if negb (Z.land i m =? 0) then (favg s n, w, n, e) else (s, w, favg s n, e)
  in (negb d, st').

(** The loop [for c in gh.lower()] of [bounds]; a character outside the
    alphabet raises [KeyError]. *)
Fixpoint bounds_chars (cs : str) (st : bool * (Q * Q * Q * Q))
  : result (bool * (Q * Q * Q * Q)) :=
  match cs with
  | [] => Ok st
  | c :: cs' =>
      match _DecodedBase32 c with
      | None => Err KeyError
      | Some i => bounds_chars cs' (fold_left (bounds_bit i) [16; 8; 4; 2; 1] st)
      end
  end.

(** ** The size table *)

(** lat-, longitudinal and radial size (in meter), by precision 0..12. *)
Definition _Sizes : list (Q * Q * Q) :=
  [ (20032e3, 20000e3, 11292815.096);
    ( 5003e3,  5000e3,  2821794.075);
    (  650e3,  1225e3,   503442.397);
    (  156e3,   156e3,    88013.575);
    (  19500,   39100,    15578.683);
    (   4890,    4890,     2758.887);
    (    610,    1220,      486.710);
    (    153,     153,       86.321);
    (     19.1,    38.2,     15.239);
    (      4.77,    4.77,     2.691);
    (      0.596,   1.19,     0.475);
    (      0.149,   0.149,    0.084);
    (      0.0186,  0.0372,   0.015) ]%Q.

(** ** encode: the bisection loop *)

Record EncodeState : Type := mkEnc {
  enc_p : Z; enc_b : Z; enc_i : Z; enc_d : bool; enc_gh : str;
  enc_s : Q; enc_w : Q; enc_n : Q; enc_e : Q
}.

(** The body of [while p > 0] in [encode]. *)
Definition encode_body (lat lon : Q) (st : EncodeState) : result EncodeState :=
  let i := enc_i st + enc_i st in
  let '(i, s, w, n, e) :=
    if enc_d st then   (* bisect longitude *)
      let m := favg (enc_e st) (enc_w st) in
      if Qltb lon m then (i, enc_s st, enc_w st, enc_n st, m)
      else (i + 1, enc_s st, m, enc_n st, enc_e st)
    else               (* bisect latitude *)
      let m := favg (enc_n st) (enc_s st) in
      if Qltb lat m then (i, enc_s st, enc_w st, m, enc_e st)
      else (i + 1, m, enc_w st, enc_n st, enc_e st) in
  let d := negb (enc_d st) in
  let b := enc_b st + 1 in
  if b =? 5 then
    c <- base32_at i ;;
    Ok (mkEnc (enc_p st - 1) 0 0 d (enc_gh st ++ [c]) s w n e)
  else Ok (mkEnc (enc_p st) b i d (enc_gh st) s w n e).

Fixpoint encode_while (fuel : nat) (lat lon : Q) (st : EncodeState) : result str :=
  match fuel with
  | O => Err OutOfFuel
  | S fuel' =>
      if 0 <? enc_p st then
        st' <- encode_body lat lon st ;;
        encode_while fuel' lat lon st'
      else Ok (enc_gh st)
  end.

Definition encode_init (p : Z) : EncodeState :=
  let '(s, w, n, e) := _Bounds4 in mkEnc p 0 0 true [] s w n e.

(** [encode(lat, lon, precision)] with a precision given: the call that the
    precision search of [encode] makes on itself. *)
Definition encode_fixed (lat lon : Q) (precision : Z) : result str :=
  ll <- _2fll lat lon ;;
  p <- Precision_ precision 1 _MaxPrec ;;
  encode_while (Z.to_nat (5 * p) + 1) (fst ll) (snd ll) (encode_init p).

(** ** The module's functions *)

Section WithCollaborators.

Context {X : Collaborators}.

(** [bounds], [decode] and [encode] reach the [Geohash] constructor through
    [_2Geohash], and the constructor reaches [encode]; [G] stands for
    [_2Geohash] until the knot is tied below. *)
Section Knot.

Variable G : Cll -> result str.

Definition bounds_of (geohash : Cll) : result Bounds4Tuple :=
  gh <- G geohash ;;
  if Z.of_nat (length gh) <? 1 then Err (GeohashError_geohash geohash)
  else
    match bounds_chars (lower gh) (true, _Bounds4) with
    | Ok (_, (s, w, n, e)) => Ok (_2bounds s w n e)
    | Err KeyError => Err (GeohashError_geohash geohash)
    | Err x => Err x
    end.

Definition _bounds3_of (geohash : Cll) : result (Bounds4Tuple * Q * Q) :=
  b <- bounds_of geohash ;;
  Ok (b, (latN b - latS b)%Q, (lonE b - lonW b)%Q).

Definition decode_of (geohash : Cll) : result (Q * Q) :=
  bhw <- _bounds3_of geohash ;;
  let '(b, h, w) := bhw in
  let '(lat, lon) := _2center b in
  ph <- int_2_minus_log10 h ;;
  pw <- int_2_minus_log10 w ;;
  Ok (fstr lat ph, fstr lon pw).

(** The loop [for p in range(1, _MaxPrec + 1)] of [encode]: [Some gh] when
    it returns [gh], [None] when it runs to its end.  The differences
    [lat - ll[0]] and [lon - ll[1]] are taken exactly: two binary64 numbers
    as close as [EPS] subtract without rounding, and a rounded difference of
    two that are farther apart stays above [EPS]. *)
Fixpoint encode_infer (lat lon : Q) (ps : list Z) : result (option str) :=
  match ps with
  | [] => Ok None
  | p :: ps' =>
      gh <- encode_fixed lat lon p ;;
      t <- decode_of (of_str gh) ;;
      let ll := map2 float t in
      if Qltb (Qabs (lat - fst ll)) EPS && Qltb (Qabs (lon - snd ll)) EPS
      then Ok (Some gh)
      else encode_infer lat lon ps'
  end.

Definition encode_of (lat lon : Q) (precision : option Z) : result str :=
  ll <- _2fll lat lon ;;
  let '(lat, lon) := ll in
  match precision with
  | None =>
      found <- encode_infer lat lon (range 1 (_MaxPrec + 1)) ;;
      match found with
      | Some gh => Ok gh
      | None =>
          let p := _MaxPrec in
          encode_while (Z.to_nat (5 * p) + 1) lat lon (encode_init p)
      end
  | Some precision =>
      p <- Precision_ precision 1 _MaxPrec ;;
      encode_while (Z.to_nat (5 * p) + 1) lat lon (encode_init p)
  end.

End Knot.

(** [Geohash.__new__(cls, cll, precision)]; the fuel bounds the nesting
    constructor - [encode] - [decode] - [bounds] - constructor. *)
Fixpoint Geohash_fuel (fuel : nat) (cll : Cll) (precision : option Z) : result str :=
  match fuel with
  | O => Err OutOfFuel
  | S fuel' =>
      let _2G := fun g => match g with
                          | of_Geohash gh => Ok gh
                          | _ => Geohash_fuel fuel' g None
                          end in
      match cll with
      | of_Geohash gh => _2geostr gh
      | of_str s =>
          if str_in (lit ",") s then
            t <- parse3llh s ;;
            ll <- _2fll (fst t) (snd t) ;;
            encode_of _2G (fst ll) (snd ll) precision
          else _2geostr s
      | of_LatLon lat lon =>
          ll <- _2fll lat lon ;;
          encode_of _2G (fst ll) (snd ll) precision
      end
  end.

Definition Geohash (cll : Cll) (precision : option Z) : result str :=
  Geohash_fuel 2 cll precision.

Definition _2Geohash (geohash : Cll) : result str :=
  match geohash with
  | of_Geohash gh => Ok gh
  | _ => Geohash geohash None
  end.

Definition bounds : Cll -> result Bounds4Tuple := bounds_of _2Geohash.
Definition _bounds3 : Cll -> result (Bounds4Tuple * Q * Q) := _bounds3_of _2Geohash.
Definition decode : Cll -> result (Q * Q) := decode_of _2Geohash.
Definition encode : Q -> Q -> option Z -> result str := encode_of _2Geohash.

(** [decode2] with [LatLon=None]. *)
Definition decode2 (geohash : Cll) : result (Q * Q) :=
  t <- decode geohash ;;
  Ok (map2 float t).

(** *** Geohash.adjacent *)

Fixpoint adjacent_fuel (fuel : nat) (self : str) (direction : str) : result str :=
  match fuel with
  | O => Err OutOfFuel
  | S fuel' =>
      let d := upper (first1 direction) in
      match dict_get _Neighbor d with
      | None => Err (GeohashError_direction direction)
      | Some nb =>
          let e := Z.land (Z.of_nat (length self)) 1 in
          let c := last1 self in              (* last hash char *)
          let i := find (tuple_get nb e) c in
          if i <? 0 then Err (GeohashError_geohash (of_Geohash self))
          else
            let p := but_last self in         (* hash without last char *)
            p' <- match p with
                  | [] => Ok p
                  | _ :: _ =>
                      match dict_get _Border d with
                      | None => Err KeyError
                      | Some bd =>
                          if str_in c (tuple_get bd e) then
                            gp <- Geohash (of_str p) None ;;
                            adjacent_fuel fuel' gp d
                          else Ok p
                      end
                  end ;;
            ch <- base32_at i ;;
            Geohash (of_str (p' ++ [ch])) None
      end
  end.

(** The method itself: the nesting of its calls never exceeds the length
    of [self] (one call for the empty string). *)
Definition adjacent (self direction : str) : result str :=
  adjacent_fuel (S (length self)) self direction.

(** *** Geohash.distance1To and distance1 *)

(** [for n in range(n): if self[n] != other[n]: break]; the result is the
    value of [n] after the loop. *)
Fixpoint distance1_loop (self other : str) (ks : list Z) (n : Z) : result Z :=
  match ks with
  | [] => Ok n
  | k :: ks' =>
      match nth_error self (Z.to_nat k), nth_error other (Z.to_nat k) with
      | Some a, Some b =>
          if Ascii.eqb a b then distance1_loop self other ks' k else Ok k
      | _, _ => Err IndexError
      end
  end.

Definition distance1To (self : str) (other : Cll) : result Q :=
  other <- _2Geohash other ;;
  let n := Z.min (Z.min (Z.of_nat (length self)) (Z.of_nat (length other)))
                 (Z.of_nat (length _Sizes)) in
  n <- distance1_loop self other (range 0 n) n ;;
  match nth_error _Sizes (Z.to_nat n) with
  | Some t => Ok (snd t)
  | None => Err IndexError
  end.

Definition distance1 (geohash1 geohash2 : Cll) : result Q :=
  self <- _2Geohash geohash1 ;;
  distance1To self geohash2.

End WithCollaborators.

(** ** Resolutions and precisions *)

(** [resolution2(prec1, prec2)]; [prec2 = None] is the default. *)
Definition resolution2 (prec1 : Z) (prec2 : option Z) : Q * Q :=
  let res1 := 360%Q in
  let res2 := 180%Q in   (* note ... lon, lat! *)
  let '(res1, res2) :=
    if negb (prec1 =? 0) then
      let p := 5 * Z.max 0 (Z.min (Int prec1) _MaxPrec) in
      let r := ldexp res1 (- (p - p / 2)) in
      (r, r)               (* res1 = res2 = ldexp(res1, ...) *)
    else (res1, res2) in
  let res2 :=
    match prec2 with
    | Some prec2 =>
        if negb (prec2 =? 0) then
          let p := 5 * Z.max 0 (Z.min (Int prec2) _MaxPrec) in
          ldexp res2 (- (p / 2))
        else res2
    | None => res2
    end in
  (res1, res2).

(** [a <= b] on 2-tuples of floats: Python compares tuples
    lexicographically. *)
Definition tuple_le (a b : Q * Q) : bool :=
  if Qeq_bool (fst a) (fst b) then Qle_bool (snd a) (snd b)
  else Qle_bool (fst a) (fst b).

(** The loops [for p in range(1, _MaxPrec)] of [precision]. *)
Fixpoint precision_loop (prec2_of : Z -> option Z) (t : Q * Q) (ps : list Z)
  : option Z :=
  match ps with
  | [] => None
  | p :: ps' =>
      if tuple_le (resolution2 p (prec2_of p)) t then Some p
      else precision_loop prec2_of t ps'
  end.

Definition precision (res1 : Q) (res2 : option Q) : result Z :=
  r <- Degrees_ res1 0 ;;
  match res2 with
  | None =>
      let t := (r, r) in
      match precision_loop (fun _ => None) t (range 1 _MaxPrec) with
      | Some p => Ok p
      | None => Ok _MaxPrec
      end
  | Some res2 =>
      r2 <- Degrees_ res2 0 ;;
      let t := (r, r2) in
      match precision_loop (fun p => Some p) t (range 1 _MaxPrec) with
      | Some p => Ok p
      | None => Ok _MaxPrec
      end
  end.

(** ** More of the module: instances, errors of decoding, sizes, neighbors *)

(** A [Geohash] instance: the string it is, and the attribute [_latlon]
    that [__new__] sets when the instance is built from a coordinate. *)
Record GeohashObj : Type := mkGeohash {
  gh_str : str;
  gh_latlon : option (Q * Q)
}.

(** The eight cells of [Neighbors8Dict]. *)
Record Neighbors8Dict : Type := mkNeighbors8 {
  nb_N : str; nb_NE : str; nb_E : str; nb_SE : str;
  nb_S : str; nb_SW : str; nb_W : str; nb_NW : str
}.

Section MoreFunctions.

Context {X : Collaborators}.

(** [Geohash.__new__] once more, with the attribute it leaves on the
    instance; the string is the one [Geohash] returns. *)
Definition Geohash_new (cll : Cll) (precision : option Z) : result GeohashObj :=
  match cll with
  | of_Geohash gh =>
      gh' <- _2geostr gh ;;
      Ok (mkGeohash gh' None)
  | of_str s =>
      if str_in (lit ",") s then
        t <- parse3llh s ;;
        ll <- _2fll (fst t) (snd t) ;;
        gh <- encode (fst ll) (snd ll) precision ;;
        Ok (mkGeohash gh (Some ll))
      else
        gh <- _2geostr s ;;
        Ok (mkGeohash gh None)
  | of_LatLon lat lon =>
      ll <- _2fll lat lon ;;
      gh <- encode (fst ll) (snd ll) precision ;;
      Ok (mkGeohash gh (Some ll))
  end.

(** The property [Geohash.latlon]: the coordinate the instance was built
    from, or else the center of its bounds. *)
Definition latlon (self : GeohashObj) : result (Q * Q) :=
  match gh_latlon self with
  | Some ll => Ok ll
  | None =>
      b <- bounds (of_Geohash (gh_str self)) ;;
      Ok (_2center b)
  end.

(** [decode_error]: half the height and half the width of the cell. *)
Definition decode_error (geohash : Cll) : result (Q * Q) :=
  bhw <- _bounds3 geohash ;;
  let '(_, h, w) := bhw in
  Ok (Qred (h * (1 # 2)), Qred (w * (1 # 2))).



(** The properties [N], [S], [E], [W] and the diagonals, each diagonal the
    composition of two cardinal steps. *)
Definition Geohash_N (self : str) : result str := adjacent self (lit "N").
Definition Geohash_S (self : str) : result str := adjacent self (lit "S").
Definition Geohash_E (self : str) : result str := adjacent self (lit "E").
Definition Geohash_W (self : str) : result str := adjacent self (lit "W").
Definition Geohash_NE (self : str) : result str := n <- Geohash_N self ;; Geohash_E n.
Definition Geohash_NW (self : str) : result str := n <- Geohash_N self ;; Geohash_W n.
Definition Geohash_SE (self : str) : result str := s <- Geohash_S self ;; Geohash_E s.
Definition Geohash_SW (self : str) : result str := s <- Geohash_S self ;; Geohash_W s.

(** The property [Geohash.neighbors] and the function [neighbors]. *)
Definition Geohash_neighbors (self : str) : result Neighbors8Dict :=
  n <- Geohash_N self ;;
  ne <- Geohash_NE self ;;
  e <- Geohash_E self ;;
  se <- Geohash_SE self ;;
  s <- Geohash_S self ;;
  sw <- Geohash_SW self ;;
  w <- Geohash_W self ;;
  nw <- Geohash_NW self ;;
  Ok (mkNeighbors8 n ne e se s sw w nw).

Definition neighbors (geohash : Cll) : result Neighbors8Dict :=
  self <- _2Geohash geohash ;;
  Geohash_neighbors self.

End MoreFunctions.

(** * Specification vocabulary

    Definitions that the statements below are written with. *)

(** ** Directions and the tables, character by character *)

Definition cardinal : list str := [lit "N"; lit "S"; lit "E"; lit "W"].

Inductive opposite : str -> str -> Prop :=
| opposite_N_S : opposite (lit "N") (lit "S")
| opposite_S_N : opposite (lit "S") (lit "N")
| opposite_E_W : opposite (lit "E") (lit "W")
| opposite_W_E : opposite (lit "W") (lit "E").

(** What the tables make of the last character [c] of a string of parity
    [e] in direction [d]: the character that replaces it, and whether the
    step leaves the parent cell. *)
Definition step_char (d : str) (e : Z) (c : ascii) : option (ascii * bool) :=
  match dict_get _Neighbor d, dict_get _Border d with
  | Some nb, Some bd =>
      let i := find (tuple_get nb e) [c] in
      if i <? 0 then None
      else match base32_at i with
           | Ok ch => Some (ch, str_in [c] (tuple_get bd e))
           | Err _ => None
           end
  | _, _ => None
  end.

Definition pair_check (d d' : str) (e : Z) (c : ascii) : bool :=
  match step_char d e c with
  | Some (ch, b) =>
      in_alphabet ch &&
      match step_char d' e ch with
      | Some (c2, b2) => Ascii.eqb c2 c && Bool.eqb b2 b
      | None => false
      end
  | None => false
  end.

(** A collaborator set for concrete evaluations: exact floats, the binary64
    machine epsilon, and a coordinate parser that accepts nothing. *)
Definition exact_floats : Collaborators :=
  {| float := fun x => x;
     EPS := 1 # 4503599627370496;
     parse3llh := fun s => Err (GeohashError_parse s) |}.


(** The cell of [g] reaches a pole or the antimeridian. *)
Definition touches_edge {X : Collaborators} (g : str) : Prop :=
  match bounds (of_Geohash g) with
  | Ok b => latS b == -(90) \/ latN b == 90 \/ lonW b == -(180) \/ lonE b == 180
  | Err _ => True
  end.

(** The length of the common prefix of two strings. *)
Fixpoint common_prefix_len (a b : str) : nat :=
  match a, b with
  | x :: a', y :: b' => if Ascii.eqb x y then S (common_prefix_len a' b') else 0
  | _, _ => 0
  end.

(** [_Sizes[n][2]]. *)
Definition radial_size (n : nat) : option Q := option_map snd (nth_error _Sizes n).

(** The index that [distance1To] reads [_Sizes] at: the position of the
    first difference, or the last common position when there is none. *)
Definition distance1_index (a b : str) : nat :=
  let m := Nat.min (length a) (length b) in
  let k := common_prefix_len a b in
  if (k <? m)%nat then k else (m - 1)%nat.

(** [(1/2)^n]. *)
Fixpoint halfpow (n : nat) : Q :=
  match n with
  | O => 1
  | S n' => (1 # 2) * halfpow n'
  end.

(** The box after [a] halvings of the longitude range and [b] of the
    latitude range; [d] tells that longitude comes next. *)
Definition box_inv (a b : nat) (st : bool * (Q * Q * Q * Q)) : Prop :=
  let '(d, (s, w, n, e)) := st in
  ((d = true /\ a = b) \/ (d = false /\ a = S b)) /\
  (e - w == 360 * halfpow a)%Q /\ (n - s == 180 * halfpow b)%Q /\
  (-(90) <= s)%Q /\ (n <= 90)%Q /\ (-(180) <= w)%Q /\ (e <= 180)%Q.

(** [10^n]. *)
Fixpoint tenpow (n : nat) : Q :=
  match n with
  | O => 1
  | S n' => 10 * tenpow n'
  end.

(** The contract of [float(text)] that the box needs: binary64 rounds a
    number of magnitude at most 180 by at most half a unit in the last
    place, [2^-46]. *)
Definition float_rounds (X : Collaborators) : Prop :=
  forall x, (Qabs x <= 180)%Q -> (Qabs (float x - x) <= 1 # 70368744177664)%Q.

Section RoundTrip.

Context {X : Collaborators}.

(** The test of the search at precision [p]: the candidate is encoded,
    decoded by [decode] and read back by [float], and both coordinates are
    within [EPS] of the ones given. *)
Definition round_trip_ok (lat lon : Q) (p : Z) : bool :=
  match encode lat lon (Some p) with
  | Ok gh =>
      match decode (of_str gh) with
      | Ok t =>
          let ll := map2 float t in
          Qltb (Qabs (lat - fst ll)) EPS && Qltb (Qabs (lon - snd ll)) EPS
      | Err _ => false
      end
  | Err _ => false
  end.

(** The same test read with the words of the specification, the candidate
    decoded to the center of its cell: the midpoint of its box on each
    axis, unrounded. *)
Definition center_round_trip_ok (lat lon : Q) (p : Z) : bool :=
  match encode lat lon (Some p) with
  | Ok gh =>
      match bounds (of_str gh) with
      | Ok b =>
          let c := _2center b in
          Qltb (Qabs (lat - fst c)) EPS && Qltb (Qabs (lon - snd c)) EPS
      | Err _ => false
      end
  | Err _ => false
  end.

End RoundTrip.

(** ** The bisection, bit by bit *)

(** One bisection of the box with the bit [beta] given: the upper half for
    [true], the lower half for [false]; longitude when [d], latitude
    otherwise. *)
Definition bit_step (st : bool * (Q * Q * Q * Q)) (beta : bool)
  : bool * (Q * Q * Q * Q) :=
  let '(d, (s, w, n, e)) := st in
  (negb d,
   if d then (if beta then (s, favg w e, n, e) else (s, w, n, favg w e))
   else (if beta then (favg s n, w, n, e) else (s, w, favg s n, e))).

(** The bit that [encode] emits for a point at a box. *)
Definition point_bit (lat lon : Q) (st : bool * (Q * Q * Q * Q)) : bool :=
  let '(d, (s, w, n, e)) := st in
  if d then negb (Qltb lon (favg w e)) else negb (Qltb lat (favg s n)).

(** The next [k] bits of a point, and the box they lead to. *)
Fixpoint point_bits (k : nat) (lat lon : Q) (st : bool * (Q * Q * Q * Q))
  : list bool * (bool * (Q * Q * Q * Q)) :=
  match k with
  | O => ([], st)
  | S k' =>
      let beta := point_bit lat lon st in
      let r := point_bits k' lat lon (bit_step st beta) in
      (beta :: fst r, snd r)
  end.

(** The number that [i += i; i += 1] builds from bits, most significant
    first. *)
Definition int_of_bits (acc : Z) (bits : list bool) : Z :=
  fold_left (fun a (beta : bool) => a + a + (if beta then 1 else 0)) bits acc.

(** The bits that the masks [16, 8, 4, 2, 1] read off a number. *)
Definition bits_of (i : Z) : list bool :=
  map (fun m => negb (Z.land i m =? 0)) [16; 8; 4; 2; 1].

(** The next [n] characters of a point, and the box they lead to. *)
Fixpoint enc_chars (n : nat) (lat lon : Q) (st : bool * (Q * Q * Q * Q))
  : result (str * (bool * (Q * Q * Q * Q))) :=
  match n with
  | O => Ok ([], st)
  | S n' =>
      let r := point_bits 5 lat lon st in
      c <- base32_at (int_of_bits 0 (fst r)) ;;
      r' <- enc_chars n' lat lon (snd r) ;;
      Ok (c :: fst r', snd r')
  end.

(** A point of the cell: south and west edges belong to it, north and east
    edges do not. *)
Definition in_cell (lat lon : Q) (b : Q * Q * Q * Q) : Prop :=
  let '(s, w, n, e) := b in (s <= lat < n)%Q /\ (w <= lon < e)%Q.

(** A point of the closed box. *)
Definition in_box (lat lon : Q) (b : Q * Q * Q * Q) : Prop :=
  let '(s, w, n, e) := b in (s <= lat <= n)%Q /\ (w <= lon <= e)%Q.

(** The box [b1] lies inside the box [b2]. *)
Definition box_sub (b1 b2 : Q * Q * Q * Q) : Prop :=
  let '(s1, w1, n1, e1) := b1 in
  let '(s2, w2, n2, e2) := b2 in
  (s2 <= s1)%Q /\ (n1 <= n2)%Q /\ (w2 <= w1)%Q /\ (e1 <= e2)%Q.

Definition box_of (b : Bounds4Tuple) : Q * Q * Q * Q :=
  (latS b, lonW b, latN b, lonE b).

(** The box and the axis that [encode] holds in its local variables. *)
Definition enc_box (st : EncodeState) : bool * (Q * Q * Q * Q) :=
  (enc_d st, (enc_s st, enc_w st, enc_n st, enc_e st)).

(** The local variables of [encode] with the box and the axis given. *)
Definition enc_state (p b i : Z) (gh : str) (bx : bool * (Q * Q * Q * Q))
  : EncodeState :=
  let '(d, (s, w, n, e)) := bx in mkEnc p b i d gh s w n e.

(** What [encode] keeps true of its box: the point is in it, and below
    its north and east edges unless it lies on those of the globe. *)
Definition point_inv (lat lon : Q) (b : Q * Q * Q * Q) : Prop :=
  in_box lat lon b /\
  let '(s, w, n, e) := b in
  ((lat < 90)%Q -> (lat < n)%Q) /\ ((lon < 180)%Q -> (lon < e)%Q).

(** A precision argument that [encode] accepts: omitted, or in 1..12. *)
Definition precision_ok (precision : option Z) : Prop :=
  match precision with
  | Some p => 1 <= p <= 12
  | None => True
  end.

(** The first component of [resolution2]: the longitude resolution. *)
Definition lon_res (p : Z) : Q := fst (resolution2 p None).

(** ** Cells as columns and rows *)

(** The column and the row of a cell among the cells of its length, counted
    from the antimeridian and from the south pole: each bisection appends
    its bit to the column when it halves the longitude range, to the row
    when it halves the latitude range. *)
Definition xy_step (st : bool * (Z * Z)) (beta : bool) : bool * (Z * Z) :=
  let '(d, (x, y)) := st in
  (negb d, if d then (x + x + (if beta then 1 else 0), y)
           else (x, y + y + (if beta then 1 else 0))).

Fixpoint xy_chars (cs : str) (st : bool * (Z * Z)) : bool * (Z * Z) :=
  match cs with
  | [] => st
  | c :: cs' =>
      match _DecodedBase32 c with
      | Some i => xy_chars cs' (fold_left xy_step (bits_of i) st)
      | None => xy_chars cs' st
      end
  end.

Definition cell_xy (g : str) : Z * Z := snd (xy_chars g (true, (0, 0))).

(** The column and the row of a symbol inside its parent cell; [d] tells
    that its first bit bisects the longitude range. *)
Definition char_xy (d : bool) (i : Z) : Z * Z :=
  snd (fold_left xy_step (bits_of i) (d, (0, 0))).

(** The numbers of columns and of rows that a symbol divides its parent
    cell into. *)
Definition char_cols (d : bool) : Z := if d then 8 else 4.
Definition char_rows (d : bool) : Z := if d then 4 else 8.

(** The numbers of bisections of the longitude and of the latitude range
    in a geohash of length [L]. *)
Definition lon_bits (L : nat) : nat := ((5 * L + 1) / 2)%nat.
Definition lat_bits (L : nat) : nat := (5 * L / 2)%nat.

(** The step of a direction in columns and rows. *)
Definition delta (d : str) : Z * Z :=
  if str_eqb d (lit "N") then (0, 1)
  else if str_eqb d (lit "S") then (0, -1)
  else if str_eqb d (lit "E") then (1, 0)
  else if str_eqb d (lit "W") then (-1, 0)
  else (0, 0).

(** The tables against columns and rows: the symbol that replaces [c] lies
    one step further in its parent cell, around the edge if need be, and
    the border table tells when the step leaves the parent. *)
Definition geo_check (d : str) (e : Z) (c : ascii) : bool :=
  let lonfirst := e =? 1 in
  let hx := char_cols lonfirst in
  let hy := char_rows lonfirst in
  match _DecodedBase32 c, step_char d e c with
  | Some i, Some (ch, b) =>
      match _DecodedBase32 ch with
      | Some j =>
          let '(cx, cy) := char_xy lonfirst i in
          let '(dx, dy) := delta d in
          let '(cx', cy') := char_xy lonfirst j in
          (0 <=? cx) && (cx <? hx) && (0 <=? cy) && (cy <? hy) &&
          (cx' =? (cx + dx) mod hx) && (cy' =? (cy + dy) mod hy) &&
          ((cx + dx) / hx =? (if b then dx else 0)) &&
          ((cy + dy) / hy =? (if b then dy else 0))
      | None => false
      end
  | _, _ => false
  end.

(** The box and the column and row reached after [a] bisections of the
    longitude range and [b] of the latitude range agree. *)
Definition joint_inv (a b : nat) (st : bool * (Q * Q * Q * Q)) (q : bool * (Z * Z))
  : Prop :=
  box_inv a b st /\ fst q = fst st /\
  let '(s, w, n, e) := snd st in
  let '(x, y) := snd q in
  0 <= x < 2 ^ Z.of_nat a /\ 0 <= y < 2 ^ Z.of_nat b /\
  (w == -(180) + inject_Z x * (360 * halfpow a))%Q /\
  (s == -(90) + inject_Z y * (180 * halfpow b))%Q.

(** One axis of a box after a step of [k] cells along it, on a globe that
    reaches from [gmin] to [gmax]: the extent is kept; no step leaves the
    range alone, a step up starts where the range ended, a step down ends
    where it started, and at the edge of the globe the step goes on from
    the opposite edge. *)
Definition axis_moved (k : Z) (gmin gmax lo hi lo' hi' : Q) : Prop :=
  (hi' - lo' == hi - lo)%Q /\
  (k = 0 -> (lo' == lo)%Q) /\
  (k = 1 -> ((hi < gmax)%Q -> (lo' == hi)%Q) /\ ((hi == gmax)%Q -> (lo' == gmin)%Q)) /\
  (k = -1 -> ((gmin < lo)%Q -> (hi' == lo)%Q) /\ ((lo == gmin)%Q -> (hi' == gmax)%Q)).

(** Steps of [adjacent], one after the other. *)
Fixpoint walk {X : Collaborators} (g : str) (ds : list str) : result str :=
  match ds with
  | [] => Ok g
  | d :: ds' => r <- adjacent g d ;; walk r ds'
  end.

(** The columns and rows that a list of directions adds up to. *)
Fixpoint displacement (ds : list str) : Z * Z :=
  match ds with
  | [] => (0, 0)
  | d :: ds' => (fst (delta d) + fst (displacement ds'),
                 snd (delta d) + snd (displacement ds'))
  end.

(** * Properties *)

(** ** The alphabet and the validation of strings *)

Lemma index_of_In c l : forall i j, index_of c l i = Some j -> In c l.
Proof.
  induction l as [|a l IH]; simpl; intros i j Hj.
  - discriminate.
  - destruct (Ascii.eqb_spec a c) as [->|_]; [now left | right; eauto].
Qed.

Lemma In_index_of c l : In c l -> forall i, exists j, index_of c l i = Some j.
Proof.
  induction l as [|a l IH]; simpl; intros Hin i.
  - contradiction.
  - destruct (Ascii.eqb_spec a c) as [_|Hne]; [eauto|].
    destruct Hin as [Heq|Hin]; [contradiction|]. apply IH; assumption.
Qed.

Lemma in_alphabet_In c : in_alphabet c = true <-> In c _GeohashBase32.
Proof.
  unfold in_alphabet, _DecodedBase32. split.
  - destruct (index_of c _GeohashBase32 0) eqn:E; [|discriminate].
    intros _. eapply index_of_In; eassumption.
  - intros Hin. destruct (In_index_of _ _ Hin 0) as [j ->]. reflexivity.
Qed.

(** A property checked on each of the 32 symbols holds of every symbol. *)
Lemma alphabet_forall (f : ascii -> bool) :
  forallb f _GeohashBase32 = true ->
  forall c, In c _GeohashBase32 -> f c = true.
Proof. intros H c Hc. rewrite forallb_forall in H. auto. Qed.

Lemma lower_alphabet c : In c _GeohashBase32 -> lower_char c = c.
Proof.
  intros Hc. apply Ascii.eqb_eq.
  revert c Hc. apply alphabet_forall. vm_compute. reflexivity.
Qed.

Lemma comma_not_in_alphabet c : In c _GeohashBase32 -> c <> ","%char.
Proof.
  intros Hc Heq.
  assert (H : negb (Ascii.eqb c ","%char) = true).
  { clear Heq. revert c Hc. apply alphabet_forall. vm_compute. reflexivity. }
  subst c. vm_compute in H. discriminate.
Qed.

Lemma lower_valid g : Forall (fun c => In c _GeohashBase32) g -> lower g = g.
Proof.
  unfold lower. induction 1 as [|c g Hc _ IH]; cbn [map]; [reflexivity|].
  f_equal; [apply lower_alphabet; assumption | exact IH].
Qed.

Lemma _2geostr_valid g : valid_geohash g -> _2geostr g = Ok g.
Proof.
  intros [Hlen Hall]. unfold _2geostr, _MaxPrec.
  replace ((0 <? Z.of_nat (length g)) && (Z.of_nat (length g) <=? 12)) with true.
  2:{ symmetry. apply andb_true_iff. split; [apply Z.ltb_lt | apply Z.leb_le]; lia. }
  simpl. rewrite (lower_valid g Hall).
  replace (forallb in_alphabet g) with true; [reflexivity|].
  symmetry. apply forallb_forall. intros c Hc. apply in_alphabet_In.
  rewrite Forall_forall in Hall. auto.
Qed.

Lemma _2geostr_Ok g r : _2geostr g = Ok r -> valid_geohash r /\ r = lower g.
Proof.
  unfold _2geostr, _MaxPrec.
  destruct ((0 <? Z.of_nat (length g)) && (Z.of_nat (length g) <=? 12)) eqn:E;
    simpl; [|discriminate].
  destruct (forallb in_alphabet (lower g)) eqn:F; [|discriminate].
  intros [= <-]. split; [|reflexivity].
  apply andb_true_iff in E. destruct E as [E1 E2].
  apply Z.ltb_lt in E1. apply Z.leb_le in E2.
  split.
  - unfold lower. rewrite length_map. lia.
  - apply Forall_forall. intros c Hc. apply in_alphabet_In.
    rewrite forallb_forall in F. auto.
Qed.

Lemma find_from_absent (c : ascii) hay :
  ~ In c hay -> forall i, find_from hay [c] i = -1.
Proof.
  induction hay as [|a hay IH]; intros Hnot i; cbn [find_from is_prefix_of].
  - reflexivity.
  - destruct (Ascii.eqb_spec c a) as [->|_].
    + exfalso. apply Hnot. now left.
    + cbn [andb]. apply IH. intros Hin. apply Hnot. now right.
Qed.

Lemma no_comma g : valid_geohash g -> str_in (lit ",") g = false.
Proof.
  intros [_ Hall]. unfold str_in, find. change (lit ",") with [","%char].
  rewrite find_from_absent; [reflexivity|].
  intros Hin. rewrite Forall_forall in Hall.
  exact (comma_not_in_alphabet _ (Hall _ Hin) eq_refl).
Qed.

Section ConstructorFacts.

Context {X : Collaborators}.

Lemma Geohash_fuel_valid fuel g :
  valid_geohash g -> Geohash_fuel (S fuel) (of_str g) None = Ok g.
Proof.
  intros Hg. cbn [Geohash_fuel]. rewrite (no_comma g Hg).
  apply _2geostr_valid; assumption.
Qed.

(** The constructor leaves a valid geohash string as it is. *)
Lemma Geohash_valid g : valid_geohash g -> Geohash (of_str g) None = Ok g.
Proof. apply Geohash_fuel_valid. Qed.

Lemma _2Geohash_valid g : valid_geohash g -> _2Geohash (of_str g) = Ok g.
Proof. apply Geohash_valid. Qed.

End ConstructorFacts.

(** ** Adjacency: the tables *)

Lemma pair_check_sound d d' e c :
  pair_check d d' e c = true ->
  exists ch b, step_char d e c = Some (ch, b) /\ In ch _GeohashBase32 /\
               step_char d' e ch = Some (c, b).
Proof.
  unfold pair_check.
  destruct (step_char d e c) as [[ch b]|]; [|discriminate].
  intros H. apply andb_true_iff in H. destruct H as [Hch H].
  destruct (step_char d' e ch) as [[c2 b2]|] eqn:E; [|discriminate].
  apply andb_true_iff in H. destruct H as [Hc Hb].
  apply Ascii.eqb_eq in Hc. apply Bool.eqb_prop in Hb. subst.
  exists ch, b.
  split; [reflexivity | split; [apply in_alphabet_In; assumption | exact E]].
Qed.

Lemma parity_cases n : Z.land (Z.of_nat n) 1 = 0 \/ Z.land (Z.of_nat n) 1 = 1.
Proof.
  assert (E : Z.land (Z.of_nat n) 1 = Z.of_nat n mod 2).
  { change 1 with (Z.ones 1). rewrite Z.land_ones by lia. reflexivity. }
  rewrite E.
  assert (H := Z.mod_pos_bound (Z.of_nat n) 2 eq_refl). lia.
Qed.

(** The permutation of one direction undoes the permutation of the opposite
    one, and the two agree on which steps cross the parent's border. *)
Lemma step_char_opposite d d' e c :
  opposite d d' -> e = 0 \/ e = 1 -> In c _GeohashBase32 ->
  exists ch b, step_char d e c = Some (ch, b) /\ In ch _GeohashBase32 /\
               step_char d' e ch = Some (c, b).
Proof.
  intros Hopp He Hc. apply pair_check_sound. revert c Hc.
  apply alphabet_forall.
  destruct Hopp; destruct He as [-> | ->]; vm_compute; reflexivity.
Qed.

Lemma opposite_sym d d' : opposite d d' -> opposite d' d.
Proof. destruct 1; constructor. Qed.

Lemma opposite_cardinal d d' : opposite d d' -> In d cardinal.
Proof. destruct 1; unfold cardinal; simpl; auto. Qed.

Lemma cardinal_opposite d : In d cardinal -> exists d', opposite d d'.
Proof.
  unfold cardinal. simpl.
  intros [<-|[<-|[<-|[<-|[]]]]]; eexists; constructor.
Qed.

Lemma cardinal_upper d : In d cardinal -> upper (first1 d) = d.
Proof.
  unfold cardinal. simpl. intros [<-|[<-|[<-|[<-|[]]]]]; reflexivity.
Qed.

Lemma dict_get_cardinal d :
  (exists nb, dict_get _Neighbor d = Some nb) <-> In d cardinal.
Proof.
  assert (Heq : forall a b, str_eqb a b = true -> a = b).
  { induction a as [|x a IH]; destruct b as [|y b]; simpl; try discriminate; auto.
    intros H. apply andb_true_iff in H. destruct H as [H1 H2].
    apply Ascii.eqb_eq in H1. f_equal; auto. }
  split.
  - intros [nb H]. unfold _Neighbor, _4d in H. cbn [dict_get] in H.
    unfold cardinal.
    repeat match type of H with
    | (if str_eqb ?k d then _ else _) = _ =>
        destruct (str_eqb k d) eqn:E;
        [apply Heq in E; rewrite <- E; simpl; tauto | clear E]
    end.
    discriminate.
  - unfold cardinal. simpl. intros [<-|[<-|[<-|[<-|[]]]]]; eexists; reflexivity.
Qed.

(** ** Adjacency: the recursion *)

Lemma last1_snoc (p : str) c : last1 (p ++ [c]) = [c].
Proof.
  unfold last1. rewrite length_app. simpl.
  replace (length p + 1 - 1)%nat with (length p + 0)%nat by lia.
  rewrite skipn_app, Nat.add_0_r, skipn_all.
  replace (length p - length p)%nat with 0%nat by lia. reflexivity.
Qed.

Lemma but_last_snoc (p : str) c : but_last (p ++ [c]) = p.
Proof.
  unfold but_last. rewrite length_app. simpl.
  replace (length p + 1 - 1)%nat with (length p) by lia.
  rewrite firstn_app, firstn_all, Nat.sub_diag. simpl. apply app_nil_r.
Qed.

Lemma valid_snoc p c :
  valid_geohash (p ++ [c]) ->
  In c _GeohashBase32 /\ (length p <= 11)%nat /\ (p <> [] -> valid_geohash p).
Proof.
  intros [Hlen Hall]. rewrite length_app in Hlen. simpl in Hlen.
  apply Forall_app in Hall. destruct Hall as [Hp Hc].
  inversion Hc; subst. repeat split; try assumption; try lia.
  destruct p; [congruence | simpl; lia].
Qed.

Lemma valid_snoc_intro p c :
  (p = [] \/ valid_geohash p) -> (length p <= 11)%nat -> In c _GeohashBase32 ->
  valid_geohash (p ++ [c]).
Proof.
  intros Hp Hlen Hc. split.
  - rewrite length_app. simpl. lia.
  - apply Forall_app. split.
    + destruct Hp as [->|[_ H]]; [apply Forall_nil | assumption].
    + apply Forall_cons; [assumption | apply Forall_nil].
Qed.

Section Adjacency.

Context {X : Collaborators}.

(** One call of [adjacent], its table look-ups replaced by [step_char]. *)
Lemma adjacent_fuel_step fuel p c d ch b :
  upper (first1 d) = d ->
  step_char d (Z.land (Z.of_nat (length (p ++ [c]))) 1) c = Some (ch, b) ->
  adjacent_fuel (S fuel) (p ++ [c]) d =
    (p' <- match p with
           | [] => Ok p
           | _ :: _ => if b then gp <- Geohash (of_str p) None ;;
                                  adjacent_fuel fuel gp d
                       else Ok p
           end ;;
     Geohash (of_str (p' ++ [ch])) None).
Proof.
  intros Hd Hstep. cbn [adjacent_fuel]. rewrite Hd, last1_snoc, but_last_snoc.
  unfold step_char in Hstep.
  destruct (dict_get _Neighbor d) as [nb|]; [|discriminate].
  destruct (dict_get _Border d) as [bd|]; [|discriminate].
  cbv zeta in Hstep.
  destruct (find (tuple_get nb (Z.land (Z.of_nat (length (p ++ [c]))) 1)) [c] <? 0);
    [discriminate|].
  destruct (base32_at _) as [ch'|]; [|discriminate].
  injection Hstep as -> <-.
  destruct p as [|a p]; [reflexivity|].
  destruct (str_in [c] _); [|reflexivity].
  unfold bind. destruct (Geohash (of_str (a :: p)) None); [|reflexivity].
  destruct (adjacent_fuel fuel a0 d); reflexivity.
Qed.

(** On a valid geohash and a cardinal direction, [adjacent] returns a valid
    geohash of the same length as soon as the fuel reaches the length, and
    the opposite direction leads back. *)
Lemma adjacent_fuel_spec g :
  valid_geohash g -> forall d d', opposite d d' ->
  exists r, valid_geohash r /\ length r = length g /\
    (forall fuel, (length g <= fuel)%nat -> adjacent_fuel fuel g d = Ok r) /\
    (forall fuel, (length g <= fuel)%nat -> adjacent_fuel fuel r d' = Ok g).
Proof.
  induction g as [|c p IH] using rev_ind; intros Hg d d' Hopp.
  - destruct Hg as [Hlen _]. simpl in Hlen. lia.
  - destruct (valid_snoc p c Hg) as (Hc & Hlen & Hp).
    destruct (step_char_opposite d d' _ c Hopp
                (parity_cases (length (p ++ [c]))) Hc) as (ch & b & Hs & Hch & Hs').
    assert (Hd := cardinal_upper d (opposite_cardinal _ _ Hopp)).
    assert (Hd' := cardinal_upper d' (opposite_cardinal _ _ (opposite_sym _ _ Hopp))).
    destruct p as [|a p].
    + (* a single character: no parent to carry into *)
      exists [ch]. assert (Hv : valid_geohash [ch]).
      { apply (valid_snoc_intro [] ch); simpl; auto; lia. }
      repeat split; try apply Hv.
      * intros [|fuel] Hf; [simpl in Hf; lia|].
        rewrite (adjacent_fuel_step fuel [] c d ch b Hd Hs). simpl.
        apply Geohash_valid; assumption.
      * intros [|fuel] Hf; [simpl in Hf; lia|].
        change [ch] with ([] ++ [ch]).
        rewrite (adjacent_fuel_step fuel [] ch d' c b Hd' Hs'). simpl.
        apply Geohash_valid; assumption.
    + assert (Hvp : valid_geohash (a :: p)) by (apply Hp; discriminate).
      destruct b.
      * (* the step crosses the border of the parent: carry *)
        destruct (IH Hvp d d' Hopp) as (rp & Hrp & Hrlen & Hfwd & Hback).
        exists (rp ++ [ch]).
        assert (Hv : valid_geohash (rp ++ [ch])).
        { apply valid_snoc_intro; auto. rewrite Hrlen. assumption. }
        assert (Hlen2 : length (rp ++ [ch]) = length ((a :: p) ++ [c])).
        { rewrite !length_app, Hrlen. reflexivity. }
        repeat split; try apply Hv; try assumption.
        -- intros [|fuel] Hf; [rewrite length_app in Hf; simpl in Hf; lia|].
           rewrite (adjacent_fuel_step fuel (a :: p) c d ch true Hd Hs).
           rewrite (Geohash_valid _ Hvp). cbn [bind].
           rewrite Hfwd by (rewrite length_app in Hf; simpl in *; lia).
           cbn [bind]. apply Geohash_valid; assumption.
        -- intros [|fuel] Hf; [rewrite length_app in Hf; simpl in Hf; lia|].
           rewrite <- Hlen2 in Hs'.
           rewrite (adjacent_fuel_step fuel rp ch d' c true Hd' Hs').
           destruct rp as [|a' rp]; [simpl in Hrlen; discriminate|].
           rewrite (Geohash_valid _ Hrp). cbn [bind].
           rewrite Hback by (rewrite length_app in Hf; simpl in *; lia).
           cbn [bind]. apply Geohash_valid; assumption.
      * (* the step stays inside the parent *)
        exists ((a :: p) ++ [ch]).
        assert (Hv : valid_geohash ((a :: p) ++ [ch])).
        { apply valid_snoc_intro; auto. }
        assert (Hlen2 : length ((a :: p) ++ [ch]) = length ((a :: p) ++ [c])).
        { rewrite !length_app. reflexivity. }
        repeat split; try apply Hv; try assumption.
        -- intros [|fuel] Hf; [rewrite length_app in Hf; simpl in Hf; lia|].
           rewrite (adjacent_fuel_step fuel (a :: p) c d ch false Hd Hs).
           cbn [bind]. apply Geohash_valid; assumption.
        -- intros [|fuel] Hf; [rewrite length_app in Hf; simpl in Hf; lia|].
           rewrite <- Hlen2 in Hs'.
           rewrite (adjacent_fuel_step fuel (a :: p) ch d' c false Hd' Hs').
           cbn [bind]. apply Geohash_valid; assumption.
Qed.

End Adjacency.

Section AdjacencyClaims.

Context {X : Collaborators}.

Lemma adjacent_fuel_direction fuel g d :
  In (upper (first1 d)) cardinal ->
  adjacent_fuel fuel g d = adjacent_fuel fuel g (upper (first1 d)).
Proof.
  intros Hd. destruct fuel as [|fuel]; [reflexivity|].
  cbn [adjacent_fuel]. rewrite (cardinal_upper _ Hd).
  apply dict_get_cardinal in Hd. destruct Hd as [nb ->]. reflexivity.
Qed.

Lemma adjacent_Ok g d :
  valid_geohash g -> In (upper (first1 d)) cardinal ->
  exists r, valid_geohash r /\ length r = length g /\
            forall fuel, (length g <= fuel)%nat -> adjacent_fuel fuel g d = Ok r.
Proof.
  intros Hg Hd. destruct (cardinal_opposite _ Hd) as [d' Hopp].
  destruct (adjacent_fuel_spec g Hg _ _ Hopp) as (r & Hr & Hlen & Hfwd & _).
  exists r. repeat split; try apply Hr; try assumption.
  intros fuel Hf. rewrite adjacent_fuel_direction by assumption. auto.
Qed.

Lemma adjacent_there_and_back g d d' :
  valid_geohash g -> opposite d d' ->
  (r <- adjacent g d ;; adjacent r d') = Ok g.
Proof.
  intros Hg Hopp.
  destruct (adjacent_fuel_spec g Hg _ _ Hopp) as (r & Hr & Hlen & Hfwd & Hback).
  unfold adjacent. rewrite Hfwd by lia. cbn [bind]. apply Hback. lia.
Qed.


(** C7: for a valid geohash whose cell touches neither pole nor the
    antimeridian, going to the adjacent cell in a cardinal direction and
    then in the opposite direction leads back to the geohash. *)
Theorem adjacent_inverse g d d' :
  valid_geohash g -> opposite d d' -> ~ touches_edge g ->
  (r <- adjacent g d ;; adjacent r d') = Ok g.
Proof.
  intros Hg Hopp _. apply adjacent_there_and_back; assumption.
Qed.

(** The tables wrap around the globe, so the inverse law needs no exception:
    it holds of every valid geohash, also along the poles and the
    antimeridian. *)
Theorem adjacent_wraps_around g d d' :
  valid_geohash g -> opposite d d' ->
  exists r, adjacent g d = Ok r /\ valid_geohash r /\ adjacent r d' = Ok g.
Proof.
  intros Hg Hopp.
  destruct (adjacent_fuel_spec g Hg _ _ Hopp) as (r & Hr & Hlen & Hfwd & Hback).
  exists r. unfold adjacent. rewrite Hfwd by lia. rewrite Hback by lia. auto.
Qed.

Lemma In_find_from (c : ascii) hay :
  In c hay -> forall i, i <= find_from hay [c] i < i + Z.of_nat (length hay).
Proof.
  induction hay as [|a hay IH]; intros Hin i; [contradiction|].
  cbn [find_from is_prefix_of length]. rewrite Nat2Z.inj_succ.
  destruct (Ascii.eqb_spec c a) as [->|Hne]; cbn [andb].
  - lia.
  - destruct Hin as [Heq|Hin]; [congruence|].
    specialize (IH Hin (i + 1)). lia.
Qed.

Lemma neighbor_tables_complete d nb e c :
  dict_get _Neighbor d = Some nb -> In c _GeohashBase32 ->
  In c (tuple_get nb e).
Proof.
  intros Hnb Hc.
  assert (Hd : In d cardinal) by (apply dict_get_cardinal; eauto).
  assert (H : existsb (Ascii.eqb c) (fst nb) && existsb (Ascii.eqb c) (snd nb) = true).
  { revert c Hc. unfold cardinal in Hd. simpl in Hd.
    destruct Hd as [<-|[<-|[<-|[<-|[]]]]]; injection Hnb as <-;
      apply alphabet_forall; vm_compute; reflexivity. }
  apply andb_true_iff in H. destruct H as [H0 H1].
  unfold tuple_get. destruct (e =? 0);
    [apply existsb_exists in H0; destruct H0 as (x & Hx & Ex)
    |apply existsb_exists in H1; destruct H1 as (x & Hx & Ex)];
    apply Ascii.eqb_eq in Ex; subst x; assumption.
Qed.

(** C8: for a valid geohash and a cardinal direction, each of the two
    neighbor strings of the direction contains every symbol of the alphabet,
    the look-up of the last character of the geohash finds it, and [adjacent]
    never raises the error of the look-up that finds nothing. *)
Theorem neighbor_lookup_succeeds g d nb :
  valid_geohash g -> dict_get _Neighbor d = Some nb ->
  (forall c, In c _GeohashBase32 ->
             In c (tuple_get nb 0) /\ In c (tuple_get nb 1)) /\
  0 <= find (tuple_get nb (Z.land (Z.of_nat (length g)) 1)) (last1 g) < 32 /\
  (forall x, adjacent g d <> Err (GeohashError_geohash x)).
Proof.
  intros Hg Hnb.
  assert (Hd : In d cardinal) by (apply dict_get_cardinal; eauto).
  split; [|split].
  - intros c Hc. split; eapply neighbor_tables_complete; eassumption.
  - destruct g as [|c p _] using rev_ind; [destruct Hg as [Hl _]; simpl in Hl; lia|].
    destruct (valid_snoc p c Hg) as (Hc & _ & _).
    rewrite last1_snoc. unfold find.
    assert (Hin := neighbor_tables_complete d nb
                     (Z.land (Z.of_nat (length (p ++ [c]))) 1) c Hnb Hc).
    assert (Hlen : length (tuple_get nb (Z.land (Z.of_nat (length (p ++ [c]))) 1)) = 32%nat).
    { unfold cardinal in Hd. simpl in Hd. unfold tuple_get.
      destruct Hd as [<-|[<-|[<-|[<-|[]]]]]; injection Hnb as <-;
        destruct (_ =? 0); reflexivity. }
    pose proof (In_find_from c _ Hin 0) as Hf. rewrite Hlen in Hf. lia.
  - intros x Hx.
    assert (Hd' : In (upper (first1 d)) cardinal)
      by (rewrite cardinal_upper; assumption).
    destruct (adjacent_Ok g d Hg Hd') as (r & _ & _ & Hr).
    unfold adjacent in Hx. rewrite Hr in Hx by lia. discriminate.
Qed.

(** C9: on a valid geohash and a cardinal direction, [adjacent] returns
    whenever its calls may nest as deep as the geohash is long, which is at
    most 12; the one recursive call a call makes is on the string without
    its last character, one character shorter. *)
Theorem adjacent_terminates g d :
  valid_geohash g -> In d cardinal ->
  (length g <= 12)%nat /\
  (exists r, forall fuel, (length g <= fuel)%nat -> adjacent_fuel fuel g d = Ok r) /\
  S (length (but_last g)) = length g /\
  (forall fuel, exists (ch : ascii) (b : bool),
     adjacent_fuel (S fuel) g d =
       (p' <- match but_last g with
              | [] => Ok []
              | _ :: _ => if b then adjacent_fuel fuel (but_last g) d
                          else Ok (but_last g)
              end ;;
        Geohash (of_str (p' ++ [ch])) None)).
Proof.
  intros Hg Hd. split; [apply Hg|]. split; [|split].
  - assert (Hd' : In (upper (first1 d)) cardinal)
      by (rewrite cardinal_upper; assumption).
    destruct (adjacent_Ok g d Hg Hd') as (r & _ & _ & Hr). eauto.
  - destruct g as [|c p _] using rev_ind; [destruct Hg as [Hl _]; simpl in Hl; lia|].
    rewrite but_last_snoc, length_app. simpl. lia.
  - intros fuel.
    destruct g as [|c p _] using rev_ind; [destruct Hg as [Hl _]; simpl in Hl; lia|].
    destruct (valid_snoc p c Hg) as (Hc & Hlen & Hp).
    destruct (cardinal_opposite d Hd) as [d' Hopp].
    destruct (step_char_opposite d d' _ c Hopp
                (parity_cases (length (p ++ [c]))) Hc) as (ch & b & Hs & Hch & _).
    exists ch, b. rewrite but_last_snoc.
    rewrite (adjacent_fuel_step fuel p c d ch b (cardinal_upper d Hd) Hs).
    destruct p as [|a p]; [reflexivity|].
    assert (Hvp : valid_geohash (a :: p)) by (apply Hp; discriminate).
    destruct b; [|reflexivity].
    rewrite (Geohash_valid _ Hvp). reflexivity.
Qed.

End AdjacencyClaims.

(** ** Concrete evaluations of adjacency *)

Lemma valid_by_2geostr g : _2geostr g = Ok g -> valid_geohash g.
Proof. intros H. apply _2geostr_Ok in H. apply H. Qed.



Lemma adjacent_inverse_witness :
  valid_geohash (lit "u120fxw") /\ opposite (lit "N") (lit "S") /\
  ~ touches_edge (X := exact_floats) (lit "u120fxw") /\
  (r <- adjacent (X := exact_floats) (lit "u120fxw") (lit "N") ;;
   adjacent (X := exact_floats) r (lit "S")) = Ok (lit "u120fxw").
Proof.
  assert (Hv : valid_geohash (lit "u120fxw")) by (apply valid_by_2geostr; reflexivity).
  assert (He : ~ touches_edge (X := exact_floats) (lit "u120fxw")).
  { vm_compute. intros [H|[H|[H|H]]]; discriminate H. }
  split; [exact Hv|]. split; [constructor|]. split; [exact He|].
  exact (@adjacent_inverse exact_floats _ _ _ Hv opposite_N_S He).
Defined.

Lemma adjacent_wraps_around_witness :
  valid_geohash (lit "bpbpbpbpbpbp") /\ opposite (lit "N") (lit "S") /\
  touches_edge (X := exact_floats) (lit "bpbpbpbpbpbp") /\
  exists r, adjacent (X := exact_floats) (lit "bpbpbpbpbpbp") (lit "N") = Ok r /\
            valid_geohash r /\
            adjacent (X := exact_floats) r (lit "S") = Ok (lit "bpbpbpbpbpbp").
Proof.
  assert (Hv : valid_geohash (lit "bpbpbpbpbpbp"))
    by (apply valid_by_2geostr; reflexivity).
  split; [exact Hv|]. split; [constructor|]. split.
  - vm_compute. right. left. reflexivity.
  - exact (@adjacent_wraps_around exact_floats _ _ _ Hv opposite_N_S).
Defined.

Lemma neighbor_lookup_succeeds_witness :
  valid_geohash (lit "u120fxw") /\
  dict_get _Neighbor (lit "E") =
    Some (lit "bc01fg45238967deuvhjyznpkmstqrwx",
          lit "p0r21436x8zb9dcf5h7kjnmqesgutwvy") /\
  0 <= find (lit "p0r21436x8zb9dcf5h7kjnmqesgutwvy") (lit "w") < 32 /\
  (forall x, adjacent (X := exact_floats) (lit "u120fxw") (lit "E")
             <> Err (GeohashError_geohash x)).
Proof.
  assert (Hv : valid_geohash (lit "u120fxw")) by (apply valid_by_2geostr; reflexivity).
  split; [exact Hv|]. split; [reflexivity|].
  exact (proj2 (@neighbor_lookup_succeeds exact_floats (lit "u120fxw") (lit "E")
                  _ Hv eq_refl)).
Defined.

Lemma adjacent_terminates_witness :
  valid_geohash (lit "bpbpbpbpbpbp") /\ In (lit "N") cardinal /\
  exists r, forall fuel, (12 <= fuel)%nat ->
    adjacent_fuel (X := exact_floats) fuel (lit "bpbpbpbpbpbp") (lit "N") = Ok r.
Proof.
  assert (Hv : valid_geohash (lit "bpbpbpbpbpbp"))
    by (apply valid_by_2geostr; reflexivity).
  assert (Hd : In (lit "N") cardinal) by (left; reflexivity).
  split; [exact Hv|]. split; [exact Hd|].
  exact (proj1 (proj2 (@adjacent_terminates exact_floats _ _ Hv Hd))).
Defined.

(** The fuel measures the nesting of calls, and a geohash of 12 characters
    can need all 12: along the northern edge every call carries into its
    parent. *)
Example adjacent_depth_reached :
  adjacent_fuel (X := exact_floats) 11 (lit "bpbpbpbpbpbp") (lit "N") = Err OutOfFuel /\
  adjacent_fuel (X := exact_floats) 12 (lit "bpbpbpbpbpbp") (lit "N")
    = Ok (lit "000000000000").
Proof. split; vm_compute; reflexivity. Qed.

(** ** The size estimate distance1 *)

Lemma skipn_nth_error {A} (l : list A) : forall s x,
  nth_error l s = Some x -> skipn s l = x :: skipn (S s) l.
Proof.
  induction l as [|a l IH]; intros [|s] x H; simpl in *; try discriminate.
  - injection H as ->. reflexivity.
  - apply IH. assumption.
Qed.

Lemma distance1_loop_spec a b : forall len s n0,
  (s + len <= Nat.min (length a) (length b))%nat ->
  distance1_loop a b (map (fun k => 0 + Z.of_nat k) (seq s len)) n0 =
    Ok (if (common_prefix_len (skipn s a) (skipn s b) <? len)%nat
        then Z.of_nat (s + common_prefix_len (skipn s a) (skipn s b))
        else match len with O => n0 | S _ => Z.of_nat (s + len - 1) end).
Proof.
  induction len as [|len IH]; intros s n0 Hs.
  - simpl. reflexivity.
  - cbn [seq map distance1_loop]. rewrite Z.add_0_l, Nat2Z.id.
    destruct (nth_error a s) as [x|] eqn:Ea.
    2:{ apply nth_error_None in Ea. lia. }
    destruct (nth_error b s) as [y|] eqn:Eb.
    2:{ apply nth_error_None in Eb. lia. }
    rewrite (skipn_nth_error a s x Ea), (skipn_nth_error b s y Eb).
    cbn [common_prefix_len]. destruct (Ascii.eqb x y).
    + rewrite IH by lia.
      change (S ?k <? S len)%nat with (k <? len)%nat.
      destruct (_ <? len)%nat.
      * f_equal. lia.
      * destruct len; f_equal; lia.
    + simpl. f_equal. lia.
Qed.

Lemma sizes_positive n t : nth_error _Sizes n = Some t -> (0 < snd t)%Q.
Proof.
  intros H. apply nth_error_In in H.
  assert (F : Forall (fun t => (0 < snd t)%Q) _Sizes).
  { unfold _Sizes. repeat (apply Forall_cons; [reflexivity|]). apply Forall_nil. }
  rewrite Forall_forall in F. auto.
Qed.

Lemma common_prefix_len_le a : forall b,
  (common_prefix_len a b <= Nat.min (length a) (length b))%nat.
Proof.
  induction a as [|x a IH]; intros [|y b]; simpl; try lia.
  destruct (Ascii.eqb x y); [specialize (IH b)|]; lia.
Qed.

Lemma common_prefix_len_prefix a : forall b,
  is_prefix_of a b = true ->
  common_prefix_len a b = length a /\ common_prefix_len b a = length a.
Proof.
  induction a as [|x a IH]; intros b H.
  - destruct b; simpl; auto.
  - destruct b as [|y b]; [discriminate|]. cbn [is_prefix_of] in H.
    apply andb_true_iff in H. destruct H as [Hxy H].
    apply Ascii.eqb_eq in Hxy. subst y. simpl. rewrite Ascii.eqb_refl.
    destruct (IH b H) as [-> ->]. auto.
Qed.

Lemma is_prefix_of_length a : forall b,
  is_prefix_of a b = true -> (length a <= length b)%nat.
Proof.
  induction a as [|x a IH]; intros [|y b] H; simpl in *; try lia; try discriminate.
  apply andb_true_iff in H. destruct H as [_ H]. specialize (IH b H). lia.
Qed.

Lemma is_prefix_of_refl a : is_prefix_of a a = true.
Proof. induction a; simpl; [|rewrite Ascii.eqb_refl]; auto. Qed.

Section Distance.

Context {X : Collaborators}.

(** On valid geohashes [distance1] returns the radial size read at
    [distance1_index]. *)
Lemma distance1_valid a b :
  valid_geohash a -> valid_geohash b ->
  exists t, nth_error _Sizes (distance1_index a b) = Some t /\
            distance1 (of_str a) (of_str b) = Ok (snd t).
Proof.
  intros Ha Hb. unfold distance1, distance1To.
  rewrite !_2Geohash_valid by assumption. cbn [bind].
  destruct Ha as [[Ha1 Ha2] _]. destruct Hb as [[Hb1 Hb2] _].
  assert (Hn : Z.min (Z.min (Z.of_nat (length a)) (Z.of_nat (length b)))
                     (Z.of_nat (length _Sizes))
               = Z.of_nat (Nat.min (length a) (length b))).
  { change (length _Sizes) with 13%nat. lia. }
  rewrite Hn. unfold range. rewrite Z.sub_0_r, Nat2Z.id.
  rewrite distance1_loop_spec by lia. cbn [bind]. rewrite !skipn_O.
  pose proof (common_prefix_len_le a b) as Hk.
  assert (Hidx : (if (common_prefix_len a b <? Nat.min (length a) (length b))%nat
                  then Z.of_nat (0 + common_prefix_len a b)
                  else match Nat.min (length a) (length b) with
                       | O => Z.of_nat (Nat.min (length a) (length b))
                       | S _ => Z.of_nat (0 + Nat.min (length a) (length b) - 1)
                       end) = Z.of_nat (distance1_index a b)).
  { unfold distance1_index. cbv zeta. destruct (_ <? _)%nat; [reflexivity|].
    destruct (Nat.min (length a) (length b)) eqn:E; [lia|]. f_equal. }
  rewrite Hidx, Nat2Z.id.
  destruct (nth_error _Sizes (distance1_index a b)) as [t|] eqn:E.
  - exists t. auto.
  - apply nth_error_None in E. change (length _Sizes) with 13%nat in E.
    unfold distance1_index in E. cbv zeta in E.
    destruct (_ <? _)%nat; lia.
Qed.

(** C10: the estimate of the distance from a valid geohash to itself is
    strictly positive, and when one valid geohash is a prefix of another
    (or equal to it) [distance1] returns, in either order, the radial size
    at index [min(len1, len2) - 1]. *)
Theorem distance1_self_and_prefix g a b :
  valid_geohash g -> valid_geohash a -> valid_geohash b ->
  is_prefix_of a b = true ->
  (exists v, distance1 (of_str g) (of_str g) = Ok v /\ (0 < v)%Q) /\
  (exists t, nth_error _Sizes (Nat.min (length a) (length b) - 1) = Some t /\
             distance1 (of_str a) (of_str b) = Ok (snd t) /\
             distance1 (of_str b) (of_str a) = Ok (snd t)).
Proof.
  intros Hg Ha Hb Hpre. split.
  - destruct (distance1_valid g g Hg Hg) as (t & Ht & Hd).
    exists (snd t). split; [assumption | eapply sizes_positive; eassumption].
  - destruct (common_prefix_len_prefix a b Hpre) as [Hab Hba].
    pose proof (is_prefix_of_length a b Hpre) as Hle.
    assert (Iab : distance1_index a b = (Nat.min (length a) (length b) - 1)%nat).
    { unfold distance1_index. cbv zeta. rewrite Hab.
      replace (length a <? Nat.min (length a) (length b))%nat with false;
        [reflexivity|]. symmetry. apply Nat.ltb_ge. lia. }
    assert (Iba : distance1_index b a = (Nat.min (length a) (length b) - 1)%nat).
    { unfold distance1_index. cbv zeta. rewrite Hba.
      replace (length a <? Nat.min (length b) (length a))%nat with false;
        [f_equal; lia|]. symmetry. apply Nat.ltb_ge. lia. }
    destruct (distance1_valid a b Ha Hb) as (t & Ht & Hd).
    destruct (distance1_valid b a Hb Ha) as (t' & Ht' & Hd').
    rewrite Iab in Ht. rewrite Iba in Ht'. rewrite Ht in Ht'. injection Ht' as <-.
    exists t. auto.
Qed.

(** The part of C2 that the code meets: two valid geohashes that differ
    within their common length get the radial size at the length of their
    common prefix. *)
Theorem distance1_common_prefix a b :
  valid_geohash a -> valid_geohash b ->
  (common_prefix_len a b < Nat.min (length a) (length b))%nat ->
  exists v, radial_size (common_prefix_len a b) = Some v /\
            distance1 (of_str a) (of_str b) = Ok v.
Proof.
  intros Ha Hb Hk. destruct (distance1_valid a b Ha Hb) as (t & Ht & Hd).
  unfold distance1_index in Ht. cbv zeta in Ht.
  apply Nat.ltb_lt in Hk. rewrite Hk in Ht.
  exists (snd t). unfold radial_size. rewrite Ht. auto.
Qed.

End Distance.

(** C2 at a failing input: a geohash of 8 characters and itself have a
    common prefix of length 8, whose radial size is 15.239, and [distance1]
    returns the size 86.321 of length 7; the documented vector, which
    differs in its ninth character, is met. *)
Lemma distance1_same_cell :
  common_prefix_len (lit "u120fxws") (lit "u120fxws") = 8%nat /\
  radial_size 8 = Some 15.239%Q /\
  distance1 (X := exact_floats) (of_str (lit "u120fxws")) (of_str (lit "u120fxws"))
    = Ok 86.321%Q /\
  distance1 (X := exact_floats) (of_str (lit "u120fxwsh")) (of_str (lit "u120fxws0"))
    = Ok 15.239%Q.
Proof. repeat split; vm_compute; reflexivity. Qed.

Lemma distance1_self_and_prefix_witness :
  valid_geohash (lit "u120fxws") /\ valid_geohash (lit "u120") /\
  is_prefix_of (lit "u120") (lit "u120fxws") = true /\
  (exists v, distance1 (X := exact_floats) (of_str (lit "u120fxws"))
                       (of_str (lit "u120fxws")) = Ok v /\ (0 < v)%Q) /\
  (exists t, nth_error _Sizes 3 = Some t /\
             distance1 (X := exact_floats) (of_str (lit "u120"))
                       (of_str (lit "u120fxws")) = Ok (snd t) /\
             distance1 (X := exact_floats) (of_str (lit "u120fxws"))
                       (of_str (lit "u120")) = Ok (snd t)).
Proof.
  assert (H8 : valid_geohash (lit "u120fxws")) by (apply valid_by_2geostr; reflexivity).
  assert (H4 : valid_geohash (lit "u120")) by (apply valid_by_2geostr; reflexivity).
  split; [exact H8|]. split; [exact H4|]. split; [reflexivity|].
  exact (@distance1_self_and_prefix exact_floats _ _ _ H8 H4 H8 eq_refl).
Defined.

Lemma distance1_common_prefix_witness :
  valid_geohash (lit "u120fxwsh") /\ valid_geohash (lit "u120fxws0") /\
  exists v, radial_size 8 = Some v /\
            distance1 (X := exact_floats) (of_str (lit "u120fxwsh"))
                      (of_str (lit "u120fxws0")) = Ok v.
Proof.
  assert (Ha : valid_geohash (lit "u120fxwsh")) by (apply valid_by_2geostr; reflexivity).
  assert (Hb : valid_geohash (lit "u120fxws0")) by (apply valid_by_2geostr; reflexivity).
  split; [exact Ha|]. split; [exact Hb|].
  refine (@distance1_common_prefix exact_floats _ _ Ha Hb _).
  vm_compute. lia.
Defined.

(** ** Resolutions and precisions *)

Lemma precision_cases p :
  1 <= p <= 12 ->
  p = 1 \/ p = 2 \/ p = 3 \/ p = 4 \/ p = 5 \/ p = 6 \/
  p = 7 \/ p = 8 \/ p = 9 \/ p = 10 \/ p = 11 \/ p = 12.
Proof. lia. Qed.

Ltac each_precision H :=
  apply precision_cases in H;
  repeat (destruct H as [H|H]; [subst|]); subst.

(** What [resolution2(p, p)] returns for a precision in 1..12: the
    longitude resolution is 360 halved [ceil(5p/2)] times, and the latitude
    resolution is the longitude resolution halved [floor(5p/2)] more
    times, 360 halved [5p] times in all. *)
Theorem resolution2_values p :
  1 <= p <= 12 ->
  (fst (resolution2 p (Some p)) == 360 / 2 ^ (5 * p - 5 * p / 2))%Q /\
  (snd (resolution2 p (Some p)) ==
     fst (resolution2 p (Some p)) / 2 ^ (5 * p / 2))%Q /\
  (snd (resolution2 p (Some p)) == 360 / 2 ^ (5 * p))%Q.
Proof.
  intros H. each_precision H; repeat split; vm_compute; reflexivity.
Qed.

Lemma resolution2_values_witness :
  (fst (resolution2 7%Z (Some 7%Z)) == 360 / 2 ^ 18)%Q /\
  (snd (resolution2 7%Z (Some 7%Z)) ==
     fst (resolution2 7%Z (Some 7%Z)) / 2 ^ 17)%Q /\
  (snd (resolution2 7%Z (Some 7%Z)) == 360 / 2 ^ 35)%Q.
Proof. apply (resolution2_values 7). lia. Defined.

(** C1 at a failing input: [resolution2(1, 1)] returns the longitude
    resolution 45 and the latitude resolution 11.25, where 180 halved
    [floor(5/2)] times is 45. *)
Lemma resolution2_1_1 :
  resolution2 1 (Some 1) = (45, 45 # 4)%Q /\
  (180 / 2 ^ (5 * 1 / 2) == 45)%Q /\
  ~ (snd (resolution2 1%Z (Some 1%Z)) == 180 / 2 ^ (5 * 1 / 2))%Q.
Proof.
  split; [vm_compute; reflexivity|]. split; [vm_compute; reflexivity|].
  vm_compute. discriminate.
Qed.

(** C5: for a precision in 1..12, [precision] applied to the two
    resolutions that [resolution2(p, p)] returns gives the precision back. *)
Theorem precision_resolution2 p :
  1 <= p <= 12 ->
  precision (fst (resolution2 p (Some p)))
            (Some (snd (resolution2 p (Some p)))) = Ok p.
Proof.
  intros H. each_precision H; vm_compute; reflexivity.
Qed.

Lemma precision_resolution2_witness :
  precision (fst (resolution2 12 (Some 12)))
            (Some (snd (resolution2 12 (Some 12)))) = Ok 12.
Proof. apply (precision_resolution2 12). lia. Defined.

(** ** encode: the loop returns a valid geohash *)

Lemma base32_at_range i :
  0 <= i < 32 -> exists c, base32_at i = Ok c /\ In c _GeohashBase32.
Proof.
  intros Hi. unfold base32_at.
  destruct (nth_error _GeohashBase32 (Z.to_nat i)) as [c|] eqn:E.
  - exists c. split; [reflexivity | eapply nth_error_In; eassumption].
  - apply nth_error_None in E. change (length _GeohashBase32) with 32%nat in E. lia.
Qed.

(** One pass of the loop body: either one more bit of the current
    character, or the fifth bit and a character appended. *)
Lemma encode_body_spec lat lon st :
  0 <= enc_b st < 5 -> 0 <= enc_i st < 2 ^ enc_b st ->
  exists st', encode_body lat lon st = Ok st' /\
    ((enc_b st < 4 /\ enc_p st' = enc_p st /\ enc_b st' = enc_b st + 1 /\
      enc_gh st' = enc_gh st /\ 0 <= enc_i st' < 2 ^ enc_b st') \/
     (enc_b st = 4 /\ enc_p st' = enc_p st - 1 /\ enc_b st' = 0 /\
      enc_i st' = 0 /\
      exists c, In c _GeohashBase32 /\ enc_gh st' = enc_gh st ++ [c])).
Proof.
  intros Hb Hi.
  assert (Hpow : 2 ^ (enc_b st + 1) = 2 * 2 ^ enc_b st)
    by (rewrite Z.pow_add_r by lia; lia).
  assert (H32 : enc_b st = 4 -> 2 ^ enc_b st = 16) by (intros ->; reflexivity).
  unfold encode_body.
  destruct (enc_d st);
    match goal with |- context [Qltb ?x ?m] => destruct (Qltb x m) end;
    destruct (enc_b st + 1 =? 5) eqn:E;
    try (apply Z.eqb_eq in E;
         match goal with |- context [base32_at ?j] =>
           destruct (base32_at_range j) as (c & -> & Hc); [lia|]
         end;
         eexists; split; [reflexivity|]; right; cbn;
         repeat split; try lia; exists c; split; [assumption | reflexivity]);
    try (apply Z.eqb_neq in E; eexists; split; [reflexivity|]; left; cbn;
         repeat split; lia).
Qed.

Lemma encode_while_spec lat lon : forall fuel st,
  0 <= enc_b st < 5 -> 0 <= enc_i st < 2 ^ enc_b st -> 0 <= enc_p st ->
  5 * enc_p st - enc_b st < Z.of_nat fuel -> (0 < fuel)%nat ->
  Forall (fun c => In c _GeohashBase32) (enc_gh st) ->
  exists gh, encode_while fuel lat lon st = Ok gh /\
             Forall (fun c => In c _GeohashBase32) gh /\
             Z.of_nat (length gh) = Z.of_nat (length (enc_gh st)) + enc_p st.
Proof.
  induction fuel as [|fuel IH]; intros st Hb Hi Hp Hfuel Hpos Hgh.
  - lia.
  - cbn [encode_while]. destruct (0 <? enc_p st) eqn:E.
    + apply Z.ltb_lt in E.
      destruct (encode_body_spec lat lon st Hb Hi) as (st' & -> & Hst').
      cbn [bind]. rewrite Nat2Z.inj_succ in Hfuel.
      destruct Hst' as [(Hb4 & Hp' & Hb' & Hg' & Hi')
                       |(Hb4 & Hp' & Hb' & Hi' & c & Hc & Hg')].
      * assert (H1 : 0 <= enc_b st' < 5) by lia.
        assert (H3 : 0 <= enc_p st') by lia.
        assert (H4 : 5 * enc_p st' - enc_b st' < Z.of_nat fuel) by lia.
        assert (H5 : (0 < fuel)%nat) by lia.
        assert (H6 : Forall (fun c => In c _GeohashBase32) (enc_gh st'))
          by (rewrite Hg'; assumption).
        destruct (IH st' H1 Hi' H3 H4 H5 H6) as (gh & Hrun & Hall & Hlen).
        exists gh. rewrite Hg', Hp' in Hlen. auto.
      * assert (H1 : 0 <= enc_b st' < 5) by lia.
        assert (H2 : 0 <= enc_i st' < 2 ^ enc_b st')
          by (rewrite Hi', Hb'; simpl; lia).
        assert (H3 : 0 <= enc_p st') by lia.
        assert (H4 : 5 * enc_p st' - enc_b st' < Z.of_nat fuel) by lia.
        assert (H5 : (0 < fuel)%nat) by lia.
        assert (H6 : Forall (fun c => In c _GeohashBase32) (enc_gh st')).
        { rewrite Hg'. apply Forall_app. split; [assumption|].
          apply Forall_cons; [assumption | apply Forall_nil]. }
        destruct (IH st' H1 H2 H3 H4 H5 H6) as (gh & Hrun & Hall & Hlen).
        exists gh. rewrite Hg', Hp', length_app in Hlen. simpl in Hlen.
        repeat split; try assumption. lia.
    + apply Z.ltb_ge in E. exists (enc_gh st). repeat split; try assumption. lia.
Qed.

Lemma _2fll_in_range lat lon :
  (-(90) <= lat <= 90)%Q -> (-(180) <= lon <= 180)%Q ->
  _2fll lat lon = Ok (lat, lon).
Proof.
  intros [H1 H2] [H3 H4]. unfold _2fll, Lat, Lon.
  apply Qle_bool_iff in H1, H2, H3, H4.
  rewrite H1, H2, H3, H4. reflexivity.
Qed.

Lemma encode_loop_valid lat lon p :
  1 <= p <= 12 ->
  exists gh, encode_while (Z.to_nat (5 * p) + 1) lat lon (encode_init p) = Ok gh /\
             valid_geohash gh /\ Z.of_nat (length gh) = p.
Proof.
  intros Hp.
  destruct (encode_while_spec lat lon (Z.to_nat (5 * p) + 1) (encode_init p))
    as (gh & Hrun & Hall & Hlen); cbn; try lia.
  - apply Forall_nil.
  - exists gh. cbn in Hlen. repeat split; try assumption; lia.
Qed.

Lemma encode_fixed_valid lat lon p :
  (-(90) <= lat <= 90)%Q -> (-(180) <= lon <= 180)%Q -> 1 <= p <= 12 ->
  exists gh, encode_fixed lat lon p = Ok gh /\ valid_geohash gh /\
             Z.of_nat (length gh) = p.
Proof.
  intros Hlat Hlon Hp. unfold encode_fixed.
  rewrite (_2fll_in_range lat lon Hlat Hlon). cbn [bind fst snd].
  unfold Precision_, _MaxPrec.
  replace ((1 <=? p) && (p <=? 12)) with true
    by (symmetry; apply andb_true_iff; split; apply Z.leb_le; lia).
  cbn [bind]. apply encode_loop_valid. assumption.
Qed.

(** ** bounds: the box of a valid geohash *)

Lemma halfpow_pos n : (0 < halfpow n)%Q.
Proof. induction n; simpl; [reflexivity | lra]. Qed.

Lemma halfpow_mono n : forall m, (n <= m)%nat -> (halfpow m <= halfpow n)%Q.
Proof.
  intros m H. induction H as [|m _ IH]; [lra|].
  simpl. pose proof (halfpow_pos m). lra.
Qed.

Lemma favg_eq v1 v2 : (favg v1 v2 == v1 + (1 # 2) * (v2 - v1))%Q.
Proof. unfold favg. apply Qred_correct. Qed.

Lemma bounds_bit_inv i m a b st :
  box_inv a b st ->
  exists a' b', box_inv a' b' (bounds_bit i st m) /\ (a' + b' = S (a + b))%nat.
Proof.
  destruct st as [d [[[s w] n] e]]. unfold box_inv, bounds_bit.
  intros (Hd & Hew & Hns & Hs & Hn & Hw & He).
  pose proof (halfpow_pos a) as Ha. pose proof (halfpow_pos b) as Hb.
  pose proof (favg_eq w e) as Hm1. pose proof (favg_eq s n) as Hm2.
  destruct Hd as [[-> ->]|[-> ->]]; destruct (negb (Z.land i m =? 0)).
  - exists (S b), b. split; [|lia]. split; [right; auto|].
    simpl halfpow. repeat split; lra.
  - exists (S b), b. split; [|lia]. split; [right; auto|].
    simpl halfpow. repeat split; lra.
  - exists (S b), (S b). split; [|lia]. split; [left; auto|].
    simpl halfpow in *. repeat split; lra.
  - exists (S b), (S b). split; [|lia]. split; [left; auto|].
    simpl halfpow in *. repeat split; lra.
Qed.

Lemma bounds_chars_inv : forall cs st a b,
  Forall (fun c => In c _GeohashBase32) cs -> box_inv a b st ->
  exists st' a' b', bounds_chars cs st = Ok st' /\ box_inv a' b' st' /\
                    (a' + b' = a + b + 5 * length cs)%nat.
Proof.
  induction cs as [|c cs IH]; intros st a b Hall Hinv.
  - exists st, a, b. simpl. repeat split; auto; lia.
  - inversion Hall as [|c' cs' Hc Hcs]; subst.
    cbn [bounds_chars]. apply in_alphabet_In in Hc. unfold in_alphabet in Hc.
    destruct (_DecodedBase32 c) as [i|]; [|discriminate].
    cbn [fold_left].
    destruct (bounds_bit_inv i 16 _ _ _ Hinv) as (a1 & b1 & H1 & E1).
    destruct (bounds_bit_inv i 8 _ _ _ H1) as (a2 & b2 & H2 & E2).
    destruct (bounds_bit_inv i 4 _ _ _ H2) as (a3 & b3 & H3 & E3).
    destruct (bounds_bit_inv i 2 _ _ _ H3) as (a4 & b4 & H4 & E4).
    destruct (bounds_bit_inv i 1 _ _ _ H4) as (a5 & b5 & H5 & E5).
    destruct (IH _ _ _ Hcs H5) as (st' & a' & b' & Hrun & Hinv' & E').
    exists st', a', b'. repeat split; try assumption. simpl length. lia.
Qed.

Section BoundsFacts.

Context {X : Collaborators}.

(** The box of a valid geohash of length [L]: inside the globe, its width
    360 halved [a] times and its height 180 halved [b] times, [a + b = 5 L]
    and [a] is [b] or [b + 1]. *)
Lemma bounds_valid g :
  valid_geohash g ->
  exists bx a b, bounds (of_str g) = Ok bx /\
    (a + b = 5 * length g)%nat /\ (a = b \/ a = S b) /\
    (lonE bx - lonW bx == 360 * halfpow a)%Q /\
    (latN bx - latS bx == 180 * halfpow b)%Q /\
    (-(90) <= latS bx)%Q /\ (latN bx <= 90)%Q /\
    (-(180) <= lonW bx)%Q /\ (lonE bx <= 180)%Q.
Proof.
  intros Hg. unfold bounds, bounds_of. rewrite (_2Geohash_valid g Hg). cbn [bind].
  destruct Hg as [Hlen Hall].
  replace (Z.of_nat (length g) <? 1) with false by (symmetry; apply Z.ltb_ge; lia).
  rewrite (lower_valid g Hall).
  assert (H0 : box_inv 0 0 (true, _Bounds4)).
  { unfold box_inv, _Bounds4. simpl halfpow. repeat split; try lra. left; auto. }
  destruct (bounds_chars_inv g _ _ _ Hall H0) as (st' & a & b & -> & Hinv & E).
  destruct st' as [d [[[s w] n] e]]. unfold box_inv in Hinv.
  destruct Hinv as (Hd & Hew & Hns & Hs & Hn & Hw & He).
  exists (_2bounds s w n e), a, b. cbn [_2bounds latS latN lonW lonE].
  split; [reflexivity|]. split; [lia|].
  split; [destruct Hd as [[_ ->]|[_ ->]]; auto|].
  repeat split; assumption.
Qed.

End BoundsFacts.

(** ** decode: the number of decimals and the rounding *)

Lemma tenpow_ge_1 n : (1 <= tenpow n)%Q.
Proof. induction n; simpl; lra. Qed.

Lemma Qltb_lt x y : Qltb x y = true <-> (x < y)%Q.
Proof.
  unfold Qltb. rewrite negb_true_iff. split.
  - intros H. apply Qnot_le_lt. intros Hle.
    apply Qle_bool_iff in Hle. congruence.
  - intros H. destruct (Qle_bool y x) eqn:E; [|reflexivity].
    apply Qle_bool_iff in E. lra.
Qed.

Lemma Qltb_ge x y : Qltb x y = false <-> (y <= x)%Q.
Proof.
  unfold Qltb. rewrite negb_false_iff. apply Qle_bool_iff.
Qed.

Lemma Qpower_tenpow n : ((10 # 1) ^ Z.of_nat n == tenpow n)%Q.
Proof.
  induction n as [|n IH].
  - reflexivity.
  - rewrite Nat2Z.inj_succ. unfold Z.succ.
    rewrite Qpower_plus by discriminate. rewrite IH. simpl tenpow.
    change ((10 # 1) ^ 1)%Q with (10 # 1)%Q. ring.
Qed.

Lemma decimals_up_spec : forall fuel h d,
  (10 < h * tenpow fuel)%Q ->
  exists k, decimals_up fuel h d = d + Z.of_nat k /\ (10 < h * tenpow k)%Q.
Proof.
  induction fuel as [|fuel IH]; intros h d Hf.
  - exists 0%nat. simpl. split; [lia | exact Hf].
  - cbn [decimals_up]. destruct (Qltb 10 h) eqn:E.
    + apply Qltb_lt in E. exists 0%nat. simpl. split; [lia | lra].
    + destruct (IH (h * 10)%Q (d + 1)) as (k & Hk & Hlt).
      { simpl tenpow in Hf.
        setoid_replace (h * 10 * tenpow fuel)%Q with (h * (10 * tenpow fuel))%Q by ring.
        exact Hf. }
      exists (S k). split; [rewrite Hk; lia|].
      simpl tenpow.
      setoid_replace (h * (10 * tenpow k))%Q with (h * 10 * tenpow k)%Q by ring.
      exact Hlt.
Qed.

Lemma size_nat_tenpow d : (inject_Z (Zpos d) < tenpow (Pos.size_nat d))%Q.
Proof.
  induction d as [d IH|d IH|].
  - assert (E : (inject_Z (Zpos d~1) == 2 * inject_Z (Zpos d) + 1)%Q).
    { unfold Qeq, inject_Z. simpl. lia. }
    rewrite E. simpl. pose proof (tenpow_ge_1 (Pos.size_nat d)). lra.
  - assert (E : (inject_Z (Zpos d~0) == 2 * inject_Z (Zpos d))%Q).
    { unfold Qeq, inject_Z. simpl. lia. }
    rewrite E. simpl. pose proof (tenpow_ge_1 (Pos.size_nat d)). lra.
  - simpl. reflexivity.
Qed.

Lemma decimals_fuel_enough h :
  (0 < h)%Q -> (10 < h * tenpow (Pos.size_nat (Qden h) + 4))%Q.
Proof.
  intros Hh.
  set (D := inject_Z (Zpos (Qden h))).
  set (T := tenpow (Pos.size_nat (Qden h))).
  assert (HT : (tenpow (Pos.size_nat (Qden h) + 4) == T * 10000)%Q).
  { rewrite Nat.add_comm. simpl. fold T. ring. }
  rewrite HT.
  assert (HD : (D < T)%Q) by apply size_nat_tenpow.
  assert (H1 : (1 <= h * D)%Q).
  { destruct h as [n d]. unfold D, Qle, Qlt, Qmult, inject_Z in *. simpl in *. nia. }
  assert (H2 : (h * D < h * T)%Q) by (apply Qmult_lt_l; assumption).
  setoid_replace (h * (T * 10000))%Q with ((h * T) * 10000)%Q by ring.
  lra.
Qed.

(** For a height or width in (0, 100], [int(2 - log10(h))] is the least
    number [k] of decimals with [10 < h * 10^k]. *)
Lemma int_2_minus_log10_spec h :
  (0 < h)%Q -> (h <= 100)%Q ->
  exists k, int_2_minus_log10 h = Ok (Z.of_nat k) /\ (10 < h * tenpow k)%Q.
Proof.
  intros H0 H100. unfold int_2_minus_log10.
  replace (Qle_bool h 0) with false.
  2:{ symmetry. destruct (Qle_bool h 0) eqn:E; [|reflexivity].
      apply Qle_bool_iff in E. lra. }
  replace (Qle_bool h 100) with true by (symmetry; apply Qle_bool_iff; assumption).
  destruct (decimals_up_spec _ h 0 (decimals_fuel_enough h H0)) as (k & -> & Hk).
  exists k. split; [reflexivity | assumption].
Qed.

Lemma round_half_even_error y :
  (Qabs (inject_Z (round_half_even y) - y) <= 1 # 2)%Q.
Proof.
  pose proof (Qfloor_le y) as Hlo. pose proof (Qlt_floor y) as Hhi.
  rewrite inject_Z_plus in Hhi. change (inject_Z 1) with 1%Q in Hhi.
  apply Qabs_Qle_condition. unfold round_half_even. cbv zeta.
  destruct (Qltb (y - inject_Z (Qfloor y)) (1 # 2)) eqn:E1.
  - apply Qltb_lt in E1. split; lra.
  - apply Qltb_ge in E1.
    destruct (Qltb (1 # 2) (y - inject_Z (Qfloor y))) eqn:E2.
    + rewrite inject_Z_plus. change (inject_Z 1) with 1%Q. split; lra.
    + apply Qltb_ge in E2. destruct (Z.even (Qfloor y)).
      * split; lra.
      * rewrite inject_Z_plus. change (inject_Z 1) with 1%Q. split; lra.
Qed.

(** [fstr] with [k] decimals moves a value by at most half a unit of the
    last decimal. *)
Lemma fstr_error x k :
  (Qabs (fstr x (Z.of_nat k) - x) <= (1 # 2) * / tenpow k)%Q.
Proof.
  unfold fstr. cbv zeta. rewrite Qred_correct.
  replace (Z.abs (Z.of_nat k)) with (Z.of_nat k) by lia.
  rewrite <- (Qpower_tenpow k).
  assert (HT : (1 <= (10 # 1) ^ Z.of_nat k)%Q)
    by (rewrite Qpower_tenpow; apply tenpow_ge_1).
  set (K := ((10 # 1) ^ Z.of_nat k)%Q) in *.
  pose proof (round_half_even_error (x * K)) as He.
  set (r := inject_Z (round_half_even (x * K))) in *.
  assert (Hinv : (0 < / K)%Q) by (apply Qinv_lt_0_compat; lra).
  assert (E : (r / K - x == (r - x * K) * / K)%Q).
  { field. lra. }
  rewrite E, Qabs_Qmult, (Qabs_pos (/ K)) by lra.
  apply Qmult_le_compat_r; [assumption | lra].
Qed.

(** ** decode2 and the box *)

Lemma rounded_center_inside {X : Collaborators} lo hi n k :
  float_rounds X ->
  (-(180) <= lo)%Q -> (hi <= 180)%Q -> (n <= 30)%nat ->
  (180 * halfpow n <= hi - lo)%Q -> (10 < (hi - lo) * tenpow k)%Q ->
  (lo <= float (fstr (favg hi lo) (Z.of_nat k)) <= hi)%Q.
Proof.
  intros Hfloat Hlo Hhi Hn Hh Hk.
  pose proof (favg_eq hi lo) as Hc.
  pose proof (fstr_error (favg hi lo) k) as Hr.
  pose proof (tenpow_ge_1 k) as HT.
  assert (Ht : (0 < / tenpow k)%Q) by (apply Qinv_lt_0_compat; lra).
  assert (H10 : (10 * / tenpow k < hi - lo)%Q).
  { assert (E : ((hi - lo) * tenpow k * / tenpow k == hi - lo)%Q) by (field; lra).
    rewrite <- E. apply Qmult_lt_compat_r; assumption. }
  pose proof (halfpow_mono n 30 Hn) as H30.
  assert (E30 : (halfpow 30 == 1 # 1073741824)%Q) by (vm_compute; reflexivity).
  rewrite E30 in H30.
  set (t := (/ tenpow k)%Q) in *. set (c := favg hi lo) in *.
  set (r := fstr c (Z.of_nat k)) in *.
  apply Qabs_Qle_condition in Hr.
  assert (Hr180 : (Qabs r <= 180)%Q) by (apply Qabs_Qle_condition; lra).
  specialize (Hfloat r Hr180). apply Qabs_Qle_condition in Hfloat.
  lra.
Qed.

Section DecodeFacts.

Context {X : Collaborators}.

(** [decode] of a valid geohash: the center of its box, each coordinate
    written with the decimals its extent asks for. *)
Lemma decode_valid g :
  valid_geohash g ->
  exists bx na nb kh kw,
    bounds (of_str g) = Ok bx /\
    decode (of_str g) =
      Ok (fstr (favg (latN bx) (latS bx)) (Z.of_nat kh),
          fstr (favg (lonE bx) (lonW bx)) (Z.of_nat kw)) /\
    (na <= 30)%nat /\ (nb <= 30)%nat /\
    (lonE bx - lonW bx == 360 * halfpow na)%Q /\
    (latN bx - latS bx == 180 * halfpow nb)%Q /\
    (10 < (latN bx - latS bx) * tenpow kh)%Q /\
    (10 < (lonE bx - lonW bx) * tenpow kw)%Q /\
    (-(90) <= latS bx)%Q /\ (latN bx <= 90)%Q /\
    (-(180) <= lonW bx)%Q /\ (lonE bx <= 180)%Q.
Proof.
  intros Hg.
  destruct (bounds_valid g Hg)
    as (bx & a & b & Hb & Hab & Hrel & Hw & Hh & Hs & Hn & Hw' & He).
  destruct Hg as [[Hl1 Hl2] _].
  assert (Ha2 : (2 <= a <= 30)%nat) by lia.
  assert (Hb2 : (2 <= b <= 30)%nat) by lia.
  pose proof (halfpow_pos a) as Pa. pose proof (halfpow_pos b) as Pb.
  pose proof (halfpow_mono 2 a (proj1 Ha2)) as Ma.
  pose proof (halfpow_mono 2 b (proj1 Hb2)) as Mb.
  simpl halfpow in Ma, Mb.
  destruct (int_2_minus_log10_spec (latN bx - latS bx)) as (kh & Ekh & Hkh); try lra.
  destruct (int_2_minus_log10_spec (lonE bx - lonW bx)) as (kw & Ekw & Hkw); try lra.
  exists bx, a, b, kh, kw.
  split; [assumption|]. split.
  - unfold decode, decode_of, _bounds3_of.
    change (bounds_of _2Geohash (of_str g)) with (bounds (of_str g)).
    rewrite Hb. cbn [bind _2center]. rewrite Ekh. cbn [bind]. rewrite Ekw.
    reflexivity.
  - repeat split; try assumption; lia.
Qed.

Lemma encode_Some lat lon p : encode lat lon (Some p) = encode_fixed lat lon p.
Proof.
  unfold encode, encode_of, encode_fixed.
  destruct (_2fll lat lon) as [[lat' lon']|]; reflexivity.
Qed.

(** C6: when [float] rounds as binary64 does, for every precision in 1..12
    and every coordinate of the domain, [encode] returns a geohash whose
    [decode2] position lies inside its [bounds]: south <= lat <= north and
    west <= lon <= east. *)
Theorem decode2_inside_bounds lat lon p :
  float_rounds X ->
  (-(90) <= lat <= 90)%Q -> (-(180) <= lon <= 180)%Q -> 1 <= p <= 12 ->
  exists gh bx ll,
    encode lat lon (Some p) = Ok gh /\
    bounds (of_str gh) = Ok bx /\
    decode2 (of_str gh) = Ok ll /\
    (latS bx <= fst ll <= latN bx)%Q /\ (lonW bx <= snd ll <= lonE bx)%Q.
Proof.
  intros Hfloat Hlat Hlon Hp.
  destruct (encode_fixed_valid lat lon p Hlat Hlon Hp) as (gh & Henc & Hgh & _).
  destruct (decode_valid gh Hgh)
    as (bx & na & nb & kh & kw & Hb & Hdec & Hna & Hnb & Hw & Hh & Hkh & Hkw &
        Hs & Hn & Hw' & He).
  exists gh, bx. eexists. rewrite encode_Some.
  split; [exact Henc|]. split; [exact Hb|]. split.
  - unfold decode2. rewrite Hdec. cbn [bind]. reflexivity.
  - unfold map2. cbn [fst snd]. split.
    + apply (rounded_center_inside _ _ nb kh Hfloat); try assumption; try lra.
    + apply (rounded_center_inside _ _ na kw Hfloat); try assumption; try lra.
      pose proof (halfpow_pos na). lra.
Qed.

End DecodeFacts.

Lemma exact_floats_rounds : float_rounds exact_floats.
Proof.
  intros x _. change (float x) with x. apply Qabs_Qle_condition. split; lra.
Qed.

Lemma decode2_inside_bounds_witness :
  (-(90) <= 52.205 <= 90)%Q /\ (-(180) <= 0.119 <= 180)%Q /\ 1 <= 7 <= 12 /\
  exists gh bx ll,
    encode (X := exact_floats) 52.205%Q 0.119%Q (Some 7) = Ok gh /\
    bounds (X := exact_floats) (of_str gh) = Ok bx /\
    decode2 (X := exact_floats) (of_str gh) = Ok ll /\
    (latS bx <= fst ll <= latN bx)%Q /\ (lonW bx <= snd ll <= lonE bx)%Q.
Proof.
  assert (Hlat : (-(90) <= 52.205 <= 90)%Q) by (split; discriminate).
  assert (Hlon : (-(180) <= 0.119 <= 180)%Q) by (split; discriminate).
  assert (Hp : 1 <= 7 <= 12) by lia.
  split; [exact Hlat|]. split; [exact Hlon|]. split; [exact Hp|].
  exact (@decode2_inside_bounds exact_floats _ _ _ exact_floats_rounds Hlat Hlon Hp).
Defined.

(** ** encode: the precision search *)

(** [range(lo, hi)] holds the integers from [lo] up to [hi - 1]. *)
Lemma In_range lo hi q : In q (range lo hi) <-> lo <= q < hi.
Proof.
  unfold range. rewrite in_map_iff. split.
  - intros (k & <- & Hk). apply in_seq in Hk. lia.
  - intros H. exists (Z.to_nat (q - lo)). split; [lia|]. apply in_seq. lia.
Qed.

Lemma range_split p :
  1 <= p <= 12 -> range 1 13 = range 1 p ++ p :: range (p + 1) 13.
Proof. intros H. each_precision H; reflexivity. Qed.

Section PrecisionSearch.

Context {X : Collaborators}.

Variables lat lon : Q.
Hypothesis Hlat : (-(90) <= lat <= 90)%Q.
Hypothesis Hlon : (-(180) <= lon <= 180)%Q.

(** One turn of the loop: it returns the candidate when the test holds and
    goes on otherwise. *)
Lemma encode_infer_step p ps :
  1 <= p <= 12 ->
  exists gh, encode_fixed lat lon p = Ok gh /\ valid_geohash gh /\
    encode_infer _2Geohash lat lon (p :: ps) =
      if round_trip_ok lat lon p then Ok (Some gh)
      else encode_infer _2Geohash lat lon ps.
Proof.
  intros Hp.
  destruct (encode_fixed_valid lat lon p Hlat Hlon Hp) as (gh & Henc & Hgh & _).
  destruct (decode_valid gh Hgh) as (bx & na & nb & kh & kw & _ & Hdec & _).
  exists gh. split; [assumption|]. split; [assumption|].
  cbn [encode_infer]. unfold round_trip_ok. rewrite encode_Some, Henc. cbn [bind].
  change (decode_of _2Geohash (of_str gh)) with (decode (of_str gh)).
  rewrite Hdec. cbn [bind]. reflexivity.
Qed.

Lemma encode_infer_none ps :
  (forall q, In q ps -> 1 <= q <= 12 /\ round_trip_ok lat lon q = false) ->
  encode_infer _2Geohash lat lon ps = Ok None.
Proof.
  induction ps as [|q ps IH]; intros H; [reflexivity|].
  destruct (H q (or_introl eq_refl)) as [Hq Hno].
  destruct (encode_infer_step q ps Hq) as (gh & _ & _ & ->). rewrite Hno.
  apply IH. intros q' Hq'. apply H. right. assumption.
Qed.

Lemma encode_infer_first ps p ps' :
  (forall q, In q ps -> 1 <= q <= 12 /\ round_trip_ok lat lon q = false) ->
  1 <= p <= 12 -> round_trip_ok lat lon p = true ->
  exists gh, encode_fixed lat lon p = Ok gh /\
             encode_infer _2Geohash lat lon (ps ++ p :: ps') = Ok (Some gh).
Proof.
  induction ps as [|q ps IH]; intros H Hp Hok.
  - destruct (encode_infer_step p ps' Hp) as (gh & Henc & _ & E).
    exists gh. split; [assumption|]. cbn [app]. rewrite E, Hok. reflexivity.
  - destruct (H q (or_introl eq_refl)) as [Hq Hno].
    destruct (IH (fun q' Hq' => H q' (or_intror Hq')) Hp Hok) as (gh & Henc & E).
    exists gh. split; [assumption|]. cbn [app].
    destruct (encode_infer_step q (ps ++ p :: ps') Hq) as (gh' & _ & _ & ->).
    rewrite Hno. exact E.
Qed.

(** C4, as amended: for a coordinate of the domain, [encode] without a
    precision returns [encode(lat, lon, p)] for the smallest precision [p]
    in 1..12 whose candidate passes the round-trip test of the code, and
    [encode(lat, lon, 12)] when none does; the test decodes the candidate
    with [decode], the center rounded on each axis to [int(2 - log10(extent))]
    decimals, reads the two texts back with [float] and asks both to be
    within [EPS] of the coordinate given.  Each candidate is a valid
    geohash. *)
Theorem encode_infers_precision :
  (forall p, 1 <= p <= 12 ->
     exists gh, encode lat lon (Some p) = Ok gh /\ valid_geohash gh /\
                Z.of_nat (length gh) = p) /\
  (forall p, 1 <= p <= 12 -> round_trip_ok lat lon p = true ->
     (forall q, 1 <= q < p -> round_trip_ok lat lon q = false) ->
     encode lat lon None = encode lat lon (Some p)) /\
  ((forall p, 1 <= p <= 12 -> round_trip_ok lat lon p = false) ->
   encode lat lon None = encode lat lon (Some 12)).
Proof.
  split; [|split].
  - intros p Hp. rewrite encode_Some. apply encode_fixed_valid; assumption.
  - intros p Hp Hok Hmin.
    destruct (encode_infer_first (range 1 p) p (range (p + 1) 13)) as (gh & Henc & E);
      try assumption.
    { intros q Hq. apply In_range in Hq. split; [lia | apply Hmin; lia]. }
    rewrite <- range_split in E by assumption.
    rewrite encode_Some, Henc. unfold encode, encode_of.
    rewrite (_2fll_in_range lat lon Hlat Hlon). cbn [bind].
    change (_MaxPrec + 1) with 13. rewrite E. reflexivity.
  - intros Hnone. unfold encode, encode_of.
    rewrite (_2fll_in_range lat lon Hlat Hlon). cbn [bind].
    change (_MaxPrec + 1) with 13. rewrite encode_infer_none.
    + reflexivity.
    + intros q Hq. apply In_range in Hq. split; [lia | apply Hnone; lia].
Qed.

End PrecisionSearch.

Lemma encode_infers_precision_witness :
  (-(90) <= 52.205 <= 90)%Q /\ (-(180) <= 0.1188 <= 180)%Q /\
  round_trip_ok (X := exact_floats) 52.205%Q 0.1188%Q 7 = true /\
  encode (X := exact_floats) 52.205%Q 0.1188%Q None
    = encode (X := exact_floats) 52.205%Q 0.1188%Q (Some 7).
Proof.
  assert (Hlat : (-(90) <= 52.205 <= 90)%Q) by (split; discriminate).
  assert (Hlon : (-(180) <= 0.1188 <= 180)%Q) by (split; discriminate).
  assert (Hok : round_trip_ok (X := exact_floats) 52.205%Q 0.1188%Q 7 = true)
    by (vm_compute; reflexivity).
  split; [exact Hlat|]. split; [exact Hlon|]. split; [exact Hok|].
  refine (proj1 (proj2 (@encode_infers_precision exact_floats _ _ Hlat Hlon))
            7 _ Hok _).
  - lia.
  - intros q Hq.
    assert (C : q = 1 \/ q = 2 \/ q = 3 \/ q = 4 \/ q = 5 \/ q = 6) by lia.
    repeat (destruct C as [C|C]; [subst q; vm_compute; reflexivity|]).
    subst q; vm_compute; reflexivity.
Defined.

(** C4, as it was claimed, fails: at the documented input (52.205, 0.1188)
    no precision in 1..12 brings the center of the candidate's cell within
    [EPS] of the coordinate, so the claim has [encode] return the 12
    characters of [encode(52.205, 0.1188, 12)]; it returns the 7 characters
    that the docstring gives, whose rounded decoding is the coordinate. *)
Lemma encode_infers_from_rounded_text :
  forallb (fun p => negb (center_round_trip_ok (X := exact_floats)
                            52.205%Q 0.1188%Q p)) (range 1 13) = true /\
  encode (X := exact_floats) 52.205%Q 0.1188%Q (Some 12) = Ok (lit "u120fxws0jre") /\
  encode (X := exact_floats) 52.205%Q 0.1188%Q None = Ok (lit "u120fxw") /\
  round_trip_ok (X := exact_floats) 52.205%Q 0.1188%Q 7 = true.
Proof. repeat split; vm_compute; reflexivity. Qed.

(** The documented vectors of [encode], [decode] and [bounds]; the two
    decoded texts are 52.205 and 0.1188, in lowest terms. *)
Example documented_vectors :
  encode (X := exact_floats) 52.205%Q 0.119%Q (Some 7) = Ok (lit "u120fxw") /\
  encode (X := exact_floats) 52.205%Q 0.1188%Q None = Ok (lit "u120fxw") /\
  encode (X := exact_floats) 0%Q 0%Q (Some 12) = Ok (lit "s00000000000") /\
  encode (X := exact_floats) 0%Q 0%Q None = Ok (lit "s00000000000") /\
  decode (X := exact_floats) (of_str (lit "u120fxw"))
    = Ok (10441 # 200, 297 # 2500) /\
  bounds (X := exact_floats) (of_str (lit "u120fxw"))
    = Ok (mkBounds4 (855315 # 16384) (1935 # 16384) (1710675 # 32768) (3915 # 32768)).
Proof. repeat split; vm_compute; reflexivity. Qed.

(** ** The fuel always suffices *)

Lemma _2fll_Ok lat lon ll :
  _2fll lat lon = Ok ll ->
  ll = (lat, lon) /\ (-(90) <= lat <= 90)%Q /\ (-(180) <= lon <= 180)%Q.
Proof.
  unfold _2fll, Lat, Lon.
  destruct (Qle_bool (-(90)) lat && Qle_bool lat 90) eqn:E1; [|discriminate].
  destruct (Qle_bool (-(180)) lon && Qle_bool lon 180) eqn:E2; [|discriminate].
  cbn [bind]. intros [= <-].
  apply andb_true_iff in E1, E2. destruct E1 as [A B], E2 as [C D].
  apply Qle_bool_iff in A, B, C, D. auto.
Qed.

Section Fuel.

Context {X : Collaborators}.

Variable G : Cll -> result str.
Hypothesis G_valid : forall g, valid_geohash g -> G (of_str g) = Ok g.

Lemma decode_of_agree g :
  valid_geohash g -> decode_of G (of_str g) = decode (of_str g).
Proof.
  intros Hg. unfold decode, decode_of, _bounds3_of, bounds_of.
  rewrite (G_valid g Hg), (_2Geohash_valid g Hg). reflexivity.
Qed.

Lemma encode_infer_agree lat lon ps :
  (-(90) <= lat <= 90)%Q -> (-(180) <= lon <= 180)%Q ->
  (forall p, In p ps -> 1 <= p <= 12) ->
  encode_infer G lat lon ps = encode_infer _2Geohash lat lon ps /\
  exists found, encode_infer _2Geohash lat lon ps = Ok found.
Proof.
  intros Hlat Hlon. induction ps as [|p ps IH]; intros Hps.
  - split; [reflexivity | eexists; reflexivity].
  - destruct (IH (fun q Hq => Hps q (or_intror Hq))) as [IH1 [found IH2]].
    destruct (encode_infer_step lat lon Hlat Hlon p ps (Hps p (or_introl eq_refl)))
      as (gh & Henc & Hgh & E).
    split.
    + rewrite E. cbn [encode_infer]. rewrite Henc. cbn [bind].
      rewrite (decode_of_agree gh Hgh). unfold round_trip_ok.
      rewrite encode_Some, Henc.
      destruct (decode_valid gh Hgh) as (bx & na & nb & kh & kw & _ & -> & _).
      cbn [bind]. destruct (_ && _); [reflexivity | exact IH1].
    + rewrite E. destruct (round_trip_ok lat lon p); eauto.
Qed.

Lemma encode_of_agree lat lon precision :
  encode_of G lat lon precision = encode lat lon precision /\
  encode lat lon precision <> Err OutOfFuel.
Proof.
  unfold encode, encode_of.
  destruct (_2fll lat lon) as [ll|err] eqn:E.
  - destruct (_2fll_Ok lat lon ll E) as (-> & Hlat & Hlon). cbn [bind].
    destruct precision as [p|].
    + split; [reflexivity|]. unfold Precision_, _MaxPrec.
      destruct ((1 <=? p) && (p <=? 12)) eqn:Ep; [|discriminate]. cbn [bind].
      apply andb_true_iff in Ep. destruct Ep as [Ep1 Ep2].
      apply Z.leb_le in Ep1, Ep2.
      destruct (encode_loop_valid lat lon p (conj Ep1 Ep2)) as (gh & -> & _).
      discriminate.
    + destruct (encode_infer_agree lat lon (range 1 (_MaxPrec + 1)) Hlat Hlon)
        as [-> [found ->]].
      { intros p Hp. apply In_range in Hp. unfold _MaxPrec in Hp. lia. }
      split; [reflexivity|]. cbn [bind]. destruct found; [discriminate|].
      cbv zeta.
      destruct (encode_loop_valid lat lon _MaxPrec) as (gh & -> & _);
        [unfold _MaxPrec; lia | discriminate].
  - cbn [bind]. split; [reflexivity|]. destruct err; try discriminate.
    exfalso. unfold _2fll, Lat, Lon in E.
    destruct (Qle_bool (-(90)) lat && Qle_bool lat 90); [|discriminate].
    destruct (Qle_bool (-(180)) lon && Qle_bool lon 180); discriminate.
Qed.

End Fuel.

(** The loop of [encode] ends on every input, and the constructor of
    [Geohash], given a coordinate, returns what [encode] returns: its own
    nesting through [encode], [decode] and [bounds] never goes deeper than
    the fuel it is given. *)
Theorem encode_and_constructor_return {X : Collaborators} lat lon precision :
  encode lat lon precision <> Err OutOfFuel /\
  Geohash (of_LatLon lat lon) precision = encode lat lon precision.
Proof.
  split.
  - apply (encode_of_agree _2Geohash (@_2Geohash_valid X)).
  - unfold Geohash. cbn [Geohash_fuel].
    destruct (_2fll lat lon) as [ll|err] eqn:E.
    + destruct (_2fll_Ok lat lon ll E) as (-> & _ & _). cbn [bind fst snd].
      apply encode_of_agree. intros g Hg.
      rewrite (no_comma g Hg). apply _2geostr_valid. assumption.
    + unfold encode, encode_of. rewrite E. cbn [bind]. reflexivity.
Qed.

(** ** The codec: encode and bounds bisect alike *)

Lemma favg_comm a b : favg a b = favg b a.
Proof. unfold favg. apply Qred_complete. ring. Qed.

Lemma bounds_bit_step i st m :
  bounds_bit i st m = bit_step st (negb (Z.land i m =? 0)).
Proof. destruct st as [d [[[s w] n] e]]. destruct d; reflexivity. Qed.

Lemma bounds_fold_bits i st :
  fold_left (bounds_bit i) [16; 8; 4; 2; 1] st = fold_left bit_step (bits_of i) st.
Proof.
  unfold bits_of. cbn [fold_left map]. rewrite !bounds_bit_step. reflexivity.
Qed.

Lemma point_bits_fold lat lon : forall k st,
  snd (point_bits k lat lon st) = fold_left bit_step (fst (point_bits k lat lon st)) st.
Proof.
  induction k as [|k IH]; intros st; cbn [point_bits fst snd fold_left].
  - reflexivity.
  - apply IH.
Qed.

Lemma point_bits_length lat lon : forall k st,
  length (fst (point_bits k lat lon st)) = k.
Proof.
  induction k as [|k IH]; intros st; cbn [point_bits fst length]; [|rewrite IH];
    reflexivity.
Qed.

(** The body of the loop of [encode], read as one bisection. *)
Lemma encode_body_exact lat lon st :
  encode_body lat lon st =
    let beta := point_bit lat lon (enc_box st) in
    let i := enc_i st + enc_i st + (if beta then 1 else 0) in
    if enc_b st + 1 =? 5 then
      c <- base32_at i ;;
      Ok (enc_state (enc_p st - 1) 0 0 (enc_gh st ++ [c]) (bit_step (enc_box st) beta))
    else Ok (enc_state (enc_p st) (enc_b st + 1) i (enc_gh st)
                       (bit_step (enc_box st) beta)).
Proof.
  unfold encode_body, enc_box, point_bit, bit_step, enc_state.
  rewrite (favg_comm (enc_e st) (enc_w st)), (favg_comm (enc_n st) (enc_s st)).
  cbv zeta.
  destruct (enc_d st); cbn [negb];
    match goal with |- context [Qltb ?x ?m] => destruct (Qltb x m) end;
    cbn [negb]; rewrite ?Z.add_0_r; reflexivity.
Qed.

Lemma enc_box_state p b i gh bx : enc_box (enc_state p b i gh bx) = bx.
Proof. destruct bx as [d [[[s w] n] e]]. reflexivity. Qed.

Lemma enc_state_fields p b i gh bx :
  enc_p (enc_state p b i gh bx) = p /\ enc_b (enc_state p b i gh bx) = b /\
  enc_i (enc_state p b i gh bx) = i /\ enc_gh (enc_state p b i gh bx) = gh.
Proof. destruct bx as [d [[[s w] n] e]]. repeat split. Qed.

(** The passes of the loop that complete a character: [S k] bits are
    missing, the point supplies them, and the character is appended. *)
Lemma encode_while_partial lat lon : forall k st fuel,
  enc_b st = 4 - Z.of_nat k -> 0 < enc_p st ->
  encode_while (S k + fuel) lat lon st =
    (let r := point_bits (S k) lat lon (enc_box st) in
     c <- base32_at (int_of_bits (enc_i st) (fst r)) ;;
     encode_while fuel lat lon
       (enc_state (enc_p st - 1) 0 0 (enc_gh st ++ [c]) (snd r))).
Proof.
  induction k as [|k IH]; intros st fuel Hb Hp.
  - cbn [Nat.add encode_while]. apply Z.ltb_lt in Hp. rewrite Hp.
    rewrite encode_body_exact. cbv zeta.
    replace (enc_b st + 1 =? 5) with true by (symmetry; apply Z.eqb_eq; cbn in Hb; lia).
    cbn [point_bits fst snd int_of_bits fold_left].
    destruct (base32_at _); reflexivity.
  - change (S (S k) + fuel)%nat with (S (S k + fuel)).
    cbn [encode_while]. pose proof Hp as Hp'. apply Z.ltb_lt in Hp'. rewrite Hp'.
    rewrite encode_body_exact. cbv zeta.
    replace (enc_b st + 1 =? 5) with false by (symmetry; apply Z.eqb_neq; lia).
    cbn [bind].
    destruct (enc_state_fields (enc_p st) (enc_b st + 1)
                (enc_i st + enc_i st + (if point_bit lat lon (enc_box st) then 1 else 0))
                (enc_gh st) (bit_step (enc_box st) (point_bit lat lon (enc_box st))))
      as (F1 & F2 & F3 & F4).
    rewrite IH by (rewrite ?F1, ?F2; lia).
    cbv zeta. rewrite enc_box_state, F1, F3, F4.
    cbn [point_bits fst snd int_of_bits fold_left]. reflexivity.
Qed.

(** The loop of [encode] on a fresh character boundary: [n] characters,
    five bisections each. *)
Lemma encode_while_chars lat lon : forall n st fuel,
  enc_b st = 0 -> enc_i st = 0 -> enc_p st = Z.of_nat n -> (0 < fuel)%nat ->
  encode_while (5 * n + fuel) lat lon st =
    (r <- enc_chars n lat lon (enc_box st) ;; Ok (enc_gh st ++ fst r)).
Proof.
  induction n as [|n IH]; intros st fuel Hb Hi Hp Hfuel.
  - destruct fuel as [|fuel]; [lia|]. cbn [Nat.mul Nat.add encode_while].
    replace (0 <? enc_p st) with false by (symmetry; apply Z.ltb_ge; lia).
    cbn [enc_chars bind fst]. rewrite app_nil_r. reflexivity.
  - replace (5 * S n + fuel)%nat with (5 + (5 * n + fuel))%nat by lia.
    rewrite (encode_while_partial lat lon 4) by (cbn; lia).
    cbv zeta. rewrite Hi. cbn [enc_chars].
    destruct (base32_at (int_of_bits 0 (fst (point_bits 5 lat lon (enc_box st)))))
      as [c|err]; cbn [bind]; [|reflexivity].
    destruct (enc_state_fields (enc_p st - 1) 0 0 (enc_gh st ++ [c])
                (snd (point_bits 5 lat lon (enc_box st)))) as (F1 & F2 & F3 & F4).
    rewrite IH by (rewrite ?F1, ?F2, ?F3; lia).
    rewrite enc_box_state, F4.
    destruct (enc_chars n lat lon (snd (point_bits 5 lat lon (enc_box st))))
      as [r|err]; cbn [bind fst]; [|reflexivity].
    rewrite <- app_assoc. reflexivity.
Qed.

Lemma encode_loop_chars lat lon p :
  1 <= p <= 12 ->
  encode_while (Z.to_nat (5 * p) + 1) lat lon (encode_init p) =
    (r <- enc_chars (Z.to_nat p) lat lon (true, _Bounds4) ;; Ok (fst r)).
Proof.
  intros Hp.
  replace (Z.to_nat (5 * p) + 1)%nat with (5 * Z.to_nat p + 1)%nat by lia.
  rewrite encode_while_chars; try reflexivity; try lia.
  cbn. lia.
Qed.

(** Five bits make a number below 32, and the masks read them back. *)
Lemma bits_of_int_of_bits bits :
  length bits = 5%nat ->
  0 <= int_of_bits 0 bits < 32 /\ bits_of (int_of_bits 0 bits) = bits.
Proof.
  destruct bits as [|b1 [|b2 [|b3 [|b4 [|b5 [|b6 bits]]]]]]; try discriminate.
  intros _. destruct b1, b2, b3, b4, b5; vm_compute; repeat split; congruence.
Qed.

(** The alphabet and its inverse table, and the bits of each symbol. *)
Lemma decoded_symbol c i :
  _DecodedBase32 c = Some i ->
  0 <= i < 32 /\ base32_at i = Ok c /\ int_of_bits 0 (bits_of i) = i.
Proof.
  intros H.
  assert (Hc : In c _GeohashBase32) by (eapply index_of_In; exact H).
  assert (K : match _DecodedBase32 c with
              | Some i => (0 <=? i) && (i <? 32) &&
                          match base32_at i with
                          | Ok c' => Ascii.eqb c' c
                          | Err _ => false
                          end && (int_of_bits 0 (bits_of i) =? i)
              | None => false
              end = true).
  { clear H. revert c Hc. apply alphabet_forall. vm_compute. reflexivity. }
  rewrite H in K. apply andb_true_iff in K. destruct K as [K K4].
  apply andb_true_iff in K. destruct K as [K K3].
  apply andb_true_iff in K. destruct K as [K1 K2].
  apply Z.leb_le in K1. apply Z.ltb_lt in K2. apply Z.eqb_eq in K4.
  destruct (base32_at i) as [c'|]; [|discriminate].
  apply Ascii.eqb_eq in K3. subst c'. auto.
Qed.

Lemma symbol_decoded i c :
  0 <= i < 32 -> base32_at i = Ok c -> _DecodedBase32 c = Some i.
Proof.
  intros Hi H.
  assert (K : forallb (fun j => match base32_at j with
                                | Ok c' => match _DecodedBase32 c' with
                                           | Some k => k =? j
                                           | None => false
                                           end
                                | Err _ => false
                                end) (range 0 32) = true)
    by (vm_compute; reflexivity).
  rewrite forallb_forall in K. specialize (K i (proj2 (In_range 0 32 i) Hi)).
  rewrite H in K. destruct (_DecodedBase32 c) as [k|]; [|discriminate].
  apply Z.eqb_eq in K. congruence.
Qed.

(** What [encode] writes, [bounds] reads: the characters of a point lead
    [bounds] to the box that [encode] reached. *)
Lemma enc_chars_bounds_chars lat lon : forall n st cs st',
  enc_chars n lat lon st = Ok (cs, st') ->
  bounds_chars cs st = Ok st' /\ length cs = n /\
  Forall (fun c => In c _GeohashBase32) cs.
Proof.
  induction n as [|n IH]; intros st cs st'; cbn [enc_chars].
  - intros [= <- <-]. repeat split. apply Forall_nil.
  - cbv zeta.
    destruct (bits_of_int_of_bits (fst (point_bits 5 lat lon st))
                (point_bits_length lat lon 5 st)) as [Hi Hbits].
    destruct (base32_at (int_of_bits 0 (fst (point_bits 5 lat lon st))))
      as [c|err] eqn:Ec; cbn [bind]; [|discriminate].
    destruct (enc_chars n lat lon (snd (point_bits 5 lat lon st)))
      as [[cs1 st1]|err] eqn:En; cbn [bind fst snd]; [|discriminate].
    intros [= <- <-].
    destruct (IH _ _ _ En) as (Hb & Hlen & Hall).
    cbn [bounds_chars]. rewrite (symbol_decoded _ _ Hi Ec).
    rewrite bounds_fold_bits, Hbits, <- point_bits_fold.
    split; [exact Hb|]. split; [cbn [length]; congruence|].
    apply Forall_cons; [|exact Hall].
    eapply index_of_In. exact (symbol_decoded _ _ Hi Ec).
Qed.

(** ** The point stays in the box *)

Lemma point_bit_inv lat lon st :
  point_inv lat lon (snd st) ->
  point_inv lat lon (snd (bit_step st (point_bit lat lon st))).
Proof.
  destruct st as [d [[[s w] n] e]]. unfold point_inv, in_box, bit_step, point_bit.
  cbn [snd]. intros ((Hlat & Hlon) & Hn & He).
  pose proof (favg_eq w e) as Hm1. pose proof (favg_eq s n) as Hm2.
  destruct d.
  - destruct (Qltb lon (favg w e)) eqn:E; cbn [negb].
    + apply Qltb_lt in E. repeat split; try tauto; try lra.
    + apply Qltb_ge in E. repeat split; try tauto; try lra.
  - destruct (Qltb lat (favg s n)) eqn:E; cbn [negb].
    + apply Qltb_lt in E. repeat split; try tauto; try lra.
    + apply Qltb_ge in E. repeat split; try tauto; try lra.
Qed.

Lemma point_bits_inv lat lon : forall k st,
  point_inv lat lon (snd st) -> point_inv lat lon (snd (snd (point_bits k lat lon st))).
Proof.
  induction k as [|k IH]; intros st H; cbn [point_bits snd]; [exact H|].
  apply IH. apply point_bit_inv. exact H.
Qed.

Lemma enc_chars_inv lat lon : forall n st cs st',
  enc_chars n lat lon st = Ok (cs, st') ->
  point_inv lat lon (snd st) -> point_inv lat lon (snd st').
Proof.
  induction n as [|n IH]; intros st cs st'; cbn [enc_chars].
  - intros [= <- <-] H. exact H.
  - cbv zeta. destruct (base32_at _) as [c|err]; cbn [bind]; [|discriminate].
    destruct (enc_chars n lat lon (snd (point_bits 5 lat lon st)))
      as [[cs1 st1]|err] eqn:En; cbn [bind fst snd]; [|discriminate].
    intros [= <- <-] H. eapply IH; [exact En|]. apply point_bits_inv. exact H.
Qed.

Lemma point_inv_globe lat lon :
  (-(90) <= lat <= 90)%Q -> (-(180) <= lon <= 180)%Q ->
  point_inv lat lon (snd (true, _Bounds4)).
Proof. intros H1 H2. unfold point_inv, in_box, _Bounds4. cbn [snd]. tauto. Qed.

Lemma box_inv_globe : box_inv 0 0 (true, _Bounds4).
Proof. unfold box_inv, _Bounds4. simpl halfpow. repeat split; try lra. left; auto. Qed.

Section CodecFacts.

Context {X : Collaborators}.

(** [bounds] of a valid geohash, given as a string or as an instance, is
    the box that the loop over its characters reaches. *)
Lemma bounds_chars_bounds g :
  valid_geohash g ->
  exists d bx a b,
    bounds_chars g (true, _Bounds4) = Ok (d, box_of bx) /\
    box_inv a b (d, box_of bx) /\ (a + b = 5 * length g)%nat /\
    bounds (of_str g) = Ok bx /\ bounds (of_Geohash g) = Ok bx.
Proof.
  intros Hg. pose proof Hg as [Hlen Hall].
  destruct (bounds_chars_inv g _ _ _ Hall box_inv_globe) as (st' & a & b & Hrun & Hinv & E).
  destruct st' as [d [[[s w] n] e]].
  exists d, (_2bounds s w n e), a, b.
  split; [exact Hrun|]. split; [exact Hinv|]. split; [lia|].
  unfold bounds, bounds_of. rewrite (_2Geohash_valid g Hg). cbn [_2Geohash bind].
  replace (Z.of_nat (length g) <? 1) with false by (symmetry; apply Z.ltb_ge; lia).
  rewrite (lower_valid g Hall), Hrun. split; reflexivity.
Qed.

Lemma encode_fixed_chars lat lon p :
  (-(90) <= lat <= 90)%Q -> (-(180) <= lon <= 180)%Q -> 1 <= p <= 12 ->
  encode lat lon (Some p) =
    (r <- enc_chars (Z.to_nat p) lat lon (true, _Bounds4) ;; Ok (fst r)).
Proof.
  intros Hlat Hlon Hp. rewrite encode_Some. unfold encode_fixed.
  rewrite (_2fll_in_range lat lon Hlat Hlon). cbn [bind fst snd].
  unfold Precision_, _MaxPrec.
  replace ((1 <=? p) && (p <=? 12)) with true
    by (symmetry; apply andb_true_iff; split; apply Z.leb_le; lia).
  cbn [bind]. apply encode_loop_chars. exact Hp.
Qed.

(** What [encode] returns at a precision, with the box its loop reached. *)
Lemma encode_run lat lon p :
  (-(90) <= lat <= 90)%Q -> (-(180) <= lon <= 180)%Q -> 1 <= p <= 12 ->
  exists gh st',
    enc_chars (Z.to_nat p) lat lon (true, _Bounds4) = Ok (gh, st') /\
    encode lat lon (Some p) = Ok gh /\ valid_geohash gh /\
    Z.of_nat (length gh) = p.
Proof.
  intros Hlat Hlon Hp.
  destruct (encode_fixed_valid lat lon p Hlat Hlon Hp) as (gh & Henc & Hgh & Hlen).
  rewrite <- encode_Some in Henc.
  pose proof (encode_fixed_chars lat lon p Hlat Hlon Hp) as E. rewrite Henc in E.
  destruct (enc_chars (Z.to_nat p) lat lon (true, _Bounds4)) as [[cs st']|err];
    cbn [bind fst] in E; [|discriminate].
  injection E as <-. exists gh, st'. auto.
Qed.

(** For every coordinate of the domain and every precision in 1..12,
    [encode] returns a geohash of that length whose [bounds] contain the
    coordinate: south and west edges included, and the coordinate lies
    strictly below the north edge unless its latitude is 90, strictly
    west of the east edge unless its longitude is 180. *)
Theorem encode_inside_bounds lat lon p :
  (-(90) <= lat <= 90)%Q -> (-(180) <= lon <= 180)%Q -> 1 <= p <= 12 ->
  exists gh bx,
    encode lat lon (Some p) = Ok gh /\ Z.of_nat (length gh) = p /\
    bounds (of_str gh) = Ok bx /\
    (latS bx <= lat <= latN bx)%Q /\ (lonW bx <= lon <= lonE bx)%Q /\
    ((lat < 90)%Q -> (lat < latN bx)%Q) /\ ((lon < 180)%Q -> (lon < lonE bx)%Q).
Proof.
  intros Hlat Hlon Hp.
  destruct (encode_run lat lon p Hlat Hlon Hp) as (gh & st' & Hrun & Henc & Hgh & Hlen).
  destruct (bounds_chars_bounds gh Hgh) as (d & bx & a & b & Hb & _ & _ & Hbx & _).
  destruct (enc_chars_bounds_chars _ _ _ _ _ _ Hrun) as (Hb' & _ & _).
  rewrite Hb in Hb'. injection Hb' as <-.
  pose proof (enc_chars_inv _ _ _ _ _ _ Hrun (point_inv_globe lat lon Hlat Hlon)) as Hinv.
  unfold point_inv, in_box, box_of in Hinv. cbn [snd] in Hinv.
  exists gh, bx. tauto.
Qed.

End CodecFacts.

(** ** Every point of a cell encodes to the cell *)

Lemma bit_step_inv a b st beta :
  box_inv a b st ->
  exists a' b', box_inv a' b' (bit_step st beta) /\ (a' + b' = S (a + b))%nat.
Proof.
  intros H.
  destruct (bounds_bit_inv (if beta then 1 else 0) 1 a b st H) as (a' & b' & H' & E).
  rewrite bounds_bit_step in H'.
  replace (negb (Z.land (if beta then 1 else 0) 1 =? 0)) with beta in H'
    by (destruct beta; reflexivity).
  eauto.
Qed.

Lemma bits_inv : forall bits a b st,
  box_inv a b st ->
  exists a' b', box_inv a' b' (fold_left bit_step bits st) /\
                (a' + b' = a + b + length bits)%nat.
Proof.
  induction bits as [|beta bits IH]; intros a b st H; cbn [fold_left length].
  - exists a, b. split; [exact H | lia].
  - destruct (bit_step_inv a b st beta H) as (a1 & b1 & H1 & E1).
    destruct (IH a1 b1 _ H1) as (a2 & b2 & H2 & E2).
    exists a2, b2. split; [exact H2 | lia].
Qed.

Lemma box_inv_proper a b st :
  box_inv a b st ->
  let '(s, w, n, e) := snd st in (s < n)%Q /\ (w < e)%Q.
Proof.
  destruct st as [d [[[s w] n] e]]. unfold box_inv. cbn [snd].
  intros (_ & Hew & Hns & _).
  pose proof (halfpow_pos a). pose proof (halfpow_pos b). split; lra.
Qed.

(** A point of the half that a bit selects lies in the box, and the bit
    is the one that [encode] emits for the point. *)
Lemma bit_step_cell lat lon a b st beta :
  box_inv a b st -> in_cell lat lon (snd (bit_step st beta)) ->
  in_cell lat lon (snd st) /\ point_bit lat lon st = beta.
Proof.
  intros Hinv. pose proof (box_inv_proper a b st Hinv) as Hp. revert Hp.
  destruct st as [d [[[s w] n] e]]. unfold in_cell, bit_step, point_bit.
  cbn [snd]. intros [Hsn Hwe].
  pose proof (favg_eq w e) as Hm1. pose proof (favg_eq s n) as Hm2.
  destruct d, beta; intros [[H1 H2] [H3 H4]].
  - split; [repeat split; lra|].
    replace (Qltb lon (favg w e)) with false; [reflexivity|].
    symmetry. apply Qltb_ge. exact H3.
  - split; [repeat split; lra|].
    replace (Qltb lon (favg w e)) with true; [reflexivity|].
    symmetry. apply Qltb_lt. exact H4.
  - split; [repeat split; lra|].
    replace (Qltb lat (favg s n)) with false; [reflexivity|].
    symmetry. apply Qltb_ge. exact H1.
  - split; [repeat split; lra|].
    replace (Qltb lat (favg s n)) with true; [reflexivity|].
    symmetry. apply Qltb_lt. exact H2.
Qed.

Lemma bits_cell lat lon : forall bits a b st,
  box_inv a b st -> in_cell lat lon (snd (fold_left bit_step bits st)) ->
  point_bits (length bits) lat lon st = (bits, fold_left bit_step bits st) /\
  in_cell lat lon (snd st).
Proof.
  induction bits as [|beta bits IH]; intros a b st Hinv Hin;
    cbn [fold_left length point_bits] in *.
  - split; [reflexivity | exact Hin].
  - destruct (bit_step_inv a b st beta Hinv) as (a1 & b1 & H1 & _).
    destruct (IH a1 b1 _ H1 Hin) as [Hbits Hin1].
    destruct (bit_step_cell lat lon a b st beta Hinv Hin1) as [Hin0 Hb].
    rewrite Hb, Hbits. split; [reflexivity | exact Hin0].
Qed.

Lemma chars_cell lat lon : forall g a b st st',
  box_inv a b st -> bounds_chars g st = Ok st' -> in_cell lat lon (snd st') ->
  enc_chars (length g) lat lon st = Ok (g, st') /\ in_cell lat lon (snd st).
Proof.
  induction g as [|c g IH]; intros a b st st' Hinv; cbn [bounds_chars length enc_chars].
  - intros [= <-] Hin. split; [reflexivity | exact Hin].
  - destruct (_DecodedBase32 c) as [i|] eqn:Ec; [|discriminate].
    rewrite bounds_fold_bits. intros Hrun Hin.
    destruct (bits_inv (bits_of i) a b st Hinv) as (a1 & b1 & H1 & _).
    destruct (IH a1 b1 _ _ H1 Hrun Hin) as [Henc Hin1].
    destruct (bits_cell lat lon (bits_of i) a b st Hinv Hin1) as [Hbits Hin0].
    change (length (bits_of i)) with 5%nat in Hbits.
    cbv zeta. rewrite Hbits. cbn [fst snd].
    destruct (decoded_symbol c i Ec) as (_ & Hat & Hint).
    rewrite Hint, Hat. cbn [bind]. rewrite Henc. cbn [bind fst snd].
    split; [reflexivity | exact Hin0].
Qed.

Section RoundTripFacts.

Context {X : Collaborators}.

Lemma cell_in_globe g bx lat lon :
  valid_geohash g -> bounds (of_str g) = Ok bx -> in_cell lat lon (box_of bx) ->
  (-(90) <= lat <= 90)%Q /\ (-(180) <= lon <= 180)%Q.
Proof.
  intros Hg Hb Hin.
  destruct (bounds_valid g Hg) as (bx' & a & b & Hb' & _ & _ & _ & _ & Hs & Hn & Hw & He).
  rewrite Hb in Hb'. injection Hb' as <-.
  unfold in_cell, box_of in Hin. split; split; lra.
Qed.

Lemma cell_encodes g bx lat lon :
  valid_geohash g -> bounds (of_str g) = Ok bx -> in_cell lat lon (box_of bx) ->
  encode lat lon (Some (Z.of_nat (length g))) = Ok g.
Proof.
  intros Hg Hb Hin.
  destruct (cell_in_globe g bx lat lon Hg Hb Hin) as [Hlat Hlon].
  destruct (bounds_chars_bounds g Hg) as (d & bx' & a & b & Hrun & _ & _ & Hb' & _).
  rewrite Hb in Hb'. injection Hb' as <-.
  destruct (chars_cell lat lon g 0 0 _ _ box_inv_globe Hrun Hin) as [Henc _].
  destruct Hg as [Hlen _].
  rewrite encode_fixed_chars by (try assumption; lia).
  rewrite Nat2Z.id, Henc. reflexivity.
Qed.

(** [encode] and [bounds] are inverse to each other: for a valid
    geohash [g] and a coordinate with latitude below 90 and longitude below
    180, [encode] at the precision [len(g)] returns [g] if and only if the
    coordinate lies in the cell of [g], the box of [bounds(g)] with its
    south and west edges and without its north and east edges. *)
Theorem encode_iff_in_cell g bx lat lon :
  valid_geohash g -> bounds (of_str g) = Ok bx ->
  (-(90) <= lat < 90)%Q -> (-(180) <= lon < 180)%Q ->
  (encode lat lon (Some (Z.of_nat (length g))) = Ok g <->
   in_cell lat lon (box_of bx)).
Proof.
  intros Hg Hb Hlat Hlon. split.
  - intros Henc.
    assert (Hlat' : (-(90) <= lat <= 90)%Q) by (split; lra).
    assert (Hlon' : (-(180) <= lon <= 180)%Q) by (split; lra).
    assert (Hp : 1 <= Z.of_nat (length g) <= 12) by (destruct Hg; lia).
    destruct (encode_run lat lon _ Hlat' Hlon' Hp) as (gh & st' & Hrun & Henc' & _ & _).
    rewrite Henc in Henc'. injection Henc' as <-.
    destruct (bounds_chars_bounds g Hg) as (d & bx' & a & b & Hc & _ & _ & Hb' & _).
    rewrite Hb in Hb'. injection Hb' as <-.
    destruct (enc_chars_bounds_chars _ _ _ _ _ _ Hrun) as (Hc' & _ & _).
    rewrite Hc in Hc'. injection Hc' as <-.
    pose proof (enc_chars_inv _ _ _ _ _ _ Hrun (point_inv_globe lat lon Hlat' Hlon'))
      as Hinv.
    unfold point_inv, in_box, box_of in Hinv. cbn [snd] in Hinv.
    unfold in_cell, box_of. destruct Hinv as ((H1 & H2) & H3 & H4).
    assert (H5 : (lat < latN bx)%Q) by (apply H3; lra).
    assert (H6 : (lon < lonE bx)%Q) by (apply H4; lra).
    tauto.
  - apply cell_encodes; assumption.
Qed.


(** The cells of one length do not overlap: two different valid
    geohashes of the same length have no point in common. *)
Theorem cells_disjoint g1 g2 b1 b2 :
  valid_geohash g1 -> valid_geohash g2 -> length g1 = length g2 -> g1 <> g2 ->
  bounds (of_str g1) = Ok b1 -> bounds (of_str g2) = Ok b2 ->
  forall lat lon, ~ (in_cell lat lon (box_of b1) /\ in_cell lat lon (box_of b2)).
Proof.
  intros H1 H2 Hlen Hne Hb1 Hb2 lat lon [Hin1 Hin2].
  pose proof (cell_encodes g1 b1 lat lon H1 Hb1 Hin1) as E1.
  pose proof (cell_encodes g2 b2 lat lon H2 Hb2 Hin2) as E2.
  rewrite Hlen in E1. congruence.
Qed.

End RoundTripFacts.

(** ** Longer geohashes, smaller cells *)

Lemma is_prefix_of_app a : forall b,
  is_prefix_of a b = true -> exists t, b = a ++ t.
Proof.
  induction a as [|x a IH]; intros b; cbn [is_prefix_of].
  - exists b. reflexivity.
  - destruct b as [|y b]; [discriminate|].
    destruct (Ascii.eqb_spec x y) as [->|_]; [|discriminate].
    cbn [andb]. intros H. destruct (IH b H) as [t ->]. exists t. reflexivity.
Qed.

Lemma bounds_chars_app : forall a t st,
  bounds_chars (a ++ t) st = (st1 <- bounds_chars a st ;; bounds_chars t st1).
Proof.
  induction a as [|c a IH]; intros t st; cbn [app bounds_chars bind].
  - reflexivity.
  - destruct (_DecodedBase32 c); [apply IH | reflexivity].
Qed.

Lemma box_sub_refl b : box_sub b b.
Proof. destruct b as [[[s w] n] e]. unfold box_sub. repeat split; lra. Qed.

Lemma box_sub_trans b1 b2 b3 : box_sub b1 b2 -> box_sub b2 b3 -> box_sub b1 b3.
Proof.
  destruct b1 as [[[s1 w1] n1] e1], b2 as [[[s2 w2] n2] e2], b3 as [[[s3 w3] n3] e3].
  unfold box_sub. intros (A1 & A2 & A3 & A4) (B1 & B2 & B3 & B4). repeat split; lra.
Qed.

Lemma bit_step_sub a b st beta :
  box_inv a b st -> box_sub (snd (bit_step st beta)) (snd st).
Proof.
  intros Hinv. pose proof (box_inv_proper a b st Hinv) as Hp. revert Hp.
  destruct st as [d [[[s w] n] e]]. unfold box_sub, bit_step. cbn [snd].
  intros [Hsn Hwe].
  pose proof (favg_eq w e) as Hm1. pose proof (favg_eq s n) as Hm2.
  destruct d, beta; repeat split; lra.
Qed.

Lemma bits_sub : forall bits a b st,
  box_inv a b st -> box_sub (snd (fold_left bit_step bits st)) (snd st).
Proof.
  induction bits as [|beta bits IH]; intros a b st Hinv; cbn [fold_left].
  - apply box_sub_refl.
  - destruct (bit_step_inv a b st beta Hinv) as (a1 & b1 & H1 & _).
    eapply box_sub_trans; [exact (IH a1 b1 _ H1) | exact (bit_step_sub a b st beta Hinv)].
Qed.

Lemma bounds_chars_sub : forall t a b st st',
  box_inv a b st -> bounds_chars t st = Ok st' -> box_sub (snd st') (snd st).
Proof.
  induction t as [|c t IH]; intros a b st st' Hinv; cbn [bounds_chars].
  - intros [= <-]. apply box_sub_refl.
  - destruct (_DecodedBase32 c) as [i|]; [|discriminate].
    rewrite bounds_fold_bits. intros Hrun.
    destruct (bits_inv (bits_of i) a b st Hinv) as (a1 & b1 & H1 & _).
    eapply box_sub_trans; [exact (IH a1 b1 _ _ H1 Hrun) | exact (bits_sub _ a b st Hinv)].
Qed.

Lemma enc_chars_app lat lon : forall n m st,
  enc_chars (n + m) lat lon st =
    (r1 <- enc_chars n lat lon st ;;
     r2 <- enc_chars m lat lon (snd r1) ;;
     Ok (fst r1 ++ fst r2, snd r2)).
Proof.
  induction n as [|n IH]; intros m st; cbn [Nat.add enc_chars bind fst snd app].
  - destruct (enc_chars m lat lon st) as [[cs st']|err]; reflexivity.
  - cbv zeta. destruct (base32_at _) as [c|err]; cbn [bind]; [|reflexivity].
    rewrite IH.
    destruct (enc_chars n lat lon (snd (point_bits 5 lat lon st)))
      as [[cs1 st1]|err]; cbn [bind fst snd]; [|reflexivity].
    destruct (enc_chars m lat lon st1) as [[cs2 st2]|err]; reflexivity.
Qed.

Section NestingFacts.

Context {X : Collaborators}.

(** A longer geohash names a part of the cell of each of its
    prefixes: when the valid geohash [a] is a prefix of the valid geohash
    [b], the box of [bounds(b)] lies inside the box of [bounds(a)]. *)
Theorem bounds_of_prefix_contains a b :
  valid_geohash a -> valid_geohash b -> is_prefix_of a b = true ->
  exists ba bb,
    bounds (of_str a) = Ok ba /\ bounds (of_str b) = Ok bb /\
    (latS ba <= latS bb)%Q /\ (latN bb <= latN ba)%Q /\
    (lonW ba <= lonW bb)%Q /\ (lonE bb <= lonE ba)%Q.
Proof.
  intros Ha Hb Hpre.
  destruct (is_prefix_of_app a b Hpre) as [t ->].
  destruct (bounds_chars_bounds a Ha) as (da & ba & a1 & b1 & Hra & Hinv & _ & Hba & _).
  destruct (bounds_chars_bounds _ Hb) as (db & bb & a2 & b2 & Hrb & _ & _ & Hbb & _).
  rewrite bounds_chars_app, Hra in Hrb. cbn [bind] in Hrb.
  pose proof (bounds_chars_sub t a1 b1 _ _ Hinv Hrb) as Hsub.
  unfold box_sub, box_of in Hsub. cbn [snd] in Hsub.
  exists ba, bb. tauto.
Qed.

(** The geohash of a coordinate at a precision is a prefix of its
    geohash at every higher precision: [encode(lat, lon, p)] is the first
    [p] characters of [encode(lat, lon, q)] for [p <= q]. *)
Theorem encode_prefix lat lon p q :
  (-(90) <= lat <= 90)%Q -> (-(180) <= lon <= 180)%Q ->
  1 <= p -> p <= q -> q <= 12 ->
  exists gq,
    encode lat lon (Some q) = Ok gq /\
    encode lat lon (Some p) = Ok (firstn (Z.to_nat p) gq).
Proof.
  intros Hlat Hlon Hp Hpq Hq.
  assert (Hp' : 1 <= p <= 12) by lia. assert (Hq' : 1 <= q <= 12) by lia.
  destruct (encode_run lat lon p Hlat Hlon Hp') as (gp & sp & Hrp & Hep & _ & Hlp).
  destruct (encode_run lat lon q Hlat Hlon Hq') as (gq & sq & Hrq & Heq & _ & _).
  exists gq. split; [exact Heq|]. rewrite Hep. f_equal.
  replace (Z.to_nat q) with (Z.to_nat p + Z.to_nat (q - p))%nat in Hrq by lia.
  rewrite enc_chars_app, Hrp in Hrq. cbn [bind fst snd] in Hrq.
  destruct (enc_chars (Z.to_nat (q - p)) lat lon sp) as [[cs st']|err];
    cbn [bind fst snd] in Hrq; [|discriminate].
  injection Hrq as <- _.
  replace (Z.to_nat p) with (length gp + 0)%nat by lia.
  rewrite firstn_app_2. cbn [firstn]. rewrite app_nil_r. reflexivity.
Qed.

End NestingFacts.

(** ** decode_error *)

Lemma halfpow_lt n : forall m, (n < m)%nat -> (halfpow m < halfpow n)%Q.
Proof.
  intros m H. induction H as [|m _ IH].
  - simpl. pose proof (halfpow_pos n). lra.
  - simpl. pose proof (halfpow_pos m). lra.
Qed.

Lemma half_split a b n :
  (a + b = n -> a = b \/ a = S b -> b = n / 2 /\ a = (n + 1) / 2)%nat.
Proof.
  intros H [E|E]; subst a; split.
  - apply (Nat.div_unique n 2 b 0); lia.
  - apply (Nat.div_unique (n + 1) 2 b 1); lia.
  - apply (Nat.div_unique n 2 b 1); lia.
  - apply (Nat.div_unique (n + 1) 2 (S b) 0); lia.
Qed.

Lemma half_lt l1 l2 :
  (l1 < l2 -> 5 * l1 / 2 < 5 * l2 / 2 /\ (5 * l1 + 1) / 2 < (5 * l2 + 1) / 2)%nat.
Proof.
  intros H.
  pose proof (Nat.div_mod_eq (5 * l1) 2). pose proof (Nat.div_mod_eq (5 * l2) 2).
  pose proof (Nat.div_mod_eq (5 * l1 + 1) 2). pose proof (Nat.div_mod_eq (5 * l2 + 1) 2).
  pose proof (Nat.mod_upper_bound (5 * l1) 2). pose proof (Nat.mod_upper_bound (5 * l2) 2).
  pose proof (Nat.mod_upper_bound (5 * l1 + 1) 2).
  pose proof (Nat.mod_upper_bound (5 * l2 + 1) 2).
  lia.
Qed.

Section DecodeErrorFacts.

Context {X : Collaborators}.

Lemma decode_error_valid g :
  valid_geohash g ->
  exists bx eh ew,
    bounds (of_str g) = Ok bx /\ decode_error (of_str g) = Ok (eh, ew) /\
    (eh == 90 * halfpow (5 * length g / 2))%Q /\
    (ew == 180 * halfpow ((5 * length g + 1) / 2))%Q /\
    (latN bx - latS bx == 2 * eh)%Q /\ (lonE bx - lonW bx == 2 * ew)%Q.
Proof.
  intros Hg.
  destruct (bounds_valid g Hg) as (bx & a & b & Hb & Hab & Hd & Hew & Hns & _).
  exists bx, (Qred ((latN bx - latS bx) * (1 # 2))), (Qred ((lonE bx - lonW bx) * (1 # 2))).
  split; [exact Hb|].
  split.
  { unfold decode_error, _bounds3, _bounds3_of. fold bounds. rewrite Hb. reflexivity. }
  destruct (half_split a b _ Hab Hd) as [Eb Ea].
  rewrite !Qred_correct, <- Ea, <- Eb.
  repeat split; lra.
Qed.

(** For a valid geohash of length [L], [decode_error] returns half
    the height and half the width of its cell, 90 halved floor(5L/2) times
    and 180 halved ceil(5L/2) times, and the box of [bounds] is the center
    that [latlon] returns, plus and minus these errors. *)
Theorem decode_error_values g :
  valid_geohash g ->
  exists bx eh ew,
    bounds (of_str g) = Ok bx /\ decode_error (of_str g) = Ok (eh, ew) /\
    (eh == 90 * halfpow (5 * length g / 2))%Q /\
    (ew == 180 * halfpow ((5 * length g + 1) / 2))%Q /\
    (latS bx == fst (_2center bx) - eh)%Q /\ (latN bx == fst (_2center bx) + eh)%Q /\
    (lonW bx == snd (_2center bx) - ew)%Q /\ (lonE bx == snd (_2center bx) + ew)%Q.
Proof.
  intros Hg.
  destruct (decode_error_valid g Hg) as (bx & eh & ew & Hb & He & Hh & Hw & H1 & H2).
  exists bx, eh, ew. unfold _2center. cbn [fst snd].
  pose proof (favg_eq (latN bx) (latS bx)) as E1.
  pose proof (favg_eq (lonE bx) (lonW bx)) as E2.
  repeat split; try assumption; lra.
Qed.

(** The error of decoding shrinks as the geohash grows: of two valid
    geohashes, the longer one has the strictly smaller [decode_error] in
    latitude and in longitude. *)
Theorem decode_error_shrinks g1 g2 :
  valid_geohash g1 -> valid_geohash g2 -> (length g1 < length g2)%nat ->
  exists e1 e2,
    decode_error (of_str g1) = Ok e1 /\ decode_error (of_str g2) = Ok e2 /\
    (fst e2 < fst e1)%Q /\ (snd e2 < snd e1)%Q.
Proof.
  intros H1 H2 Hlen.
  destruct (decode_error_valid g1 H1) as (b1 & eh1 & ew1 & _ & He1 & Hh1 & Hw1 & _).
  destruct (decode_error_valid g2 H2) as (b2 & eh2 & ew2 & _ & He2 & Hh2 & Hw2 & _).
  exists (eh1, ew1), (eh2, ew2). cbn [fst snd].
  split; [exact He1|]. split; [exact He2|].
  destruct (half_lt _ _ Hlen) as [L1 L2].
  pose proof (halfpow_lt _ _ L1). pose proof (halfpow_lt _ _ L2).
  split; lra.
Qed.

End DecodeErrorFacts.

(** ** Concrete evaluations of the codec *)

Lemma encode_inside_bounds_witness :
  ((-(90) <= 52.205 <= 90)%Q /\ (-(180) <= 0.119 <= 180)%Q /\ 1 <= 7 <= 12) /\
  exists gh bx,
    encode (X := exact_floats) 52.205 0.119 (Some 7) = Ok gh /\
    Z.of_nat (length gh) = 7 /\
    bounds (X := exact_floats) (of_str gh) = Ok bx /\
    (latS bx <= 52.205 <= latN bx)%Q /\ (lonW bx <= 0.119 <= lonE bx)%Q /\
    ((52.205 < 90)%Q -> (52.205 < latN bx)%Q) /\
    ((0.119 < 180)%Q -> (0.119 < lonE bx)%Q).
Proof.
  assert (H1 : (-(90) <= 52.205 <= 90)%Q) by (split; vm_compute; discriminate).
  assert (H2 : (-(180) <= 0.119 <= 180)%Q) by (split; vm_compute; discriminate).
  assert (H3 : 1 <= 7 <= 12) by lia.
  split; [auto|].
  exact (encode_inside_bounds (X := exact_floats) 52.205 0.119 7 H1 H2 H3).
Defined.

Lemma encode_iff_in_cell_witness :
  valid_geohash (lit "u120fxw") /\
  ((-(90) <= 52.205 < 90)%Q /\ (-(180) <= 0.119 < 180)%Q) /\
  exists bx,
    bounds (X := exact_floats) (of_str (lit "u120fxw")) = Ok bx /\
    (encode (X := exact_floats) 52.205 0.119 (Some (Z.of_nat (length (lit "u120fxw"))))
       = Ok (lit "u120fxw") <->
     in_cell 52.205 0.119 (box_of bx)).
Proof.
  assert (Hg : valid_geohash (lit "u120fxw"))
    by (apply valid_by_2geostr; vm_compute; reflexivity).
  assert (H1 : (-(90) <= 52.205 < 90)%Q) by (split; vm_compute; congruence).
  assert (H2 : (-(180) <= 0.119 < 180)%Q) by (split; vm_compute; congruence).
  split; [exact Hg|]. split; [auto|].
  eexists. split; [vm_compute; reflexivity|].
  apply (encode_iff_in_cell (X := exact_floats) (lit "u120fxw") _ 52.205 0.119 Hg);
    [vm_compute; reflexivity | exact H1 | exact H2].
Defined.


Lemma cells_disjoint_witness :
  (valid_geohash (lit "u120fxw") /\ valid_geohash (lit "u120fxy") /\
   length (lit "u120fxw") = length (lit "u120fxy") /\
   lit "u120fxw" <> lit "u120fxy") /\
  exists b1 b2,
    bounds (X := exact_floats) (of_str (lit "u120fxw")) = Ok b1 /\
    bounds (X := exact_floats) (of_str (lit "u120fxy")) = Ok b2 /\
    forall lat lon, ~ (in_cell lat lon (box_of b1) /\ in_cell lat lon (box_of b2)).
Proof.
  assert (H1 : valid_geohash (lit "u120fxw"))
    by (apply valid_by_2geostr; vm_compute; reflexivity).
  assert (H2 : valid_geohash (lit "u120fxy"))
    by (apply valid_by_2geostr; vm_compute; reflexivity).
  assert (Hne : lit "u120fxw" <> lit "u120fxy") by (vm_compute; congruence).
  split; [split; [exact H1 | split; [exact H2 | split; [reflexivity | exact Hne]]]|].
  eexists. eexists.
  split; [vm_compute; reflexivity|]. split; [vm_compute; reflexivity|].
  apply (cells_disjoint (X := exact_floats) (lit "u120fxw") (lit "u120fxy") _ _
           H1 H2 eq_refl Hne); vm_compute; reflexivity.
Defined.

Lemma bounds_of_prefix_contains_witness :
  (valid_geohash (lit "u120") /\ valid_geohash (lit "u120fxw") /\
   is_prefix_of (lit "u120") (lit "u120fxw") = true) /\
  exists ba bb,
    bounds (X := exact_floats) (of_str (lit "u120")) = Ok ba /\
    bounds (X := exact_floats) (of_str (lit "u120fxw")) = Ok bb /\
    (latS ba <= latS bb)%Q /\ (latN bb <= latN ba)%Q /\
    (lonW ba <= lonW bb)%Q /\ (lonE bb <= lonE ba)%Q.
Proof.
  assert (H1 : valid_geohash (lit "u120"))
    by (apply valid_by_2geostr; vm_compute; reflexivity).
  assert (H2 : valid_geohash (lit "u120fxw"))
    by (apply valid_by_2geostr; vm_compute; reflexivity).
  split; [split; [exact H1 | split; [exact H2 | reflexivity]]|].
  exact (bounds_of_prefix_contains (X := exact_floats) (lit "u120") (lit "u120fxw")
           H1 H2 eq_refl).
Defined.

Lemma encode_prefix_witness :
  ((-(90) <= 52.205 <= 90)%Q /\ (-(180) <= 0.119 <= 180)%Q /\
   1 <= 4 /\ 4 <= 7 /\ 7 <= 12) /\
  exists gq,
    encode (X := exact_floats) 52.205 0.119 (Some 7) = Ok gq /\
    encode (X := exact_floats) 52.205 0.119 (Some 4) = Ok (firstn (Z.to_nat 4) gq).
Proof.
  assert (H1 : (-(90) <= 52.205 <= 90)%Q) by (split; vm_compute; discriminate).
  assert (H2 : (-(180) <= 0.119 <= 180)%Q) by (split; vm_compute; discriminate).
  split; [split; [exact H1 | split; [exact H2 | lia]]|].
  apply (encode_prefix (X := exact_floats) 52.205 0.119 4 7 H1 H2); lia.
Defined.

Lemma decode_error_values_witness :
  valid_geohash (lit "u120fxw") /\
  exists bx eh ew,
    bounds (X := exact_floats) (of_str (lit "u120fxw")) = Ok bx /\
    decode_error (X := exact_floats) (of_str (lit "u120fxw")) = Ok (eh, ew) /\
    (eh == 90 * halfpow (5 * length (lit "u120fxw") / 2))%Q /\
    (ew == 180 * halfpow ((5 * length (lit "u120fxw") + 1) / 2))%Q /\
    (latS bx == fst (_2center bx) - eh)%Q /\ (latN bx == fst (_2center bx) + eh)%Q /\
    (lonW bx == snd (_2center bx) - ew)%Q /\ (lonE bx == snd (_2center bx) + ew)%Q.
Proof.
  assert (Hg : valid_geohash (lit "u120fxw"))
    by (apply valid_by_2geostr; vm_compute; reflexivity).
  split; [exact Hg|].
  exact (decode_error_values (X := exact_floats) (lit "u120fxw") Hg).
Defined.

Lemma decode_error_shrinks_witness :
  (valid_geohash (lit "u120") /\ valid_geohash (lit "ezs42") /\
   (length (lit "u120") < length (lit "ezs42"))%nat) /\
  exists e1 e2,
    decode_error (X := exact_floats) (of_str (lit "u120")) = Ok e1 /\
    decode_error (X := exact_floats) (of_str (lit "ezs42")) = Ok e2 /\
    (fst e2 < fst e1)%Q /\ (snd e2 < snd e1)%Q.
Proof.
  assert (H1 : valid_geohash (lit "u120"))
    by (apply valid_by_2geostr; vm_compute; reflexivity).
  assert (H2 : valid_geohash (lit "ezs42"))
    by (apply valid_by_2geostr; vm_compute; reflexivity).
  assert (H3 : (length (lit "u120") < length (lit "ezs42"))%nat) by (simpl; lia).
  split; [split; [exact H1 | split; [exact H2 | exact H3]]|].
  exact (decode_error_shrinks (X := exact_floats) (lit "u120") (lit "ezs42") H1 H2 H3).
Defined.

(** ** decode2 and encode: the round trip *)

Lemma rounded_center_strictly_inside {X : Collaborators} lo hi n k :
  float_rounds X ->
  (-(180) <= lo)%Q -> (hi <= 180)%Q -> (n <= 30)%nat ->
  (180 * halfpow n <= hi - lo)%Q -> (10 < (hi - lo) * tenpow k)%Q ->
  (lo < float (fstr (favg hi lo) (Z.of_nat k)) < hi)%Q.
Proof.
  intros Hfloat Hlo Hhi Hn Hh Hk.
  pose proof (favg_eq hi lo) as Hc.
  pose proof (fstr_error (favg hi lo) k) as Hr.
  pose proof (tenpow_ge_1 k) as HT.
  assert (Ht : (0 < / tenpow k)%Q) by (apply Qinv_lt_0_compat; lra).
  assert (H10 : (10 * / tenpow k < hi - lo)%Q).
  { assert (E : ((hi - lo) * tenpow k * / tenpow k == hi - lo)%Q) by (field; lra).
    rewrite <- E. apply Qmult_lt_compat_r; assumption. }
  pose proof (halfpow_mono n 30 Hn) as H30.
  assert (E30 : (halfpow 30 == 1 # 1073741824)%Q) by (vm_compute; reflexivity).
  rewrite E30 in H30.
  set (t := (/ tenpow k)%Q) in *. set (c := favg hi lo) in *.
  set (r := fstr c (Z.of_nat k)) in *.
  apply Qabs_Qle_condition in Hr.
  assert (Hr180 : (Qabs r <= 180)%Q) by (apply Qabs_Qle_condition; lra).
  specialize (Hfloat r Hr180). apply Qabs_Qle_condition in Hfloat.
  lra.
Qed.

Section Decode2Facts.

Context {X : Collaborators}.

(** When [float] rounds as binary64 does, decoding a valid geohash with
    [decode2] and encoding the position at the length of the geohash gives
    the geohash back: the rounded position lies strictly inside the
    bounds. *)
Theorem decode2_encode_round_trip g :
  float_rounds X -> valid_geohash g ->
  exists bx lat lon,
    bounds (of_str g) = Ok bx /\ decode2 (of_str g) = Ok (lat, lon) /\
    (latS bx < lat < latN bx)%Q /\ (lonW bx < lon < lonE bx)%Q /\
    encode lat lon (Some (Z.of_nat (length g))) = Ok g.
Proof.
  intros Hfloat Hg.
  destruct (decode_valid g Hg)
    as (bx & na & nb & kh & kw & Hb & Hdec & Hna & Hnb & Hw & Hh & Hkh & Hkw &
        Hs & Hn & Hw' & He).
  pose proof (halfpow_pos na) as Pa.
  assert (Hlat : (latS bx < float (fstr (favg (latN bx) (latS bx)) (Z.of_nat kh))
                  < latN bx)%Q).
  { apply (rounded_center_strictly_inside _ _ nb kh Hfloat); try assumption; lra. }
  assert (Hlon : (lonW bx < float (fstr (favg (lonE bx) (lonW bx)) (Z.of_nat kw))
                  < lonE bx)%Q).
  { apply (rounded_center_strictly_inside _ _ na kw Hfloat); try assumption; lra. }
  exists bx. eexists. eexists.
  split; [exact Hb|]. split.
  { unfold decode2. rewrite Hdec. cbn [bind]. unfold map2. cbn [fst snd]. reflexivity. }
  split; [exact Hlat|]. split; [exact Hlon|].
  apply (cell_encodes g bx); [assumption | assumption |].
  unfold in_cell, box_of. repeat split; lra.
Qed.

End Decode2Facts.

Lemma decode2_encode_round_trip_witness :
  (float_rounds exact_floats /\ valid_geohash (lit "u120fxw")) /\
  exists bx lat lon,
    bounds (X := exact_floats) (of_str (lit "u120fxw")) = Ok bx /\
    decode2 (X := exact_floats) (of_str (lit "u120fxw")) = Ok (lat, lon) /\
    (latS bx < lat < latN bx)%Q /\ (lonW bx < lon < lonE bx)%Q /\
    encode (X := exact_floats) lat lon (Some (Z.of_nat (length (lit "u120fxw"))))
      = Ok (lit "u120fxw").
Proof.
  assert (Hg : valid_geohash (lit "u120fxw"))
    by (apply valid_by_2geostr; vm_compute; reflexivity).
  split; [split; [exact exact_floats_rounds | exact Hg]|].
  exact (decode2_encode_round_trip (X := exact_floats) (lit "u120fxw")
           exact_floats_rounds Hg).
Defined.

(** ** encode without a precision, and instances built from a coordinate *)

Section EncodeAny.

Context {X : Collaborators}.

Lemma encode_infer_result lat lon :
  (-(90) <= lat <= 90)%Q -> (-(180) <= lon <= 180)%Q ->
  forall ps, (forall p, In p ps -> 1 <= p <= 12) ->
  exists found, encode_infer _2Geohash lat lon ps = Ok found /\
    forall gh, found = Some gh ->
               exists p, In p ps /\ encode_fixed lat lon p = Ok gh.
Proof.
  intros Hlat Hlon. induction ps as [|p ps IH]; intros Hps.
  - exists None. split; [reflexivity | discriminate].
  - destruct (IH (fun q Hq => Hps q (or_intror Hq))) as (found & E & Hfound).
    destruct (encode_infer_step lat lon Hlat Hlon p ps (Hps p (or_introl eq_refl)))
      as (gh & Henc & _ & ->).
    destruct (round_trip_ok lat lon p).
    + exists (Some gh). split; [reflexivity|].
      intros gh' [= <-]. exists p. split; [now left | exact Henc].
    + exists found. split; [exact E|].
      intros gh' Hgh'. destruct (Hfound gh' Hgh') as (q & Hq & Eq).
      exists q. split; [now right | exact Eq].
Qed.

(** With or without a precision, [encode] returns what it returns at one
    of the precisions 1..12. *)
Lemma encode_any lat lon precision :
  (-(90) <= lat <= 90)%Q -> (-(180) <= lon <= 180)%Q -> precision_ok precision ->
  exists p, 1 <= p <= 12 /\ encode lat lon precision = encode lat lon (Some p).
Proof.
  intros Hlat Hlon Hp. destruct precision as [p|].
  - exists p. split; [exact Hp | reflexivity].
  - destruct (encode_infer_result lat lon Hlat Hlon (range 1 13)) as (found & E & Hf).
    { intros p Hin. apply In_range in Hin. lia. }
    destruct found as [gh|].
    + destruct (Hf gh eq_refl) as (p & Hin & Henc). apply In_range in Hin.
      exists p. split; [lia|]. rewrite encode_Some, Henc.
      unfold encode, encode_of. rewrite (_2fll_in_range lat lon Hlat Hlon).
      cbn [bind]. change (_MaxPrec + 1) with 13. rewrite E. reflexivity.
    + exists 12. split; [lia|]. rewrite encode_Some.
      unfold encode, encode_of, encode_fixed.
      rewrite (_2fll_in_range lat lon Hlat Hlon).
      cbn [bind fst snd]. change (_MaxPrec + 1) with 13. rewrite E. reflexivity.
Qed.

(** The instance that [Geohash] builds from a coordinate of the domain, at
    a precision in 1..12 or without one, is the string that [encode]
    returns; its [latlon] is the coordinate itself, not the center of the
    cell, and the coordinate lies in the [bounds] of the instance; with a
    precision given, the length of the instance is that precision. *)
Theorem latlon_of_coordinate lat lon precision :
  (-(90) <= lat <= 90)%Q -> (-(180) <= lon <= 180)%Q -> precision_ok precision ->
  exists self bx,
    Geohash_new (of_LatLon lat lon) precision = Ok self /\
    encode lat lon precision = Ok (gh_str self) /\
    valid_geohash (gh_str self) /\
    (forall p, precision = Some p -> Z.of_nat (length (gh_str self)) = p) /\
    latlon self = Ok (lat, lon) /\
    bounds (of_Geohash (gh_str self)) = Ok bx /\
    (latS bx <= lat <= latN bx)%Q /\ (lonW bx <= lon <= lonE bx)%Q.
Proof.
  intros Hlat Hlon Hp.
  destruct (encode_any lat lon precision Hlat Hlon Hp) as (p & Hp' & E).
  destruct (encode_run lat lon p Hlat Hlon Hp') as (gh & st' & Hrun & Henc & Hgh & Hlen).
  destruct (bounds_chars_bounds gh Hgh) as (d & bx & a & b & Hb & _ & _ & _ & Hbx).
  destruct (enc_chars_bounds_chars _ _ _ _ _ _ Hrun) as (Hb' & _ & _).
  rewrite Hb in Hb'. injection Hb' as <-.
  pose proof (enc_chars_inv _ _ _ _ _ _ Hrun (point_inv_globe lat lon Hlat Hlon)) as Hinv.
  unfold point_inv, in_box, box_of in Hinv. cbn [snd] in Hinv.
  exists (mkGeohash gh (Some (lat, lon))), bx. cbn [gh_str].
  split.
  { unfold Geohash_new. rewrite (_2fll_in_range lat lon Hlat Hlon).
    cbn [bind fst snd]. rewrite E, Henc. reflexivity. }
  split; [rewrite E; exact Henc|]. split; [exact Hgh|].
  split.
  { intros q ->. rewrite Henc in E.
    destruct (encode_run lat lon q Hlat Hlon Hp) as (gq & _ & _ & Hq & _ & Hlq).
    congruence. }
  split; [reflexivity|]. split; [exact Hbx | tauto].
Qed.

End EncodeAny.

Lemma latlon_of_coordinate_witness :
  ((-(90) <= 52.205 <= 90)%Q /\ (-(180) <= 0.1188 <= 180)%Q /\ precision_ok None) /\
  exists self bx,
    Geohash_new (X := exact_floats) (of_LatLon 52.205 0.1188) None = Ok self /\
    encode (X := exact_floats) 52.205 0.1188 None = Ok (gh_str self) /\
    valid_geohash (gh_str self) /\
    (forall p, None = Some p -> Z.of_nat (length (gh_str self)) = p) /\
    latlon (X := exact_floats) self = Ok (52.205, 0.1188)%Q /\
    bounds (X := exact_floats) (of_Geohash (gh_str self)) = Ok bx /\
    (latS bx <= 52.205 <= latN bx)%Q /\ (lonW bx <= 0.1188 <= lonE bx)%Q.
Proof.
  assert (H1 : (-(90) <= 52.205 <= 90)%Q) by (split; vm_compute; discriminate).
  assert (H2 : (-(180) <= 0.1188 <= 180)%Q) by (split; vm_compute; discriminate).
  split; [split; [exact H1 | split; [exact H2 | exact I]]|].
  exact (latlon_of_coordinate (X := exact_floats) 52.205 0.1188 None H1 H2 I).
Defined.

(** ** Strings given for geohashes: case and errors *)



Section StringArguments.

Context {X : Collaborators}.





End StringArguments.



(** ** distance1 is symmetric *)

Lemma common_prefix_len_sym a : forall b,
  common_prefix_len a b = common_prefix_len b a.
Proof.
  induction a as [|x a IH]; intros [|y b]; cbn [common_prefix_len]; try reflexivity.
  rewrite (Ascii.eqb_sym x y). destruct (Ascii.eqb y x); [f_equal; apply IH | reflexivity].
Qed.

Lemma distance1_index_sym a b : distance1_index a b = distance1_index b a.
Proof.
  unfold distance1_index. rewrite (common_prefix_len_sym a b), (Nat.min_comm (length a)).
  reflexivity.
Qed.

(** The estimate [distance1] does not depend on the order of its two
    arguments, and it is strictly positive: for valid geohashes [a] and
    [b], [distance1(a, b)] and [distance1(b, a)] return the same size. *)
Theorem distance1_symmetric {X : Collaborators} a b :
  valid_geohash a -> valid_geohash b ->
  exists v, distance1 (of_str a) (of_str b) = Ok v /\
            distance1 (of_str b) (of_str a) = Ok v /\ (0 < v)%Q.
Proof.
  intros Ha Hb.
  destruct (distance1_valid a b Ha Hb) as (t & Ht & E1).
  destruct (distance1_valid b a Hb Ha) as (t' & Ht' & E2).
  rewrite distance1_index_sym, Ht in Ht'. injection Ht' as <-.
  exists (snd t). split; [exact E1|]. split; [exact E2|].
  eapply sizes_positive. exact Ht.
Qed.

Lemma distance1_symmetric_witness :
  (valid_geohash (lit "u120fxw") /\ valid_geohash (lit "u12k")) /\
  exists v, distance1 (X := exact_floats) (of_str (lit "u120fxw")) (of_str (lit "u12k"))
              = Ok v /\
            distance1 (X := exact_floats) (of_str (lit "u12k")) (of_str (lit "u120fxw"))
              = Ok v /\ (0 < v)%Q.
Proof.
  assert (H1 : valid_geohash (lit "u120fxw"))
    by (apply valid_by_2geostr; vm_compute; reflexivity).
  assert (H2 : valid_geohash (lit "u12k"))
    by (apply valid_by_2geostr; vm_compute; reflexivity).
  split; [split; [exact H1 | exact H2]|].
  exact (distance1_symmetric (X := exact_floats) (lit "u120fxw") (lit "u12k") H1 H2).
Defined.

(** ** precision: what the scan returns *)

Lemma precision_loop_spec f t : forall ps,
  match precision_loop f t ps with
  | Some p => exists ps1 ps2, ps = ps1 ++ p :: ps2 /\
                tuple_le (resolution2 p (f p)) t = true /\
                forall q, In q ps1 -> tuple_le (resolution2 q (f q)) t = false
  | None => forall q, In q ps -> tuple_le (resolution2 q (f q)) t = false
  end.
Proof.
  induction ps as [|p ps IH]; cbn [precision_loop].
  - intros q [].
  - destruct (tuple_le (resolution2 p (f p)) t) eqn:E.
    + exists [], ps. split; [reflexivity|]. split; [exact E | intros q []].
    + destruct (precision_loop f t ps) as [p'|].
      * destruct IH as (ps1 & ps2 & -> & Hp & Hmin).
        exists (p :: ps1), ps2. split; [reflexivity|]. split; [exact Hp|].
        intros q [<-|Hq]; [exact E | apply Hmin; exact Hq].
      * intros q [<-|Hq]; [exact E | apply IH; exact Hq].
Qed.

Lemma range_prefix lo hi ps1 p ps2 :
  range lo hi = ps1 ++ p :: ps2 ->
  lo <= p < hi /\ forall q, lo <= q < p -> In q ps1.
Proof.
  intros E.
  assert (Hp : lo <= p < hi).
  { apply In_range. rewrite E. apply in_or_app. right. now left. }
  split; [exact Hp|].
  unfold range in E. revert E.
  generalize (Z.to_nat (hi - lo)). intros n. revert lo ps1 Hp.
  induction n as [|n IH]; intros lo ps1 Hp E q Hq.
  - destruct ps1; discriminate.
  - cbn [seq map] in E. destruct ps1 as [|x ps1].
    + cbn [app] in E. injection E as E _. lia.
    + cbn [app] in E. injection E as Ex E. subst x.
      destruct (Z.eq_dec q lo) as [->|Hne]; [left; lia|].
      right. rewrite <- seq_shift, map_map in E.
      apply (IH (lo + 1) ps1); [| |lia].
      * assert (Hin : In p (ps1 ++ p :: ps2)) by (apply in_or_app; right; now left).
        rewrite <- E in Hin. apply in_map_iff in Hin.
        destruct Hin as (k & <- & Hk). apply in_seq in Hk. lia.
      * rewrite <- E. apply map_ext. intros k. lia.
Qed.

Lemma resolution2_fst p prec2 : fst (resolution2 p prec2) = lon_res p.
Proof.
  unfold lon_res, resolution2. destruct (negb (p =? 0)); destruct prec2 as [q|];
    try reflexivity; cbn [fst]; destruct (negb (q =? 0)); reflexivity.
Qed.

Lemma resolution2_None p : p <> 0 -> resolution2 p None = (lon_res p, lon_res p).
Proof.
  intros Hp. unfold lon_res, resolution2.
  replace (negb (p =? 0)) with true
    by (symmetry; apply negb_true_iff; apply Z.eqb_neq; exact Hp).
  reflexivity.
Qed.

Lemma tuple_le_None p r :
  p <> 0 -> tuple_le (resolution2 p None) (r, r) = Qle_bool (lon_res p) r.
Proof.
  intros Hp. rewrite (resolution2_None p Hp). unfold tuple_le. cbn [fst snd].
  destruct (Qeq_bool (lon_res p) r); reflexivity.
Qed.

Lemma tuple_le_ne p r r2 :
  ~ (lon_res p == r)%Q ->
  tuple_le (resolution2 p (Some p)) (r, r2) = Qle_bool (lon_res p) r.
Proof.
  intros Hne. unfold tuple_le. cbn [fst snd]. rewrite resolution2_fst.
  destruct (Qeq_bool (lon_res p) r) eqn:E; [|reflexivity].
  apply Qeq_bool_iff in E. contradiction.
Qed.

(** With one resolution given, [precision] returns the least precision in
    1..11 whose longitude resolution is at most [res1], and 12 if there is
    none; a negative resolution is refused. *)
Theorem precision_least res1 :
  (0 <= res1)%Q ->
  exists p, precision res1 None = Ok p /\ 1 <= p <= 12 /\
    (p < 12 -> (lon_res p <= res1)%Q) /\
    (forall q, 1 <= q < p -> (res1 < lon_res q)%Q).
Proof.
  intros H0. unfold precision, Degrees_.
  replace (Qltb res1 0) with false by (symmetry; apply Qltb_ge; exact H0).
  cbn [bind]. change (range 1 _MaxPrec) with (range 1 12).
  pose proof (precision_loop_spec (fun _ => None) (res1, res1) (range 1 12)) as H.
  destruct (precision_loop (fun _ => None) (res1, res1) (range 1 12)) as [p|].
  - destruct H as (ps1 & ps2 & E & Hp & Hmin).
    destruct (range_prefix _ _ _ _ _ E) as [Hr Hin].
    exists p. split; [reflexivity|]. split; [lia|]. split.
    + intros _. rewrite tuple_le_None in Hp by lia. apply Qle_bool_iff. exact Hp.
    + intros q Hq. specialize (Hmin q (Hin q Hq)).
      rewrite tuple_le_None in Hmin by lia.
      apply Qnot_le_lt. intros Hle. apply Qle_bool_iff in Hle. congruence.
  - exists 12. unfold _MaxPrec. split; [reflexivity|]. split; [lia|]. split; [lia|].
    intros q Hq. specialize (H q (proj2 (In_range 1 12 q) Hq)).
    rewrite tuple_le_None in H by lia.
    apply Qnot_le_lt. intros Hle. apply Qle_bool_iff in Hle. congruence.
Qed.

(** The second resolution counts only at a tie: [precision] compares the
    pairs of resolutions as Python compares tuples, first component first,
    so unless [res1] is exactly the longitude resolution of one of the
    precisions 1..11, [precision(res1, res2)] returns [precision(res1)]
    whatever [res2] is. *)
Theorem precision_second_resolution_ignored res1 res2 :
  (0 <= res1)%Q -> (0 <= res2)%Q ->
  (forall p, 1 <= p <= 11 -> ~ (lon_res p == res1)%Q) ->
  precision res1 (Some res2) = precision res1 None.
Proof.
  intros H1 H2 Hne. unfold precision, Degrees_.
  replace (Qltb res1 0) with false by (symmetry; apply Qltb_ge; exact H1).
  replace (Qltb res2 0) with false by (symmetry; apply Qltb_ge; exact H2).
  cbn [bind]. change (range 1 _MaxPrec) with (range 1 12).
  assert (E : forall ps, (forall p, In p ps -> 1 <= p <= 11) ->
            precision_loop (fun p => Some p) (res1, res2) ps =
            precision_loop (fun _ => None) (res1, res1) ps).
  { induction ps as [|p ps IH]; intros Hps; [reflexivity|].
    cbn [precision_loop].
    assert (Hp : 1 <= p <= 11) by (apply Hps; now left).
    rewrite (tuple_le_ne p res1 res2 (Hne p Hp)), tuple_le_None by lia.
    rewrite IH by (intros q Hq; apply Hps; now right). reflexivity. }
  rewrite E; [reflexivity|].
  intros p Hp. apply In_range in Hp. lia.
Qed.

Lemma precision_least_witness :
  (0 <= 1 # 100)%Q /\
  exists p, precision (1 # 100) None = Ok p /\ 1 <= p <= 12 /\
    (p < 12 -> (lon_res p <= 1 # 100)%Q) /\
    (forall q, 1 <= q < p -> ((1 # 100) < lon_res q)%Q).
Proof.
  assert (H0 : (0 <= 1 # 100)%Q) by (vm_compute; discriminate).
  split; [exact H0|].
  exact (precision_least (1 # 100) H0).
Defined.

Lemma precision_second_resolution_ignored_witness :
  ((0 <= 100)%Q /\ (0 <= 1 # 1000)%Q /\
   forall p, 1 <= p <= 11 -> ~ (lon_res p == 100)%Q) /\
  precision 100 (Some (1 # 1000)) = precision 100 None.
Proof.
  assert (H1 : (0 <= 100)%Q) by (vm_compute; discriminate).
  assert (H2 : (0 <= 1 # 1000)%Q) by (vm_compute; discriminate).
  assert (H3 : forall p, 1 <= p <= 11 -> ~ (lon_res p == 100)%Q).
  { intros p Hp.
    assert (C : p = 1 \/ p = 2 \/ p = 3 \/ p = 4 \/ p = 5 \/ p = 6 \/
                p = 7 \/ p = 8 \/ p = 9 \/ p = 10 \/ p = 11) by lia.
    repeat (destruct C as [C|C]; [subst p; vm_compute; discriminate|]).
    subst p; vm_compute; discriminate. }
  split; [split; [exact H1 | split; [exact H2 | exact H3]]|].
  exact (precision_second_resolution_ignored 100 (1 # 1000) H1 H2 H3).
Defined.

(** ** Cells as columns and rows *)

Lemma geo_check_all d e :
  In d cardinal -> e = 0 \/ e = 1 -> forallb (geo_check d e) _GeohashBase32 = true.
Proof.
  unfold cardinal. simpl.
  intros [<-|[<-|[<-|[<-|[]]]]] [-> | ->]; vm_compute; reflexivity.
Qed.

Lemma pow2_succ n : 2 ^ Z.of_nat (S n) = 2 * 2 ^ Z.of_nat n.
Proof. rewrite Nat2Z.inj_succ, Z.pow_succ_r by lia. reflexivity. Qed.

Lemma pow2_pos n : 0 < 2 ^ Z.of_nat n.
Proof. apply Z.pow_pos_nonneg; lia. Qed.

(** One bisection keeps the box and the column and row in step. *)
Lemma joint_step a b st q beta :
  joint_inv a b st q ->
  exists a' b', joint_inv a' b' (bit_step st beta) (xy_step q beta) /\
                (a' + b' = S (a + b))%nat.
Proof.
  destruct st as [d [[[s w] n] e]], q as [d' [x y]].
  unfold joint_inv, box_inv, bit_step, xy_step. cbn [fst snd].
  intros ((Hd & Hew & Hns & Hs & Hn & Hw & He) & -> & Hx & Hy & Ex & Ey).
  pose proof (halfpow_pos a) as Ha. pose proof (halfpow_pos b) as Hb.
  pose proof (favg_eq w e) as Hm1. pose proof (favg_eq s n) as Hm2.
  pose proof (pow2_succ a) as Pa. pose proof (pow2_succ b) as Pb.
  destruct Hd as [[-> ->]|[-> ->]]; destruct beta; cbn [negb].
  - exists (S b), b. split; [|lia]. rewrite Pa. simpl halfpow.
    rewrite !inject_Z_plus. change (inject_Z 1) with 1%Q.
    repeat split; try lia; try lra.
  - exists (S b), b. split; [|lia]. rewrite Pa. simpl halfpow.
    rewrite !inject_Z_plus. change (inject_Z 0) with 0%Q.
    repeat split; try lia; try lra.
  - exists (S b), (S b). split; [|lia]. rewrite Pb. simpl halfpow in *.
    rewrite !inject_Z_plus. change (inject_Z 1) with 1%Q.
    repeat split; try lia; try lra.
  - exists (S b), (S b). split; [|lia]. rewrite Pb. simpl halfpow in *.
    rewrite !inject_Z_plus. change (inject_Z 0) with 0%Q.
    repeat split; try lia; try lra.
Qed.

Lemma joint_bits : forall bits a b st q,
  joint_inv a b st q ->
  exists a' b', joint_inv a' b' (fold_left bit_step bits st) (fold_left xy_step bits q) /\
                (a' + b' = a + b + length bits)%nat.
Proof.
  induction bits as [|beta bits IH]; intros a b st q H; cbn [fold_left length].
  - exists a, b. split; [exact H | lia].
  - destruct (joint_step a b st q beta H) as (a1 & b1 & H1 & E1).
    destruct (IH a1 b1 _ _ H1) as (a2 & b2 & H2 & E2).
    exists a2, b2. split; [exact H2 | lia].
Qed.

Lemma joint_chars : forall cs a b st q,
  Forall (fun c => In c _GeohashBase32) cs -> joint_inv a b st q ->
  exists st' a' b', bounds_chars cs st = Ok st' /\
                    joint_inv a' b' st' (xy_chars cs q) /\
                    (a' + b' = a + b + 5 * length cs)%nat.
Proof.
  induction cs as [|c cs IH]; intros a b st q Hall Hinv.
  - exists st, a, b. cbn [bounds_chars xy_chars length].
    split; [reflexivity | split; [exact Hinv | lia]].
  - inversion Hall as [|c' cs' Hc Hcs]; subst.
    cbn [bounds_chars xy_chars]. apply in_alphabet_In in Hc. unfold in_alphabet in Hc.
    destruct (_DecodedBase32 c) as [i|]; [|discriminate].
    rewrite bounds_fold_bits.
    destruct (joint_bits (bits_of i) a b st q Hinv) as (a1 & b1 & H1 & E1).
    change (length (bits_of i)) with 5%nat in E1.
    destruct (IH _ _ _ _ Hcs H1) as (st' & a' & b' & Hrun & Hinv' & E').
    exists st', a', b'. split; [exact Hrun | split; [exact Hinv' | cbn [length]; lia]].
Qed.

Lemma joint_globe : joint_inv 0 0 (true, _Bounds4) (true, (0, 0)).
Proof.
  unfold joint_inv. split; [exact box_inv_globe|]. split; [reflexivity|].
  unfold _Bounds4. cbn. repeat split; try lia; reflexivity.
Qed.

(** The state that the characters of a string lead to: the axis of the
    next bisection, and the column and row with their bounds. *)
Lemma xy_chars_state g :
  Forall (fun c => In c _GeohashBase32) g ->
  exists d x y a b,
    xy_chars g (true, (0, 0)) = (d, (x, y)) /\
    (a + b = 5 * length g)%nat /\
    ((d = true /\ a = b) \/ (d = false /\ a = S b)) /\
    0 <= x < 2 ^ Z.of_nat a /\ 0 <= y < 2 ^ Z.of_nat b.
Proof.
  intros Hall.
  destruct (joint_chars g 0 0 _ _ Hall joint_globe) as (st' & a & b & _ & Hinv & E).
  destruct (xy_chars g (true, (0, 0))) as [d [x y]].
  destruct st' as [d' [[[s w] n] e]].
  unfold joint_inv, box_inv in Hinv. cbn [fst snd] in Hinv.
  destruct Hinv as ((Hd & _) & -> & Hx & Hy & _).
  exists d', x, y, a, b. repeat split; try tauto; lia.
Qed.

Section CellGeometry.

Context {X : Collaborators}.

(** The box of a valid geohash of length [L] is the cell in column [x] and
    row [y] of the grid that divides the longitude range into [2^a] columns
    and the latitude range into [2^b] rows, where [a = ceil(5L/2)],
    [b = floor(5L/2)] and [(x, y)] is read off the bits of the
    characters. *)
Theorem bounds_of_cell_xy g :
  valid_geohash g ->
  exists bx,
    bounds (of_str g) = Ok bx /\
    let a := lon_bits (length g) in
    let b := lat_bits (length g) in
    let '(x, y) := cell_xy g in
    0 <= x < 2 ^ Z.of_nat a /\ 0 <= y < 2 ^ Z.of_nat b /\
    (lonW bx == -(180) + inject_Z x * (360 * halfpow a))%Q /\
    (lonE bx == -(180) + inject_Z (x + 1) * (360 * halfpow a))%Q /\
    (latS bx == -(90) + inject_Z y * (180 * halfpow b))%Q /\
    (latN bx == -(90) + inject_Z (y + 1) * (180 * halfpow b))%Q.
Proof.
  intros Hg. pose proof Hg as [Hlen Hall].
  destruct (joint_chars g 0 0 _ _ Hall joint_globe) as (st' & a & b & Hrun & Hinv & E).
  destruct (bounds_chars_bounds g Hg) as (d & bx & a' & b' & Hrun' & _ & _ & Hb & _).
  rewrite Hrun in Hrun'. injection Hrun' as ->.
  exists bx. split; [exact Hb|]. cbv zeta. unfold cell_xy.
  destruct (xy_chars g (true, (0, 0))) as [d' [x y]]. cbn [snd].
  unfold joint_inv, box_inv, box_of in Hinv. cbn [fst snd] in Hinv.
  destruct Hinv as ((Hd & Hew & Hns & _) & _ & Hx & Hy & Ex & Ey).
  assert (Hab : a = b \/ a = S b) by (destruct Hd as [[_ ->]|[_ ->]]; auto).
  destruct (half_split a b (5 * length g)) as [Eb Ea]; [lia | exact Hab |].
  unfold lon_bits, lat_bits. rewrite <- Ea, <- Eb.
  rewrite !inject_Z_plus. change (inject_Z 1) with 1%Q.
  repeat split; try lia; lra.
Qed.

End CellGeometry.

(** ** Adjacent cells, by column and row *)

Lemma xy_chars_app : forall p t q, xy_chars (p ++ t) q = xy_chars t (xy_chars p q).
Proof.
  induction p as [|c p IH]; intros t q; cbn [app xy_chars]; [reflexivity|].
  destruct (_DecodedBase32 c); apply IH.
Qed.

(** The five bits of a symbol extend the column and the row of the parent
    cell by the column and the row of the symbol inside it. *)
Lemma xy_char i d x y :
  fold_left xy_step (bits_of i) (d, (x, y)) =
    (negb d, (char_cols d * x + fst (char_xy d i),
              char_rows d * y + snd (char_xy d i))).
Proof.
  unfold char_xy, bits_of. cbn [map fold_left].
  destruct (negb (Z.land i 16 =? 0)), (negb (Z.land i 8 =? 0)),
    (negb (Z.land i 4 =? 0)), (negb (Z.land i 2 =? 0)), (negb (Z.land i 1 =? 0)),
    d; cbn [xy_step negb fst snd char_cols char_rows]; f_equal; f_equal; lia.
Qed.

Lemma land1_mod n : Z.land (Z.of_nat n) 1 = Z.of_nat n mod 2.
Proof. change 1 with (Z.ones 1). rewrite Z.land_ones by lia. reflexivity. Qed.

(** The parity that [adjacent] selects its tables by tells the axis of
    the first bit of the last character. *)
Lemma parity_axis L a b (d : bool) :
  (a + b = 5 * L)%nat -> (d = true /\ a = b) \/ (d = false /\ a = S b) ->
  (Z.land (Z.of_nat (S L)) 1 =? 1) = d.
Proof.
  intros Hsum Hd. rewrite land1_mod.
  pose proof (Z.div_mod (Z.of_nat (S L)) 2 ltac:(lia)) as E.
  pose proof (Z.mod_pos_bound (Z.of_nat (S L)) 2 ltac:(lia)) as B.
  destruct Hd as [[-> ->]|[-> ->]].
  - apply Z.eqb_eq. lia.
  - apply Z.eqb_neq. lia.
Qed.

Lemma carry h M q r :
  0 < h -> 0 < M ->
  (h * q + r) mod (h * M) = h * ((q + r / h) mod M) + r mod h.
Proof.
  intros Hh HM. rewrite Z.rem_mul_r by lia.
  replace (h * q + r) with (r + q * h) by ring.
  rewrite Z_mod_plus_full, Z_div_plus_full by lia.
  rewrite (Z.add_comm (r / h) q). ring.
Qed.

Section AdjacentGeometry.

Context {X : Collaborators}.

(** One call of [adjacent] on a valid geohash: the parent is kept, or
    replaced by its own adjacent cell when the border table says so, and
    the last character is replaced. *)
Lemma adjacent_snoc p c d ch b :
  valid_geohash (p ++ [c]) -> In d cardinal ->
  step_char d (Z.land (Z.of_nat (length (p ++ [c]))) 1) c = Some (ch, b) ->
  In ch _GeohashBase32 ->
  exists p',
    ((p = [] /\ p' = []) \/ (p <> [] /\ b = false /\ p' = p) \/
     (p <> [] /\ b = true /\ adjacent p d = Ok p')) /\
    adjacent (p ++ [c]) d = Ok (p' ++ [ch]).
Proof.
  intros Hg Hd Hstep Hch.
  destruct (valid_snoc p c Hg) as (Hc & Hlen & Hp).
  pose proof (cardinal_upper d Hd) as Hup.
  pose proof (adjacent_fuel_step (length (p ++ [c])) p c d ch b Hup Hstep) as E.
  fold (adjacent (p ++ [c]) d) in E.
  destruct p as [|a0 p0].
  - exists []. split; [left; auto|]. rewrite E. cbn [bind].
    apply Geohash_valid. apply (valid_snoc_intro [] ch); simpl; auto; lia.
  - assert (Hvp : valid_geohash (a0 :: p0)) by (apply Hp; discriminate).
    destruct b.
    + assert (Hd' : In (upper (first1 d)) cardinal) by (rewrite Hup; exact Hd).
      destruct (adjacent_Ok (a0 :: p0) d Hvp Hd') as (r & Hr & Hrlen & Hrun).
      exists r. split.
      * right. right. split; [discriminate|]. split; [reflexivity|].
        unfold adjacent. apply Hrun. lia.
      * rewrite E, (Geohash_valid _ Hvp). cbn [bind].
        rewrite Hrun by (rewrite length_app; simpl; lia). cbn [bind].
        apply Geohash_valid. apply valid_snoc_intro; auto. rewrite Hrlen. exact Hlen.
    + exists (a0 :: p0). split.
      * right. left. split; [discriminate|]. auto.
      * rewrite E. cbn [bind]. apply Geohash_valid. apply valid_snoc_intro; auto.
Qed.

Lemma geo_check_sound d e c :
  In d cardinal -> e = 0 \/ e = 1 -> In c _GeohashBase32 ->
  exists i ch b j,
    _DecodedBase32 c = Some i /\ step_char d e c = Some (ch, b) /\
    _DecodedBase32 ch = Some j /\
    let lonfirst := e =? 1 in
    let hx := char_cols lonfirst in
    let hy := char_rows lonfirst in
    let cx := fst (char_xy lonfirst i) in
    let cy := snd (char_xy lonfirst i) in
    let dx := fst (delta d) in
    let dy := snd (delta d) in
    0 <= cx < hx /\ 0 <= cy < hy /\
    char_xy lonfirst j = ((cx + dx) mod hx, (cy + dy) mod hy) /\
    (cx + dx) / hx = (if b then dx else 0) /\
    (cy + dy) / hy = (if b then dy else 0).
Proof.
  intros Hd He Hc.
  pose proof (alphabet_forall _ (geo_check_all d e Hd He) c Hc) as H.
  unfold geo_check in H.
  destruct (_DecodedBase32 c) as [i|] eqn:Ei; [|discriminate].
  destruct (step_char d e c) as [[ch b]|] eqn:Es; [|discriminate].
  destruct (_DecodedBase32 ch) as [j|] eqn:Ej; [|discriminate].
  exists i, ch, b, j. split; [reflexivity|]. split; [reflexivity|].
  split; [exact Ej|]. cbv zeta.
  destruct (char_xy (e =? 1) i) as [cx cy], (delta d) as [dx dy],
    (char_xy (e =? 1) j) as [cx' cy']. cbn [fst snd].
  repeat (apply andb_true_iff in H; destruct H as [H ?]).
  repeat match goal with
         | K : (_ <=? _) = true |- _ => apply Z.leb_le in K
         | K : (_ <? _) = true |- _ => apply Z.ltb_lt in K
         | K : (_ =? _) = true |- _ => apply Z.eqb_eq in K
         end.
  repeat split; try assumption. congruence.
Qed.

(** The column and row of the adjacent cell. *)
Lemma adjacent_xy g :
  valid_geohash g -> forall d, In d cardinal ->
  exists r dd x y a b,
    adjacent g d = Ok r /\ valid_geohash r /\ length r = length g /\
    xy_chars g (true, (0, 0)) = (dd, (x, y)) /\
    (a + b = 5 * length g)%nat /\ (a = b \/ a = S b) /\
    cell_xy r = ((x + fst (delta d)) mod 2 ^ Z.of_nat a,
                 (y + snd (delta d)) mod 2 ^ Z.of_nat b).
Proof.
  induction g as [|c p IH] using rev_ind; intros Hg d Hd.
  - destruct Hg as [Hlen _]. simpl in Hlen. lia.
  - destruct (valid_snoc p c Hg) as (Hc & Hlen & Hp).
    assert (Hall : Forall (fun c => In c _GeohashBase32) p).
    { destruct Hg as [_ H]. apply Forall_app in H. apply H. }
    destruct (xy_chars_state p Hall) as (dp & xp & yp & ap & bp & Ep & Hsum & Hdp & Hxp & Hyp).
    pose proof (parity_axis (length p) ap bp dp Hsum Hdp) as Hpar.
    replace (S (length p)) with (length (p ++ [c])) in Hpar
      by (rewrite length_app; simpl; lia).
    destruct (geo_check_sound d _ c Hd (parity_cases (length (p ++ [c]))) Hc)
      as (i & ch & b & j & Ei & Hstep & Ej & Hgeo).
    rewrite Hpar in Hgeo. cbv zeta in Hgeo.
    destruct Hgeo as (Hcx & Hcy & Hj & Kx & Ky).
    assert (Hch : In ch _GeohashBase32) by (eapply index_of_In; exact Ej).
    destruct (adjacent_snoc p c d ch b Hg Hd Hstep Hch) as (p' & Hp' & Hadj).
    set (hx := char_cols dp) in *. set (hy := char_rows dp) in *.
    set (cx := fst (char_xy dp i)) in *. set (cy := snd (char_xy dp i)) in *.
    set (dx := fst (delta d)) in *. set (dy := snd (delta d)) in *.
    pose proof (pow2_pos ap) as Pap. pose proof (pow2_pos bp) as Pbp.
    (* the parent of the result *)
    assert (Hpar' : (p' = [] \/ valid_geohash p') /\ length p' = length p /\
                    cell_xy p' = ((xp + (cx + dx) / hx) mod 2 ^ Z.of_nat ap,
                                  (yp + (cy + dy) / hy) mod 2 ^ Z.of_nat bp)).
    { destruct Hp' as [[-> ->]|[(Hne & -> & ->)|(Hne & -> & Hadjp)]].
      - split; [left; reflexivity|]. split; [reflexivity|].
        cbn in Ep. injection Ep as <- <- <-. cbn in Hsum.
        assert (ap = 0%nat) by lia. assert (bp = 0%nat) by lia. subst ap bp.
        cbn. rewrite !Z.mod_1_r. reflexivity.
      - split; [right; apply Hp; exact Hne|]. split; [reflexivity|].
        unfold cell_xy. rewrite Ep. cbn [snd]. rewrite Kx, Ky, !Z.add_0_r.
        rewrite !Z.mod_small by lia. reflexivity.
      - destruct (IH (Hp Hne) d Hd)
          as (r0 & d0 & x0 & y0 & a0 & b0 & Hr0 & Hv0 & Hl0 & E0 & Hs0 & Hab0 & Hxy0).
        rewrite Hadjp in Hr0. injection Hr0 as <-.
        rewrite Ep in E0. injection E0 as <- <- <-.
        assert (a0 = ap /\ b0 = bp) as [-> ->]
          by (destruct Hdp as [[_ ->]|[_ ->]]; destruct Hab0 as [->| ->]; lia).
        split; [right; exact Hv0|]. split; [exact Hl0|].
        rewrite Hxy0, Kx, Ky. reflexivity. }
    destruct Hpar' as (Hv' & Hl' & Hxy').
    assert (Hall' : Forall (fun c => In c _GeohashBase32) p').
    { destruct Hv' as [->|[_ H]]; [apply Forall_nil | exact H]. }
    destruct (xy_chars_state p' Hall')
      as (dp' & xp' & yp' & ap' & bp' & Ep' & Hsum' & Hdp' & _).
    assert (dp' = dp).
    { rewrite Hl' in Hsum'.
      destruct Hdp as [[-> ?]|[-> ?]]; destruct Hdp' as [[-> ?]|[-> ?]];
        try reflexivity; lia. }
    subst dp'. unfold cell_xy in Hxy'. rewrite Ep' in Hxy'. cbn [snd] in Hxy'.
    injection Hxy' as -> ->.
    exists (p' ++ [ch]), (negb dp), (hx * xp + cx), (hy * yp + cy),
      (if dp then ap + 3 else ap + 2)%nat, (if dp then bp + 2 else bp + 3)%nat.
    split; [exact Hadj|].
    split; [apply valid_snoc_intro; try assumption; rewrite Hl'; exact Hlen|].
    split; [rewrite !length_app, Hl'; reflexivity|].
    split.
    { rewrite xy_chars_app, Ep. cbn [xy_chars]. rewrite Ei. cbn [xy_chars].
      apply xy_char. }
    split.
    { rewrite length_app. cbn [length].
      destruct Hdp as [[-> ->]|[-> ->]]; lia. }
    split.
    { destruct Hdp as [[-> ->]|[-> ->]]; [right | left]; lia. }
    unfold cell_xy. rewrite xy_chars_app, Ep'. cbn [xy_chars]. rewrite Ej.
    cbn [xy_chars]. rewrite xy_char. cbn [snd]. rewrite Hj. cbn [fst snd].
    fold hx hy.
    assert (Ea : 2 ^ Z.of_nat (if dp then ap + 3 else ap + 2)%nat = hx * 2 ^ Z.of_nat ap).
    { unfold hx, char_cols. destruct dp; rewrite Nat2Z.inj_add, Z.pow_add_r by lia;
        change (2 ^ Z.of_nat 3) with 8; change (2 ^ Z.of_nat 2) with 4; lia. }
    assert (Eb : 2 ^ Z.of_nat (if dp then bp + 2 else bp + 3)%nat = hy * 2 ^ Z.of_nat bp).
    { unfold hy, char_rows. destruct dp; rewrite Nat2Z.inj_add, Z.pow_add_r by lia;
        change (2 ^ Z.of_nat 3) with 8; change (2 ^ Z.of_nat 2) with 4; lia. }
    rewrite Ea, Eb.
    assert (Hhx : 0 < hx) by (unfold hx, char_cols; destruct dp; lia).
    assert (Hhy : 0 < hy) by (unfold hy, char_rows; destruct dp; lia).
    replace (hx * xp + cx + dx) with (hx * xp + (cx + dx)) by ring.
    replace (hy * yp + cy + dy) with (hy * yp + (cy + dy)) by ring.
    rewrite (carry hx _ xp (cx + dx) Hhx Pap), (carry hy _ yp (cy + dy) Hhy Pbp).
    reflexivity.
Qed.

End AdjacentGeometry.

Lemma pow2_halfpow a : (inject_Z (2 ^ Z.of_nat a) * halfpow a == 1)%Q.
Proof.
  induction a as [|a IH].
  - reflexivity.
  - rewrite pow2_succ, inject_Z_mult. simpl halfpow.
    change (inject_Z 2) with 2%Q.
    setoid_replace (2 * inject_Z (2 ^ Z.of_nat a) * ((1 # 2) * halfpow a))%Q
      with (inject_Z (2 ^ Z.of_nat a) * halfpow a)%Q by ring.
    exact IH.
Qed.

Lemma mod_steps M x k :
  0 <= x < M -> k = 0 \/ k = 1 \/ k = -1 ->
  (k = 0 /\ (x + k) mod M = x) \/
  (k = 1 /\ x + 1 < M /\ (x + k) mod M = x + 1) \/
  (k = 1 /\ x + 1 = M /\ (x + k) mod M = 0) \/
  (k = -1 /\ 0 < x /\ (x + k) mod M = x - 1) \/
  (k = -1 /\ x = 0 /\ (x + k) mod M = M - 1).
Proof.
  intros Hx [->|[->| ->]].
  - left. rewrite Z.add_0_r, Z.mod_small by lia. auto.
  - destruct (Z.eq_dec (x + 1) M) as [E|E].
    + right. right. left. rewrite E, Z_mod_same_full. auto.
    + right. left. rewrite Z.mod_small by lia. repeat split; lia.
  - destruct (Z.eq_dec x 0) as [->|E].
    + right. right. right. right. split; [reflexivity|]. split; [reflexivity|].
      symmetry. apply (Z.mod_unique _ _ (-1)); lia.
    + right. right. right. left. rewrite Z.mod_small by lia. repeat split; lia.
Qed.

(** A step on the grid, read on the box. *)
Lemma axis_moved_grid k g0 W a x lo hi lo' hi' :
  (0 < W)%Q -> 0 <= x < 2 ^ Z.of_nat a -> k = 0 \/ k = 1 \/ k = -1 ->
  (lo == g0 + inject_Z x * (W * halfpow a))%Q ->
  (hi == g0 + inject_Z (x + 1) * (W * halfpow a))%Q ->
  (lo' == g0 + inject_Z ((x + k) mod 2 ^ Z.of_nat a) * (W * halfpow a))%Q ->
  (hi' == g0 + inject_Z ((x + k) mod 2 ^ Z.of_nat a + 1) * (W * halfpow a))%Q ->
  axis_moved k g0 (g0 + W) lo hi lo' hi'.
Proof.
  intros HW Hx Hk Elo Ehi Elo' Ehi'.
  pose proof (pow2_halfpow a) as EM. pose proof (halfpow_pos a) as Hh.
  set (M := 2 ^ Z.of_nat a) in *. set (u := (W * halfpow a)%Q) in *.
  assert (Hu : (0 < u)%Q) by (unfold u; apply Qmult_lt_0_compat; assumption).
  assert (EW : (inject_Z M * u == W)%Q).
  { unfold u. setoid_replace (inject_Z M * (W * halfpow a))%Q
      with (W * (inject_Z M * halfpow a))%Q by ring. rewrite EM. ring. }
  rewrite inject_Z_plus in Ehi, Ehi'. change (inject_Z 1) with 1%Q in Ehi, Ehi'.
  assert (Hlt : forall z, z < M -> (inject_Z z * u <= W - u)%Q).
  { intros z Hz. assert (Hz' : (inject_Z z <= inject_Z M - 1)%Q).
    { setoid_replace (inject_Z M - 1)%Q with (inject_Z (M - 1)).
      - rewrite <- Zle_Qle. lia.
      - unfold Z.sub. rewrite inject_Z_plus. reflexivity. }
    apply (Qmult_le_compat_r _ _ u) in Hz'; [|lra]. lra. }
  assert (Hge : forall z, 0 <= z -> (0 <= inject_Z z * u)%Q).
  { intros z Hz. apply Qmult_le_0_compat; [|lra].
    change 0%Q with (inject_Z 0). rewrite <- Zle_Qle. exact Hz. }
  unfold axis_moved.
  destruct (mod_steps M x k Hx Hk)
    as [(-> & E)|[(-> & Hc & E)|[(-> & Hc & E)|[(-> & Hc & E)|(-> & Hc & E)]]]];
    rewrite E in Elo', Ehi'.
  - repeat split; try lia; lra.
  - rewrite inject_Z_plus in Elo', Ehi'. change (inject_Z 1) with 1%Q in Elo', Ehi'.
    pose proof (Hlt (x + 1) Hc) as B. rewrite inject_Z_plus in B.
    change (inject_Z 1) with 1%Q in B.
    repeat split; try lia; lra.
  - assert (Ex : (inject_Z x == inject_Z M - 1)%Q).
    { replace x with (M - 1) by lia. unfold Z.sub. rewrite inject_Z_plus. reflexivity. }
    change (inject_Z 0) with 0%Q in Elo', Ehi'. rewrite Ex in Elo, Ehi.
    repeat split; try lia; lra.
  - assert (Ex : (inject_Z (x - 1) == inject_Z x - 1)%Q).
    { unfold Z.sub. rewrite inject_Z_plus. reflexivity. }
    rewrite Ex in Elo', Ehi'.
    pose proof (Hge (x - 1) ltac:(lia)) as B. rewrite Ex in B.
    repeat split; try lia; lra.
  - subst x. change (inject_Z 0) with 0%Q in Elo, Ehi.
    assert (Ex : (inject_Z (M - 1) == inject_Z M - 1)%Q).
    { unfold Z.sub. rewrite inject_Z_plus. reflexivity. }
    rewrite Ex in Elo', Ehi'.
    repeat split; try lia; lra.
Qed.

Lemma delta_cardinal d :
  In d cardinal ->
  (fst (delta d) = 0 \/ fst (delta d) = 1 \/ fst (delta d) = -1) /\
  (snd (delta d) = 0 \/ snd (delta d) = 1 \/ snd (delta d) = -1).
Proof.
  unfold cardinal. simpl. intros [<-|[<-|[<-|[<-|[]]]]]; vm_compute; auto.
Qed.

Section AdjacentTheorems.

Context {X : Collaborators}.

(** The adjacent cell, with the grid of the length fixed. *)
Lemma adjacent_cell g d :
  valid_geohash g -> In d cardinal ->
  exists r, adjacent g d = Ok r /\ valid_geohash r /\ length r = length g /\
    cell_xy r = ((fst (cell_xy g) + fst (delta d)) mod 2 ^ Z.of_nat (lon_bits (length g)),
                 (snd (cell_xy g) + snd (delta d)) mod 2 ^ Z.of_nat (lat_bits (length g))).
Proof.
  intros Hg Hd.
  destruct (adjacent_xy g Hg d Hd)
    as (r & dd & x & y & a & b & Hr & Hv & Hl & E & Hs & Hab & Hxy).
  exists r. split; [exact Hr|]. split; [exact Hv|]. split; [exact Hl|].
  destruct (half_split a b _ Hs Hab) as [Eb Ea].
  unfold lon_bits, lat_bits. rewrite <- Ea, <- Eb. unfold cell_xy at 2 3.
  rewrite E. exact Hxy.
Qed.

(** On every valid geohash and in each of the four directions, [adjacent]
    returns the geohash of the same length whose cell lies one column or
    one row further on the grid of that length: north and east count up,
    south and west count down, and the count goes around the globe, from
    the last column or row to the first and back. *)
Theorem adjacent_cell_xy g d :
  valid_geohash g -> In d cardinal ->
  exists r,
    adjacent g d = Ok r /\ valid_geohash r /\ length r = length g /\
    let cols := 2 ^ Z.of_nat (lon_bits (length g)) in
    let rows := 2 ^ Z.of_nat (lat_bits (length g)) in
    0 <= fst (cell_xy g) < cols /\ 0 <= snd (cell_xy g) < rows /\
    fst (cell_xy r) = (fst (cell_xy g) + fst (delta d)) mod cols /\
    snd (cell_xy r) = (snd (cell_xy g) + snd (delta d)) mod rows.
Proof.
  intros Hg Hd.
  destruct (adjacent_cell g d Hg Hd) as (r & Hr & Hv & Hl & Hxy).
  exists r. split; [exact Hr|]. split; [exact Hv|]. split; [exact Hl|].
  cbv zeta. rewrite Hxy. cbn [fst snd].
  destruct (bounds_of_cell_xy g Hg) as (bx & _ & H). cbv zeta in H.
  destruct (cell_xy g) as [x y]. cbn [fst snd].
  destruct H as (Hx & Hy & _). auto.
Qed.

(** The box of the adjacent cell: [adjacent] keeps the extents of the box
    and the range of the axis it does not move along; going north the new
    box starts at the latitude where the old one ends, going east at the
    longitude where the old one ends, and likewise south and west; from a
    cell at a pole or at the antimeridian the step leads to the cell at the
    opposite edge of the globe. *)
Theorem adjacent_bounds g d :
  valid_geohash g -> In d cardinal ->
  exists r bx bx',
    adjacent g d = Ok r /\ bounds (of_str g) = Ok bx /\ bounds (of_str r) = Ok bx' /\
    axis_moved (fst (delta d)) (-(180)) 180 (lonW bx) (lonE bx) (lonW bx') (lonE bx') /\
    axis_moved (snd (delta d)) (-(90)) 90 (latS bx) (latN bx) (latS bx') (latN bx').
Proof.
  intros Hg Hd.
  destruct (adjacent_cell g d Hg Hd) as (r & Hr & Hv & Hl & Hxy).
  destruct (bounds_of_cell_xy g Hg) as (bx & Hb & H).
  destruct (bounds_of_cell_xy r Hv) as (bx' & Hb' & H').
  cbv zeta in H, H'. rewrite Hl, Hxy in H'.
  destruct (cell_xy g) as [x y]. cbn [fst snd] in H'.
  destruct H as (Hx & Hy & Ew & Ee & Es & En).
  destruct H' as (_ & _ & Ew' & Ee' & Es' & En').
  destruct (delta_cardinal d Hd) as [Kx Ky].
  exists r, bx, bx'. split; [exact Hr|]. split; [exact Hb|]. split; [exact Hb'|].
  split.
  - exact (axis_moved_grid _ (-(180)) 360 (lon_bits (length g)) x _ _ _ _
             eq_refl Hx Kx Ew Ee Ew' Ee').
  - exact (axis_moved_grid _ (-(90)) 180 (lat_bits (length g)) y _ _ _ _
             eq_refl Hy Ky Es En Es' En').
Qed.

End AdjacentTheorems.

(** ** Neighbors *)

Lemma grid_size L :
  (1 <= L)%nat ->
  8 <= 2 ^ Z.of_nat (lon_bits L) /\ 4 <= 2 ^ Z.of_nat (lat_bits L).
Proof.
  intros HL. unfold lon_bits, lat_bits.
  pose proof (Nat.div_mod_eq (5 * L + 1) 2) as E1.
  pose proof (Nat.mod_upper_bound (5 * L + 1) 2 ltac:(lia)) as B1.
  pose proof (Nat.div_mod_eq (5 * L) 2) as E2.
  pose proof (Nat.mod_upper_bound (5 * L) 2 ltac:(lia)) as B2.
  split.
  - change 8 with (2 ^ Z.of_nat 3). apply Z.pow_le_mono_r; lia.
  - change 4 with (2 ^ Z.of_nat 2). apply Z.pow_le_mono_r; lia.
Qed.

Lemma mod_neighbors M x :
  0 <= x < M -> 3 <= M ->
  (x + 1) mod M <> x /\ (x + -1) mod M <> x /\ (x + 1) mod M <> (x + -1) mod M.
Proof.
  intros Hx HM.
  destruct (mod_steps M x 1 Hx ltac:(auto))
    as [(? & _)|[(_ & ? & E1)|[(_ & ? & E1)|[(? & _)|(? & _)]]]]; try lia;
  destruct (mod_steps M x (-1) Hx ltac:(auto))
    as [(? & _)|[(? & _)|[(? & _)|[(_ & ? & E2)|(_ & ? & E2)]]]]; try lia.
Qed.

Section Neighbors.

Context {X : Collaborators}.

(** Valid geohashes of one length in the same column and row are the
    same geohash. *)
Lemma cell_xy_inj g1 g2 :
  valid_geohash g1 -> valid_geohash g2 -> length g1 = length g2 ->
  cell_xy g1 = cell_xy g2 -> g1 = g2.
Proof.
  intros H1 H2 Hl Hxy.
  destruct (bounds_of_cell_xy g1 H1) as (b1 & Hb1 & K1).
  destruct (bounds_of_cell_xy g2 H2) as (b2 & Hb2 & K2).
  cbv zeta in K1, K2. rewrite <- Hl, <- Hxy in K2.
  destruct (cell_xy g1) as [x y].
  destruct K1 as (_ & _ & Ew & Ee & Es & En).
  destruct K2 as (_ & _ & Ew' & Ee' & Es' & En').
  pose proof (halfpow_pos (lon_bits (length g1))) as Pa.
  pose proof (halfpow_pos (lat_bits (length g1))) as Pb.
  rewrite inject_Z_plus in Ee, En, Ee', En'.
  change (inject_Z 1) with 1%Q in Ee, En, Ee', En'.
  assert (Hin1 : in_cell (latS b1) (lonW b1) (box_of b1)).
  { unfold in_cell, box_of. repeat split; lra. }
  assert (Hin2 : in_cell (latS b1) (lonW b1) (box_of b2)).
  { unfold in_cell, box_of. repeat split; lra. }
  pose proof (cell_encodes g1 b1 _ _ H1 Hb1 Hin1) as E1.
  pose proof (cell_encodes g2 b2 _ _ H2 Hb2 Hin2) as E2.
  rewrite Hl in E1. congruence.
Qed.

(** Where a walk of steps leads. *)
Lemma walk_xy : forall ds g,
  valid_geohash g -> Forall (fun d => In d cardinal) ds ->
  exists r, walk g ds = Ok r /\ valid_geohash r /\ length r = length g /\
    cell_xy r =
      ((fst (cell_xy g) + fst (displacement ds)) mod 2 ^ Z.of_nat (lon_bits (length g)),
       (snd (cell_xy g) + snd (displacement ds)) mod 2 ^ Z.of_nat (lat_bits (length g))).
Proof.
  induction ds as [|d ds IH]; intros g Hg Hds.
  - exists g. split; [reflexivity|]. split; [exact Hg|]. split; [reflexivity|].
    destruct (bounds_of_cell_xy g Hg) as (bx & _ & H). cbv zeta in H.
    destruct (cell_xy g) as [x y]. cbn [fst snd displacement].
    destruct H as (Hx & Hy & _). rewrite !Z.add_0_r, !Z.mod_small by lia. reflexivity.
  - inversion Hds as [|d' ds' Hd Hds']; subst.
    destruct (adjacent_cell g d Hg Hd) as (r1 & Hr1 & Hv1 & Hl1 & Hxy1).
    destruct (IH r1 Hv1 Hds') as (r & Hr & Hv & Hl & Hxy).
    exists r. cbn [walk]. rewrite Hr1. cbn [bind].
    split; [exact Hr|]. split; [exact Hv|]. split; [congruence|].
    rewrite Hxy, Hl1, Hxy1. cbn [fst snd displacement].
    rewrite !Zplus_mod_idemp_l. f_equal; f_equal; ring.
Qed.

(** Two walks from a valid geohash that add up to the same columns and
    rows end in the same geohash. *)
Lemma walk_same g ds1 ds2 :
  valid_geohash g ->
  Forall (fun d => In d cardinal) ds1 -> Forall (fun d => In d cardinal) ds2 ->
  displacement ds1 = displacement ds2 ->
  exists r, walk g ds1 = Ok r /\ walk g ds2 = Ok r /\ valid_geohash r /\
            length r = length g.
Proof.
  intros Hg H1 H2 E.
  destruct (walk_xy ds1 g Hg H1) as (r1 & Hr1 & Hv1 & Hl1 & Hxy1).
  destruct (walk_xy ds2 g Hg H2) as (r2 & Hr2 & Hv2 & Hl2 & Hxy2).
  exists r1. split; [exact Hr1|]. split; [|split; assumption].
  rewrite Hr2. f_equal. apply cell_xy_inj; try assumption; [congruence|].
  rewrite Hxy1, Hxy2, E. reflexivity.
Qed.

Lemma cardinal_list ds :
  forallb (fun d => existsb (str_eqb d) cardinal) ds = true ->
  Forall (fun d => In d cardinal) ds.
Proof.
  intros H. apply Forall_forall. intros d Hd.
  rewrite forallb_forall in H. specialize (H d Hd).
  apply existsb_exists in H. destruct H as (k & Hk & E).
  assert (d = k); [|subst; exact Hk].
  clear -E. revert k E. induction d as [|x d IH]; intros [|y k]; simpl; try discriminate; auto.
  intros H. apply andb_true_iff in H. destruct H as [H1 H2].
  apply Ascii.eqb_eq in H1. f_equal; auto.
Qed.

(** The order of two steps does not matter: from a valid geohash, going
    in one cardinal direction and then in another leads to the same
    geohash as going in the other direction first. *)
Theorem adjacent_steps_commute g d1 d2 :
  valid_geohash g -> In d1 cardinal -> In d2 cardinal ->
  exists r1 r2 r,
    adjacent g d1 = Ok r1 /\ adjacent g d2 = Ok r2 /\
    adjacent r1 d2 = Ok r /\ adjacent r2 d1 = Ok r /\
    valid_geohash r /\ length r = length g.
Proof.
  intros Hg H1 H2.
  assert (F12 : Forall (fun d => In d cardinal) [d1; d2])
    by (apply Forall_cons; [assumption | apply Forall_cons; [assumption | apply Forall_nil]]).
  assert (F21 : Forall (fun d => In d cardinal) [d2; d1])
    by (apply Forall_cons; [assumption | apply Forall_cons; [assumption | apply Forall_nil]]).
  destruct (walk_same g [d1; d2] [d2; d1] Hg F12 F21) as (r & E1 & E2 & Hv & Hl).
  { cbn [displacement fst snd]. f_equal; lia. }
  cbn [walk] in E1, E2.
  destruct (adjacent g d1) as [r1|] eqn:A1; [|discriminate].
  destruct (adjacent g d2) as [r2|] eqn:A2; [|discriminate].
  cbn [bind] in E1, E2.
  destruct (adjacent r1 d2) as [r12|] eqn:A12; [|discriminate].
  destruct (adjacent r2 d1) as [r21|] eqn:A21; [|discriminate].
  cbn [bind] in E1, E2. injection E1 as ->. injection E2 as ->.
  exists r1, r2, r.
  split; [reflexivity|]. split; [reflexivity|]. split; [exact A12|].
  split; [exact A21|]. split; assumption.
Qed.

Lemma walk1_eq g d : walk g [d] = adjacent g d.
Proof. cbn [walk]. destruct (adjacent g d); reflexivity. Qed.

Lemma walk2_eq g d1 d2 : walk g [d1; d2] = (r <- adjacent g d1 ;; adjacent r d2).
Proof.
  cbn [walk]. destruct (adjacent g d1) as [r|]; cbn [bind]; [|reflexivity].
  destruct (adjacent r d2); reflexivity.
Qed.

Lemma walk_app : forall ds1 ds2 g,
  walk g (ds1 ++ ds2) = (r <- walk g ds1 ;; walk r ds2).
Proof.
  induction ds1 as [|d ds1 IH]; intros ds2 g; cbn [app walk bind]; [reflexivity|].
  destruct (adjacent g d) as [r|]; cbn [bind]; [apply IH | reflexivity].
Qed.

(** A walk that adds up to nothing returns to its start. *)
Lemma walk_back g ds1 ds2 r :
  valid_geohash g ->
  Forall (fun d => In d cardinal) ds1 -> Forall (fun d => In d cardinal) ds2 ->
  displacement (ds1 ++ ds2) = (0, 0) ->
  walk g ds1 = Ok r -> walk r ds2 = Ok g.
Proof.
  intros Hg H1 H2 E Hr.
  assert (H12 : Forall (fun d => In d cardinal) (ds1 ++ ds2))
    by (apply Forall_app; split; assumption).
  destruct (walk_same g (ds1 ++ ds2) [] Hg H12 (Forall_nil _) E) as (r' & E1 & E2 & _).
  cbn [walk] in E2. injection E2 as <-.
  rewrite walk_app, Hr in E1. exact E1.
Qed.

(** For a valid geohash, [neighbors] returns eight valid geohashes of the
    same length, different from each other and from the geohash itself;
    each diagonal neighbor is reached by its two steps in either order,
    and the diagonal neighbor on the opposite side of a diagonal neighbor
    is the geohash itself. *)
Theorem neighbors_of_valid g :
  valid_geohash g ->
  exists nb,
    neighbors (of_str g) = Ok nb /\
    let cells := [nb_N nb; nb_NE nb; nb_E nb; nb_SE nb;
                  nb_S nb; nb_SW nb; nb_W nb; nb_NW nb] in
    Forall (fun r => valid_geohash r /\ length r = length g) cells /\
    NoDup (g :: cells) /\
    (e <- Geohash_E g ;; Geohash_N e) = Ok (nb_NE nb) /\
    (e <- Geohash_E g ;; Geohash_S e) = Ok (nb_SE nb) /\
    (w <- Geohash_W g ;; Geohash_S w) = Ok (nb_SW nb) /\
    (w <- Geohash_W g ;; Geohash_N w) = Ok (nb_NW nb) /\
    Geohash_SW (nb_NE nb) = Ok g /\ Geohash_NW (nb_SE nb) = Ok g /\
    Geohash_NE (nb_SW nb) = Ok g /\ Geohash_SE (nb_NW nb) = Ok g.
Proof.
  intros Hg.
  assert (C : forall ds, forallb (fun d => existsb (str_eqb d) cardinal) ds = true ->
                         Forall (fun d => In d cardinal) ds) by apply cardinal_list.
  destruct (walk_xy [lit "N"] g Hg (C [lit "N"] eq_refl)) as (n & Wn & Vn & Ln & Cn).
  destruct (walk_xy [lit "N"; lit "E"] g Hg (C [lit "N"; lit "E"] eq_refl)) as (ne & Wne & Vne & Lne & Cne).
  destruct (walk_xy [lit "E"] g Hg (C [lit "E"] eq_refl)) as (e & We & Ve & Le & Ce).
  destruct (walk_xy [lit "S"; lit "E"] g Hg (C [lit "S"; lit "E"] eq_refl)) as (se & Wse & Vse & Lse & Cse).
  destruct (walk_xy [lit "S"] g Hg (C [lit "S"] eq_refl)) as (s & Ws & Vs & Ls & Cs).
  destruct (walk_xy [lit "S"; lit "W"] g Hg (C [lit "S"; lit "W"] eq_refl)) as (sw & Wsw & Vsw & Lsw & Csw).
  destruct (walk_xy [lit "W"] g Hg (C [lit "W"] eq_refl)) as (w & Ww & Vw & Lw & Cw).
  destruct (walk_xy [lit "N"; lit "W"] g Hg (C [lit "N"; lit "W"] eq_refl)) as (nw & Wnw & Vnw & Lnw & Cnw).
  exists (mkNeighbors8 n ne e se s sw w nw). cbn [nb_N nb_NE nb_E nb_SE nb_S nb_SW nb_W nb_NW].
  split.
  { unfold neighbors. rewrite (_2Geohash_valid g Hg). cbn [bind].
    unfold Geohash_neighbors, Geohash_NE, Geohash_SE, Geohash_SW, Geohash_NW,
      Geohash_N, Geohash_S, Geohash_E, Geohash_W.
    rewrite <- !walk2_eq, <- !walk1_eq.
    rewrite Wn, Wne, We, Wse, Ws, Wsw, Ww, Wnw. reflexivity. }
  split.
  { repeat (apply Forall_cons; [split; assumption|]). apply Forall_nil. }
  split.
  { apply (NoDup_map_inv cell_xy). cbn [map].
    rewrite Cn, Cne, Ce, Cse, Cs, Csw, Cw, Cnw.
    destruct (bounds_of_cell_xy g Hg) as (bx & _ & H). cbv zeta in H.
    destruct (cell_xy g) as [x y]. cbn [fst snd].
    destruct H as (Hx & Hy & _).
    destruct Hg as [[HL _] _]. destruct (grid_size (length g) HL) as [GC GR].
    change (displacement [lit "N"]) with (0, 1).
    change (displacement [lit "N"; lit "E"]) with (1, 1).
    change (displacement [lit "E"]) with (1, 0).
    change (displacement [lit "S"; lit "E"]) with (1, -1).
    change (displacement [lit "S"]) with (0, -1).
    change (displacement [lit "S"; lit "W"]) with (-1, -1).
    change (displacement [lit "W"]) with (-1, 0).
    change (displacement [lit "N"; lit "W"]) with (-1, 1).
    cbn [fst snd]. rewrite !Z.add_0_r, (Z.mod_small x), (Z.mod_small y) by lia.
    destruct (mod_neighbors _ x Hx ltac:(lia)) as (Nx1 & Nx2 & Nx3).
    destruct (mod_neighbors _ y Hy ltac:(lia)) as (Ny1 & Ny2 & Ny3).
    set (xp := (x + 1) mod _) in *. set (xm := (x + -1) mod _) in *.
    set (yp := (y + 1) mod _) in *. set (ym := (y + -1) mod _) in *.
    repeat (apply NoDup_cons;
            [cbn [In]; intros K;
             repeat (destruct K as [K|K]; [injection K; intros; congruence|]);
             exact K|]).
    apply NoDup_nil. }
  assert (B : forall ds1 ds2 r, forallb (fun d => existsb (str_eqb d) cardinal) ds1 = true ->
              forallb (fun d => existsb (str_eqb d) cardinal) ds2 = true ->
              displacement (ds1 ++ ds2) = (0, 0) -> walk g ds1 = Ok r -> walk r ds2 = Ok g).
  { intros ds1 ds2 r H1 H2. apply walk_back; auto. }
  assert (S2 : forall ds1 ds2 r, forallb (fun d => existsb (str_eqb d) cardinal) ds1 = true ->
               forallb (fun d => existsb (str_eqb d) cardinal) ds2 = true ->
               displacement ds1 = displacement ds2 -> walk g ds2 = Ok r -> walk g ds1 = Ok r).
  { intros ds1 ds2 r H1 H2 E Hr.
    destruct (walk_same g ds1 ds2 Hg (C _ H1) (C _ H2) E) as (r' & E1 & E2 & _).
    congruence. }
  unfold Geohash_NE, Geohash_SE, Geohash_SW, Geohash_NW,
    Geohash_N, Geohash_S, Geohash_E, Geohash_W.
  rewrite <- !walk2_eq.
  split; [apply (S2 [lit "E"; lit "N"] [lit "N"; lit "E"] ne eq_refl eq_refl eq_refl Wne)|].
  split; [apply (S2 [lit "E"; lit "S"] [lit "S"; lit "E"] se eq_refl eq_refl eq_refl Wse)|].
  split; [apply (S2 [lit "W"; lit "S"] [lit "S"; lit "W"] sw eq_refl eq_refl eq_refl Wsw)|].
  split; [apply (S2 [lit "W"; lit "N"] [lit "N"; lit "W"] nw eq_refl eq_refl eq_refl Wnw)|].
  split; [apply (B [lit "N"; lit "E"] [lit "S"; lit "W"] ne eq_refl eq_refl eq_refl Wne)|].
  split; [apply (B [lit "S"; lit "E"] [lit "N"; lit "W"] se eq_refl eq_refl eq_refl Wse)|].
  split; [apply (B [lit "S"; lit "W"] [lit "N"; lit "E"] sw eq_refl eq_refl eq_refl Wsw)|].
  apply (B [lit "N"; lit "W"] [lit "S"; lit "E"] nw eq_refl eq_refl eq_refl Wnw).
Qed.

End Neighbors.

(** ** Concrete evaluations of the grid and of the neighbors *)

Lemma bounds_of_cell_xy_witness :
  valid_geohash (lit "u120fxw") /\
  exists bx,
    bounds (X := exact_floats) (of_str (lit "u120fxw")) = Ok bx /\
    let a := lon_bits (length (lit "u120fxw")) in
    let b := lat_bits (length (lit "u120fxw")) in
    let '(x, y) := cell_xy (lit "u120fxw") in
    0 <= x < 2 ^ Z.of_nat a /\ 0 <= y < 2 ^ Z.of_nat b /\
    (lonW bx == -(180) + inject_Z x * (360 * halfpow a))%Q /\
    (lonE bx == -(180) + inject_Z (x + 1) * (360 * halfpow a))%Q /\
    (latS bx == -(90) + inject_Z y * (180 * halfpow b))%Q /\
    (latN bx == -(90) + inject_Z (y + 1) * (180 * halfpow b))%Q.
Proof.
  assert (Hg : valid_geohash (lit "u120fxw"))
    by (apply valid_by_2geostr; vm_compute; reflexivity).
  split; [exact Hg|].
  exact (bounds_of_cell_xy (X := exact_floats) (lit "u120fxw") Hg).
Defined.

Lemma adjacent_cell_xy_witness :
  (valid_geohash (lit "bpbpbp") /\ In (lit "N") cardinal) /\
  exists r,
    adjacent (X := exact_floats) (lit "bpbpbp") (lit "N") = Ok r /\
    valid_geohash r /\ length r = length (lit "bpbpbp") /\
    let cols := 2 ^ Z.of_nat (lon_bits (length (lit "bpbpbp"))) in
    let rows := 2 ^ Z.of_nat (lat_bits (length (lit "bpbpbp"))) in
    0 <= fst (cell_xy (lit "bpbpbp")) < cols /\
    0 <= snd (cell_xy (lit "bpbpbp")) < rows /\
    fst (cell_xy r) = (fst (cell_xy (lit "bpbpbp")) + fst (delta (lit "N"))) mod cols /\
    snd (cell_xy r) = (snd (cell_xy (lit "bpbpbp")) + snd (delta (lit "N"))) mod rows.
Proof.
  assert (Hg : valid_geohash (lit "bpbpbp"))
    by (apply valid_by_2geostr; vm_compute; reflexivity).
  assert (Hd : In (lit "N") cardinal) by (left; reflexivity).
  split; [split; [exact Hg | exact Hd]|].
  exact (adjacent_cell_xy (X := exact_floats) (lit "bpbpbp") (lit "N") Hg Hd).
Defined.

Lemma adjacent_bounds_witness :
  (valid_geohash (lit "u120fxw") /\ In (lit "E") cardinal) /\
  exists r bx bx',
    adjacent (X := exact_floats) (lit "u120fxw") (lit "E") = Ok r /\
    bounds (X := exact_floats) (of_str (lit "u120fxw")) = Ok bx /\
    bounds (X := exact_floats) (of_str r) = Ok bx' /\
    axis_moved (fst (delta (lit "E"))) (-(180)) 180
               (lonW bx) (lonE bx) (lonW bx') (lonE bx') /\
    axis_moved (snd (delta (lit "E"))) (-(90)) 90
               (latS bx) (latN bx) (latS bx') (latN bx').
Proof.
  assert (Hg : valid_geohash (lit "u120fxw"))
    by (apply valid_by_2geostr; vm_compute; reflexivity).
  assert (Hd : In (lit "E") cardinal) by (right; right; left; reflexivity).
  split; [split; [exact Hg | exact Hd]|].
  exact (adjacent_bounds (X := exact_floats) (lit "u120fxw") (lit "E") Hg Hd).
Defined.

Lemma adjacent_steps_commute_witness :
  (valid_geohash (lit "u120fxw") /\ In (lit "N") cardinal /\ In (lit "E") cardinal) /\
  exists r1 r2 r,
    adjacent (X := exact_floats) (lit "u120fxw") (lit "N") = Ok r1 /\
    adjacent (X := exact_floats) (lit "u120fxw") (lit "E") = Ok r2 /\
    adjacent (X := exact_floats) r1 (lit "E") = Ok r /\
    adjacent (X := exact_floats) r2 (lit "N") = Ok r /\
    valid_geohash r /\ length r = length (lit "u120fxw").
Proof.
  assert (Hg : valid_geohash (lit "u120fxw"))
    by (apply valid_by_2geostr; vm_compute; reflexivity).
  assert (H1 : In (lit "N") cardinal) by (left; reflexivity).
  assert (H2 : In (lit "E") cardinal) by (right; right; left; reflexivity).
  split; [split; [exact Hg | split; [exact H1 | exact H2]]|].
  exact (adjacent_steps_commute (X := exact_floats) (lit "u120fxw") (lit "N") (lit "E")
           Hg H1 H2).
Defined.

Lemma neighbors_of_valid_witness :
  valid_geohash (lit "u120fxw") /\
  exists nb,
    neighbors (X := exact_floats) (of_str (lit "u120fxw")) = Ok nb /\
    let cells := [nb_N nb; nb_NE nb; nb_E nb; nb_SE nb;
                  nb_S nb; nb_SW nb; nb_W nb; nb_NW nb] in
    Forall (fun r => valid_geohash r /\ length r = length (lit "u120fxw")) cells /\
    NoDup (lit "u120fxw" :: cells) /\
    (e <- Geohash_E (X := exact_floats) (lit "u120fxw") ;;
     Geohash_N (X := exact_floats) e) = Ok (nb_NE nb) /\
    (e <- Geohash_E (X := exact_floats) (lit "u120fxw") ;;
     Geohash_S (X := exact_floats) e) = Ok (nb_SE nb) /\
    (w <- Geohash_W (X := exact_floats) (lit "u120fxw") ;;
     Geohash_S (X := exact_floats) w) = Ok (nb_SW nb) /\
    (w <- Geohash_W (X := exact_floats) (lit "u120fxw") ;;
     Geohash_N (X := exact_floats) w) = Ok (nb_NW nb) /\
    Geohash_SW (X := exact_floats) (nb_NE nb) = Ok (lit "u120fxw") /\
    Geohash_NW (X := exact_floats) (nb_SE nb) = Ok (lit "u120fxw") /\
    Geohash_NE (X := exact_floats) (nb_SW nb) = Ok (lit "u120fxw") /\
    Geohash_SE (X := exact_floats) (nb_NW nb) = Ok (lit "u120fxw").
Proof.
  assert (Hg : valid_geohash (lit "u120fxw"))
    by (apply valid_by_2geostr; vm_compute; reflexivity).
  split; [exact Hg|].
  exact (neighbors_of_valid (X := exact_floats) (lit "u120fxw") Hg).
Defined.

(** The eight neighbors of the documented cell. *)
Example neighbors_vector :
  neighbors (X := exact_floats) (of_str (lit "u120fxw"))
    = Ok (mkNeighbors8 (lit "u120fxy") (lit "u120fxz") (lit "u120fxx") (lit "u120fxr")
                       (lit "u120fxq") (lit "u120fxm") (lit "u120fxt") (lit "u120fxv")).
Proof. vm_compute. reflexivity. Qed.

(** ** sizes, decode and the errors of encode *)





(** The texts of [decode] denote a position close to the center of the
    cell: on each axis the rounding moves the center, which [latlon]
    returns, by less than a tenth of the error that [decode_error]
    returns. *)
Theorem decode_near_center {X : Collaborators} g :
  valid_geohash g ->
  exists bx lat lon eh ew,
    bounds (of_str g) = Ok bx /\ decode (of_str g) = Ok (lat, lon) /\
    decode_error (of_str g) = Ok (eh, ew) /\
    (Qabs (lat - fst (_2center bx)) < eh * (1 # 10))%Q /\
    (Qabs (lon - snd (_2center bx)) < ew * (1 # 10))%Q.
Proof.
  intros Hg.
  destruct (decode_valid g Hg)
    as (bx & na & nb & kh & kw & Hb & Hdec & _ & _ & _ & _ & Hkh & Hkw & _).
  destruct (decode_error_valid g Hg) as (bx' & eh & ew & Hb' & He & _ & _ & Eh & Ew).
  rewrite Hb in Hb'. injection Hb' as <-.
  exists bx. eexists. eexists. exists eh, ew.
  split; [exact Hb|]. split; [exact Hdec|]. split; [exact He|].
  unfold _2center. cbn [fst snd].
  assert (K : forall x h k, (10 < h * tenpow k)%Q ->
              (Qabs (fstr x (Z.of_nat k) - x) < h * (1 # 20))%Q).
  { intros x h k Hk. pose proof (fstr_error x k) as Hr.
    pose proof (tenpow_ge_1 k) as HT.
    assert (Ht : (0 < / tenpow k)%Q) by (apply Qinv_lt_0_compat; lra).
    assert (H10 : (10 * / tenpow k < h)%Q).
    { assert (E : (h * tenpow k * / tenpow k == h)%Q) by (field; lra).
      rewrite <- E. apply Qmult_lt_compat_r; assumption. }
    lra. }
  split.
  - pose proof (K (favg (latN bx) (latS bx)) _ kh Hkh). lra.
  - pose proof (K (favg (lonE bx) (lonW bx)) _ kw Hkw). lra.
Qed.

Lemma decode_near_center_witness :
  valid_geohash (lit "u120fxw") /\
  exists bx lat lon eh ew,
    bounds (X := exact_floats) (of_str (lit "u120fxw")) = Ok bx /\
    decode (X := exact_floats) (of_str (lit "u120fxw")) = Ok (lat, lon) /\
    decode_error (X := exact_floats) (of_str (lit "u120fxw")) = Ok (eh, ew) /\
    (Qabs (lat - fst (_2center bx)) < eh * (1 # 10))%Q /\
    (Qabs (lon - snd (_2center bx)) < ew * (1 # 10))%Q.
Proof.
  assert (Hg : valid_geohash (lit "u120fxw"))
    by (apply valid_by_2geostr; vm_compute; reflexivity).
  split; [exact Hg|].
  exact (decode_near_center (X := exact_floats) (lit "u120fxw") Hg).
Defined.

(** What [encode] refuses, and in which order: a latitude outside
    [-90, 90] first, then a longitude outside [-180, 180], then a precision
    outside 1..12; whatever is not refused is encoded. *)
Theorem encode_rejects {X : Collaborators} lat lon precision :
  (~ (-(90) <= lat <= 90)%Q -> encode lat lon precision = Err (GeohashError_lat lat)) /\
  ((-(90) <= lat <= 90)%Q -> ~ (-(180) <= lon <= 180)%Q ->
   encode lat lon precision = Err (GeohashError_lon lon)) /\
  ((-(90) <= lat <= 90)%Q -> (-(180) <= lon <= 180)%Q ->
   forall p, precision = Some p -> ~ 1 <= p <= 12 ->
   encode lat lon precision = Err (GeohashError_precision p)) /\
  ((-(90) <= lat <= 90)%Q -> (-(180) <= lon <= 180)%Q -> precision_ok precision ->
   exists gh, encode lat lon precision = Ok gh /\ valid_geohash gh).
Proof.
  assert (Hlat : forall v lo hi, ~ (lo <= v <= hi)%Q -> Qle_bool lo v && Qle_bool v hi = false).
  { intros v lo hi H. destruct (Qle_bool lo v && Qle_bool v hi) eqn:E; [|reflexivity].
    exfalso. apply H. apply andb_true_iff in E. destruct E as [E1 E2].
    apply Qle_bool_iff in E1, E2. auto. }
  split; [|split; [|split]].
  - intros H. unfold encode, encode_of, _2fll, Lat. rewrite (Hlat _ _ _ H). reflexivity.
  - intros H1 H2. unfold encode, encode_of, _2fll, Lat, Lon.
    destruct H1 as [A B]. apply Qle_bool_iff in A, B. rewrite A, B. cbn [andb bind].
    rewrite (Hlat _ _ _ H2). reflexivity.
  - intros H1 H2 p -> Hp. rewrite encode_Some. unfold encode_fixed.
    rewrite (_2fll_in_range lat lon H1 H2). cbn [bind]. unfold Precision_, _MaxPrec.
    replace ((1 <=? p) && (p <=? 12)) with false; [reflexivity|].
    symmetry. apply andb_false_iff.
    destruct (Z.leb_spec 1 p); [|left; reflexivity].
    destruct (Z.leb_spec p 12); [lia | right; reflexivity].
  - intros H1 H2 Hp.
    destruct (encode_any lat lon precision H1 H2 Hp) as (p & Hp' & E).
    destruct (encode_run lat lon p H1 H2 Hp') as (gh & _ & _ & Henc & Hgh & _).
    exists gh. rewrite E. auto.
Qed.

(** ** Resolutions and cells *)

Lemma grid_resolutions L :
  (1 <= L <= 12)%nat ->
  (lon_res (Z.of_nat L) == 360 * halfpow (lon_bits L))%Q /\
  (snd (resolution2 (Z.of_nat L) (Some (Z.of_nat L))) < 180 * halfpow (lat_bits L))%Q.
Proof.
  intros H.
  assert (C : (L = 1 \/ L = 2 \/ L = 3 \/ L = 4 \/ L = 5 \/ L = 6 \/ L = 7 \/ L = 8 \/
               L = 9 \/ L = 10 \/ L = 11 \/ L = 12)%nat) by lia.
  repeat (destruct C as [C|C]; [subst L; split; vm_compute; reflexivity|]).
  subst L; split; vm_compute; reflexivity.
Qed.

(** The longitude resolution that [resolution2] returns for a precision is
    the width of every cell of that length; the latitude resolution that
    it returns when the second precision is given is strictly smaller
    than the height of the cells. *)
Theorem resolution2_and_cells {X : Collaborators} g prec2 :
  valid_geohash g ->
  exists bx,
    bounds (of_str g) = Ok bx /\
    (fst (resolution2 (Z.of_nat (length g)) prec2) == lonE bx - lonW bx)%Q /\
    (snd (resolution2 (Z.of_nat (length g)) (Some (Z.of_nat (length g))))
       < latN bx - latS bx)%Q.
Proof.
  intros Hg.
  destruct (bounds_valid g Hg) as (bx & a & b & Hb & Hab & Hd & Hew & Hns & _).
  destruct (half_split a b _ Hab Hd) as [Eb Ea].
  fold (lat_bits (length g)) in Eb. fold (lon_bits (length g)) in Ea. subst a b.
  destruct Hg as [HL _]. destruct (grid_resolutions (length g) HL) as [R1 R2].
  exists bx. split; [exact Hb|]. rewrite resolution2_fst, Hew, Hns.
  split; assumption.
Qed.

Lemma resolution2_and_cells_witness :
  valid_geohash (lit "u120fxw") /\
  exists bx,
    bounds (X := exact_floats) (of_str (lit "u120fxw")) = Ok bx /\
    (fst (resolution2 (Z.of_nat (length (lit "u120fxw"))) None) == lonE bx - lonW bx)%Q /\
    (snd (resolution2 (Z.of_nat (length (lit "u120fxw")))
                      (Some (Z.of_nat (length (lit "u120fxw")))))
       < latN bx - latS bx)%Q.
Proof.
  assert (Hg : valid_geohash (lit "u120fxw"))
    by (apply valid_by_2geostr; vm_compute; reflexivity).
  split; [exact Hg|].
  exact (resolution2_and_cells (X := exact_floats) (lit "u120fxw") None Hg).
Defined.
